(** * Disk rebalancing utility: a shallow embedding of
    [ubuntu_reblance_disk_usage.py] and the properties of its specification.

    The script is an orchestration of file-system reads, operator prompts and
    privileged external commands.  The embedding keeps that shape:

    - exceptions are an [outcome] ([Ok] or [Raise]);
    - every function of the script is a computation in the monad [M], which
      threads a [state] (the chronological [trace] of observable events, the
      lines still waiting on standard input, the text of [/etc/fstab]);
    - everything outside the script (the directory tree, the free space,
      what [mkdir], [mount], [rsync], [diff], [rm] and [tee] answer) is
      collected in a [world]; the answers may depend on the whole history of
      events so far.

    What the standard library does is modelled from its documentation
    (CPython 3.11):
    [os.walk] lists links to directories among the directories and does not
    walk into them; [Path.rglob] does not enter links to directories either;
    both pass over a directory that cannot be listed; [Path.is_dir], with
    which [rglob] starts, raises for a path that cannot be examined;
    [Path.read_text] reads in text mode, with CR LF and CR translated to LF;
    [subprocess.run] raises [OSError] when the command cannot be started
    and, with [check=True], [CalledProcessError] when it exits with a
    non-zero code.

    The exceptions of the model are those that this environment makes the
    script meet.  What the interpreter itself may raise (the recursion limit
    on a very deep tree, an encoding error or a closed stream in [print] and
    [input]) is not modelled, and sizes are exact numbers: the float that
    the script computes for a directory agrees with them below 2^53 KB. *)

From Stdlib Require Import ZArith NArith QArith List Ascii String Lia.
From Stdlib Require Import Sorting.Sorted Sorting.Permutation.
From stdpp Require Import base list strings.

Import ListNotations.
Local Open Scope string_scope.
Local Open Scope list_scope.
Local Open Scope Z_scope.

(** ** Exceptions *)

(** The Python exceptions that the environment can make the script meet. *)
Inductive exn : Type :=
| OSError              (* file-system failure, or a command that cannot be started *)
| CalledProcessError   (* [check=True] and a non-zero return code *)
| TypeError            (* arithmetic on [None] *)
| EOFError.            (* [input()] at the end of standard input *)

Inductive outcome (A : Type) : Type :=
| Ok (a : A)
| Raise (e : exn).
Arguments Ok {A} a.
Arguments Raise {A} e.

(** ** The directory tree *)

(** A path is kept as the list of its components below the root of the file
    system: [/home/ann] is [["home"; "ann"]].  [show_path] gives the text
    that is handed to external commands. *)
Definition path : Type := list string.

Definition os_path_join (root : path) (name : string) : path := root ++ [name].

Definition show_path (p : path) : string :=
  fold_right (fun c acc => "/" +:+ c +:+ acc) "" p.

(** [Path(p).name]: the last component. *)
Definition path_name (p : path) : string := List.last p "".

(** What a directory listing can contain.  Sizes are [st_size] values, in
    bytes.  An entry that is a symbolic link to a regular file is a [File]
    (both [is_file()] and [stat()] follow links).  Two kinds of directory
    refuse to be listed, which neither [os.walk] nor [rglob] reports: both
    pass over the directory as if it were empty.  A [SearchOnly] directory
    is one that the caller may traverse but not list (mode [--x]): the paths
    of its entries still resolve.  A [Locked] directory can be neither
    listed nor traversed: no path beneath it can be examined. *)
#[local] Unset Elimination Schemes.
Inductive node : Type :=
| File (name : string) (st_size : N)
| Special (name : string)
    (* fifo, socket, device, dangling link: [is_file()] is [False] *)
| Faulty (name : string)
    (* [is_file()] or [stat()] raises an [OSError] (for instance the entry
       sits in a directory without search permission, or the device reports
       an IO error) *)
| Dir (name : string) (entries : list node)
| DirLink (name : string) (target : list node)
    (* symbolic link to a directory whose entries are [target] *)
| SearchOnly (name : string) (entries : list node)
    (* a directory that can be traversed but not listed *)
| Locked (name : string).
    (* a directory that can be neither traversed nor listed *)
#[local] Set Elimination Schemes.

Definition node_name (n : node) : string :=
  match n with
  | File s _ | Special s | Faulty s | Dir s _ | DirLink s _ | SearchOnly s _
  | Locked s => s
  end.

(** [Path.rglob('*')]: every entry at every depth.  The recursion enters
    real directories only; a link to a directory is listed and not entered. *)
Fixpoint rglob_node (n : node) : list node :=
  n :: match n with
       | Dir _ es => flat_map rglob_node es
       | _ => []
       end.

Definition rglob (es : list node) : list node := flat_map rglob_node es.

(** [f.is_file()] and [f.stat().st_size] for an entry produced by [rglob]. *)
Definition is_file (n : node) : outcome bool :=
  match n with
  | File _ _ => Ok true
  | Faulty _ => Raise OSError
  | _ => Ok false
  end.

Definition st_size (n : node) : N :=
  match n with
  | File _ s => s
  | _ => 0%N
  end.

(** [sum(f.stat().st_size for f in ... if f.is_file())]; [None] when the
    iteration raised an [OSError]. *)
Fixpoint sum_file_sizes (fs : list node) : option N :=
  match fs with
  | [] => Some 0%N
  | f :: fs' =>
      match is_file f with
      | Raise _ => None
      | Ok b =>
          match sum_file_sizes fs' with
          | None => None
          | Some t => Some (if b then (st_size f + t)%N else t)
          end
      end
  end.

(** Path resolution below a listing; links are followed.  [descend] gives
    what a listing of the directory at the path shows: nothing for a
    directory that refuses to be listed, and no listing at all when the path
    does not lead to a directory. *)
Fixpoint lookup_entry (name : string) (es : list node) : option node :=
  match es with
  | [] => None
  | e :: es' => if String.eqb (node_name e) name then Some e else lookup_entry name es'
  end.

Fixpoint descend (es : list node) (p : path) : option (list node) :=
  match p with
  | [] => Some es
  | c :: p' =>
      match lookup_entry c es with
      | Some (Dir _ es') => descend es' p'
      | Some (DirLink _ es') => descend es' p'
      | Some (SearchOnly _ es') =>
          match p' with
          | [] => Some []
          | _ :: _ => descend es' p'
          end
      | Some (Locked _) =>
          match p' with
          | [] => Some []
          | _ :: _ => None
          end
      | _ => None
      end
  end.

(** [stat] on the path fails with an error that [Path.is_dir()] does not
    ignore (it ignores a missing entry and a component that is not a
    directory; it raises for an entry that cannot be examined, and for
    whatever is looked for in a directory that cannot be traversed). *)
Fixpoint unexaminable (es : list node) (p : path) : bool :=
  match p with
  | [] => false
  | c :: p' =>
      match lookup_entry c es with
      | Some (Dir _ es') | Some (DirLink _ es') | Some (SearchOnly _ es') => unexaminable es' p'
      | Some (Locked _) =>
          match p' with
          | [] => false
          | _ :: _ => true
          end
      | Some (Faulty _) => true
      | _ => false
      end
  end.

(** [os.walk(top)], top-down, links not followed: the paths
    [os.path.join(root, dir)] in the order in which the two nested loops of
    [find_large_directories] meet them.  [dirs] holds the real directories
    and the links to directories; only the former are walked into, and a
    directory that refuses to be listed yields nothing. *)
Definition listed_as_dir (n : node) : bool :=
  match n with
  | Dir _ _ | DirLink _ _ | SearchOnly _ _ | Locked _ => true
  | _ => false
  end.

Definition joined_dirs (root : path) (es : list node) : list path :=
  map (fun e => os_path_join root (node_name e)) (filter (fun e => listed_as_dir e = true) es).

Fixpoint walk_node (root : path) (n : node) : list path :=
  match n with
  | Dir name es =>
      let top := os_path_join root name in
      joined_dirs top es ++ flat_map (walk_node top) es
  | _ => []
  end.

Definition walk (top : path) (es : list node) : list path :=
  joined_dirs top es ++ flat_map (walk_node top) es.

(** ** Events, world and state *)

Inductive level : Type := INFO | ERROR.

(** The lines written by [print]; numbers and paths are kept as values, the
    formatting of [{size_mb:.2f}] is not modelled. *)
Inductive printed : Type :=
| Header (i n : Z)        (* [{i+1}/{min(limit, len(dir_info))}] *)
| Directory (p : path)    (* [Directory: {path}] *)
| Size (size_mb : Q)      (* [Size: {size_mb:.2f} MB] *)
| PleaseEnter             (* [Please enter 'y' or 'n'] *)
| Marked (p : path)       (* [Marked for moving: {path}] *)
| Skipping (p : path).    (* [Skipping: {path}] *)

(** What [subprocess.run] meets: the command ran and exited with a return
    code, or it could not be started at all (no such executable, no process
    left), in which case [subprocess.run] raises an [OSError]. *)
Inductive proc : Type :=
| Exited (returncode : Z)
| NotStarted.

Inductive event : Type :=
| Stdout (x : printed)
| Input (reply : option string)
| Log (lvl : level) (msg : string)
| DiskUsage (p : string)
| Mkdir (p : string)
| Run (argv : list string) (input : option string) (r : proc)
| IsSymlink (p : string)
| PathExists (p : string)
| Unlink (p : string)
| SymlinkTo (link target : string)
| ReadText (p : string).

(** The environment of one run.  [fs] is the listing of [/] as the scanner
    and the capacity check see it (nothing is mutated before the transfers
    start).  Every other answer may depend on the events so far. *)
Record world : Type := {
  fs : list node;
  disk_usage : list event -> string -> option (Z * Z * Z);  (* total, used, free; [None]: OSError *)
  mkdir : list event -> string -> bool;                    (* [false]: OSError *)
  spawn : list event -> list string -> option string -> proc;
  tee_wrote : list event -> string -> nat;
    (* how many characters of its input a [tee] that exits with a non-zero
       code had appended *)
  is_symlink : list event -> string -> bool;
  path_exists : list event -> string -> bool;
  unlink : list event -> string -> bool;                   (* [false]: OSError *)
  symlink_to : list event -> string -> string -> bool      (* [false]: OSError *)
}.

Record state : Type := {
  trace : list event;          (* oldest event first *)
  stdin : list string;         (* the lines the operator will type *)
  fstab : option string        (* content of /etc/fstab; [None]: it cannot be read *)
}.

(** ** The monad of the script *)

Definition M (A : Type) : Type := state -> outcome A * state.

Definition ret {A} (a : A) : M A := fun st => (Ok a, st).

Definition bind {A B} (m : M A) (f : A -> M B) : M B := fun st =>
  match m st with
  | (Ok a, st') => f a st'
  | (Raise e, st') => (Raise e, st')
  end.

Declare Scope script_scope.
Delimit Scope script_scope with script.
Notation "x ← y ; z" := (bind y (fun x => z))
  (at level 20, y at level 100, z at level 200, only parsing) : script_scope.
Notation "' x ← y ; z" := (bind y (fun x => z))
  (at level 20, x pattern, y at level 100, z at level 200, only parsing) : script_scope.
Notation "x ;; z" := (bind x (fun _ => z))
  (at level 100, z at level 200, only parsing, right associativity) : script_scope.
Local Open Scope script_scope.

Definition raise {A} (e : exn) : M A := fun st => (Raise e, st).

(** [try: body except <the exceptions h accepts>: ...] *)
Definition try_except {A} (body : M A) (h : exn -> option (M A)) : M A := fun st =>
  match body st with
  | (Ok a, st') => (Ok a, st')
  | (Raise e, st') =>
      match h e with
      | Some handler => handler st'
      | None => (Raise e, st')
      end
  end.

Definition emit (e : event) : M unit := fun st =>
  (Ok tt, {| trace := trace st ++ [e]; stdin := stdin st; fstab := fstab st |}).

Definition history : M (list event) := fun st => (Ok (trace st), st).

Definition logger (lvl : level) (msg : string) : M unit := emit (Log lvl msg).
Definition print (x : printed) : M unit := emit (Stdout x).

(** A [for] loop whose body updates the variables [acc]. *)
Fixpoint for_each {A B} (l : list A) (body : A -> B -> M B) (acc : B) : M B :=
  match l with
  | [] => ret acc
  | x :: l' => acc' ← body x acc; for_each l' body acc'
  end.

(** ** Python built-ins used by the script *)

(** [l[:stop]] *)
Definition slice_to {A} (l : list A) (stop : Z) : list A :=
  if 0 <=? stop then take (Z.to_nat stop) l
  else take (Z.to_nat (Z.of_nat (length l) + stop)) l.

Definition lower_ascii (c : ascii) : ascii :=
  let n := nat_of_ascii c in
  if ((65 <=? n) && (n <=? 90))%nat then ascii_of_nat (n + 32) else c.

(** [str.lower()] *)
Fixpoint lower (s : string) : string :=
  match s with
  | EmptyString => EmptyString
  | String c s' => String (lower_ascii c) (lower s')
  end.

Definition Qlt_bool (x y : Q) : bool := negb (Qle_bool y x).

(** [sorted(l, key=lambda x: x[1], reverse=True)]: a stable sort, larger
    keys first; of two entries with equal keys the one that came first in
    [l] stays first. *)
Fixpoint insert_desc (x : path * Q) (l : list (path * Q)) : list (path * Q) :=
  match l with
  | [] => [x]
  | y :: l' => if Qle_bool (snd y) (snd x) then x :: y :: l' else y :: insert_desc x l'
  end.

Definition sorted_desc (l : list (path * Q)) : list (path * Q) :=
  fold_right insert_desc [] l.

(** [needle in haystack] on text. *)
Fixpoint starts_with (p s : list ascii) : bool :=
  match p, s with
  | [], _ => true
  | a :: p', b :: s' => if Ascii.eqb a b then starts_with p' s' else false
  | _ :: _, [] => false
  end.

Fixpoint contains (p s : list ascii) : bool :=
  starts_with p s ||
  match s with
  | [] => false
  | _ :: s' => contains p s'
  end.

Definition str_in (needle haystack : string) : bool :=
  contains (list_ascii_of_string needle) (list_ascii_of_string haystack).

Definition newline : string := String "010"%char EmptyString.

(** What a file opened in text mode hands to the program: [open] translates
    the line endings CR LF and CR to LF ([newline=None]). *)
Fixpoint universal_newlines (s : string) : string :=
  match s with
  | EmptyString => EmptyString
  | String c s' =>
      if Ascii.eqb c "013"
      then String "010"
             match s' with
             | String c' s'' =>
                 if Ascii.eqb c' "010" then universal_newlines s'' else universal_newlines s'
             | EmptyString => EmptyString
             end
      else String c (universal_newlines s')
  end.

(** ** The script *)

Record usage : Type := { total : Z; used : Z; available : Z }.

Section Script.

Context (w : world).

(** [Path('/etc/fstab')] as text. *)
Definition fstab_path : string := "/etc/fstab".

(** The one command of the script that changes a file the script reads
    back: [tee -a /etc/fstab] appends its standard input.  When it exits
    with code 0 every write has succeeded and the whole input is in the
    file.  When it exits with another code it may have appended any initial
    part of the input: nothing when [sudo] refused, all of it when only the
    copy to standard output failed; the world says how much.  [h] is the
    history before the command. *)
Definition after_run (h : list event) (argv : list string) (input : option string)
    (r : proc) (content : option string) : option string :=
  match input, r with
  | Some text, Exited rc =>
      if decide (argv = ["sudo"; "tee"; "-a"; fstab_path])
      then option_map
             (fun c => c +:+ (if rc =? 0 then text else substring 0 (tee_wrote w h text) text))
             content
      else content
  | _, _ => content
  end.

(** [subprocess.run(argv, input=..., check=...)]; the value is the return
    code of the completed process. *)
Definition subprocess_run (check : bool) (argv : list string) (input : option string) : M Z :=
  fun st =>
    let r := spawn w (trace st) argv input in
    let st' := {| trace := trace st ++ [Run argv input r];
                  stdin := stdin st;
                  fstab := after_run (trace st) argv input r (fstab st) |} in
    match r with
    | NotStarted => (Raise OSError, st')
    | Exited rc =>
        if check && negb (rc =? 0) then (Raise CalledProcessError, st') else (Ok rc, st')
    end.

(** *** calculate_dir_size *)

(** The log lines are kept without the text of the exception. *)

(** The entries that [Path(directory).rglob('*')] iterates: all that lies
    beneath [directory]; nothing when [directory] is not a directory. *)
Definition rglob_from (directory : path) : list node :=
  match descend (fs w) directory with
  | Some es => rglob es
  | None => []
  end.

(** The sum inside the [try]; [None] when an [OSError] was raised: by the
    [is_dir()] with which [rglob] starts, when [directory] itself cannot be
    examined, or by [is_file()] on an entry beneath it. *)
Definition sum_beneath (directory : path) : option N :=
  if unexaminable (fs w) directory then None
  else sum_file_sizes (rglob_from directory).

Definition calculate_dir_size (directory : path) : M (option Z) :=
  match sum_beneath directory with
  | Some bytes => ret (Some (Z.of_N bytes / 1024))
  | None => logger ERROR "Failed to calculate directory size";; ret None
  end.

(** *** find_large_directories *)

Definition home : path := ["home"].

Definition os_walk (top : path) : list path :=
  match descend (fs w) top with
  | Some es => walk top es
  | None => []
  end.

(** The body of the inner [for] loop.  [size_mb] is a Python float: the
    quotient of an integer by 1024, which binary64 holds exactly for every
    size below 2^53 KB, and which Python compares with the integer threshold
    by value.  The rational number below is that value. *)
Definition measure (min_size_mb : Z)
    : path -> list (path * Q) -> M (list (path * Q)) := fun path large_dirs =>
  size ← calculate_dir_size path;
  match size with
  | None => raise TypeError                                    (* [None / 1024] *)
  | Some kb =>
      let size_mb := (inject_Z kb / 1024)%Q in
      if Qlt_bool (inject_Z min_size_mb) size_mb
      then ret (large_dirs ++ [(path, size_mb)])
      else ret large_dirs
  end.

Definition find_large_directories (min_size_mb : Z) : M (list (path * Q)) :=
  large_dirs ← for_each (os_walk home) (measure min_size_mb) [];
  ret (sorted_desc large_dirs).

(** *** prompt_directory_move *)

(** The [while True] loop: read lines until one is [y] or [n] once
    lower-cased. *)
Fixpoint ask (lines : list string) (tr : list event)
    : outcome string * (list event * list string) :=
  match lines with
  | [] => (Raise EOFError, (tr ++ [Input None], []))
  | l :: rest =>
      let response := lower l in
      let tr' := tr ++ [Input (Some l)] in
      if decide (response = "y" \/ response = "n")
      then (Ok response, (tr', rest))
      else ask rest (tr' ++ [Stdout PleaseEnter])
  end.

Definition ask_yes_no : M string := fun st =>
  let '(r, (tr, rest)) := ask (stdin st) (trace st) in
  (r, {| trace := tr; stdin := rest; fstab := fstab st |}).

(** The body of the [for] loop; [i] is the counter of [enumerate]. *)
Definition offer (limit : Z) (dir_info : list (path * Q))
    (candidate : path * Q) (vars : Z * list path) : M (Z * list path) :=
  let '(path, size_mb) := candidate in
  let '(i, dirs_to_move) := vars in
  print (Header (i + 1) (Z.min limit (Z.of_nat (length dir_info))));;
  print (Directory path);;
  print (Size size_mb);;
  response ← ask_yes_no;
  if decide (response = "y")
  then print (Marked path);; ret (i + 1, dirs_to_move ++ [path])
  else print (Skipping path);; ret (i + 1, dirs_to_move).

Definition prompt_directory_move (dir_info : list (path * Q)) (limit : Z) : M (list path) :=
  vars ← for_each (slice_to dir_info limit) (offer limit dir_info) (0, []);
  ret (snd vars).

(** *** check_disk_usage *)

Definition check_disk_usage (p : string) : M (option usage) :=
  try_except
    (h ← history;
     emit (DiskUsage p);;
     match disk_usage w h p with
     | None => raise OSError
     | Some (t, u, f) =>
         ret (Some {| total := t / 1024; used := u / 1024; available := f / 1024 |})
     end)
    (fun e => match e with
              | OSError => Some (logger ERROR "Failed to check disk usage";; ret None)
              | _ => None
              end).

(** *** verify_mount_point, mount_drive *)

Definition verify_mount_point (mount_point : string) : M bool :=
  try_except
    (h ← history;
     emit (Mkdir mount_point);;
     if mkdir w h mount_point then ret true else raise OSError)
    (fun e => match e with
              | OSError => Some (logger ERROR "Failed to create mount point";; ret false)
              | _ => None
              end).

Definition mount_drive (drive mount_point : string) : M bool :=
  ok ← verify_mount_point mount_point;
  if negb ok then ret false
  else
    try_except
      (subprocess_run true ["sudo"; "mount"; drive; mount_point] None;;
       ret true)
      (fun e => match e with
                | CalledProcessError => Some (logger ERROR "Mount error";; ret false)
                | _ => None
                end).

(** *** transfer_directory *)

Definition rsync_dry_run (source destination : string) : list string :=
  ["sudo"; "rsync"; "-avP"; "--dry-run"; source; destination].

Definition rsync_delete (source destination : string) : list string :=
  ["sudo"; "rsync"; "-avP"; "--delete"; source; destination].

Definition transfer_directory (source destination : string) : M bool :=
  try_except
    (subprocess_run true (rsync_dry_run source destination) None;;
     subprocess_run true (rsync_delete source destination) None;;
     ret true)
    (fun e => match e with
              | CalledProcessError => Some (logger ERROR "Transfer error";; ret false)
              | _ => None
              end).

(** *** create_symlink *)

Definition create_symlink (source link_name : string) : M bool :=
  try_except
    (h ← history;
     emit (IsSymlink link_name);;
     (if is_symlink w h link_name
      then
        h ← history;
        emit (Unlink link_name);;
        if unlink w h link_name then ret tt else raise OSError
      else
        h ← history;
        emit (PathExists link_name);;
        if path_exists w h link_name
        then subprocess_run true ["sudo"; "rm"; "-rf"; link_name] None;; ret tt
        else ret tt);;
     h ← history;
     emit (SymlinkTo link_name source);;
     if symlink_to w h link_name source then ret true else raise OSError)
    (fun e => match e with
              | OSError | CalledProcessError => Some (logger ERROR "Symlink error";; ret false)
              | _ => None
              end).

(** *** verify_transfer *)

Definition diff_r (source destination : string) : list string :=
  ["sudo"; "diff"; "-r"; source; destination].

Definition verify_transfer (source destination : string) : M bool :=
  try_except
    (returncode ← subprocess_run false (diff_r source destination) None;
     ret (returncode =? 0))
    (fun e => match e with
              | CalledProcessError => Some (logger ERROR "Verification failed";; ret false)
              | _ => None
              end).

(** *** update_fstab *)

Definition fstab_entry (drive mount_point : string) : string :=
  drive +:+ " " +:+ mount_point +:+ " ext4 defaults 0 2" +:+ newline.

(** [Path.read_text()] opens the file in text mode: the program receives the
    content with its line endings translated. *)
Definition read_text (p : string) : M string := fun st =>
  let st' := {| trace := trace st ++ [ReadText p]; stdin := stdin st; fstab := fstab st |} in
  match fstab st with
  | Some content => (Ok (universal_newlines content), st')
  | None => (Raise OSError, st')
  end.

Definition update_fstab (drive mount_point : string) : M bool :=
  try_except
    (content ← read_text fstab_path;
     (if negb (str_in (fstab_entry drive mount_point) content)
      then subprocess_run true ["sudo"; "tee"; "-a"; fstab_path]
             (Some (fstab_entry drive mount_point));; ret tt
      else ret tt);;
     ret true)
    (fun _ => Some (logger ERROR "Failed to update fstab";; ret false)).

(** *** main *)

Definition drive : string := "/dev/nvme0n1p1".
Definition mount_point : path := ["mnt"; "temp"].
Definition min_dir_size_mb : Z := 1000.

(** [sum(calculate_dir_size(d) for d in selected_dirs)] *)
Definition total_required (selected_dirs : list path) : M Z :=
  for_each selected_dirs (fun d acc =>
      size ← calculate_dir_size d;
      match size with
      | None => raise TypeError                                (* [int + None] *)
      | Some kb => ret (acc + kb)
      end) 0.

(** The body of the loop over the approved directories. *)
Definition process (source_dir : path) : M unit :=
  let destination := show_path (mount_point ++ [path_name source_dir]) in
  logger INFO (newline +:+ "Processing: " +:+ show_path source_dir);;
  moved ←
    (transferred ← transfer_directory (show_path source_dir) destination;
     if transferred then
       verified ← verify_transfer (show_path source_dir) destination;
       if verified then create_symlink destination (show_path source_dir)
       else ret false
     else ret false);
  if moved then logger INFO ("Successfully moved: " +:+ show_path source_dir)
  else logger ERROR ("Failed to process: " +:+ show_path source_dir).

Definition main : M unit :=
  logger INFO "Scanning for large directories...";;
  large_dirs ← find_large_directories min_dir_size_mb;
  match large_dirs with
  | [] => logger INFO "No large directories found"
  | _ :: _ =>
      logger INFO (newline +:+ "Select directories to move:");;
      selected_dirs ← prompt_directory_move large_dirs 10;
      match selected_dirs with
      | [] => logger INFO "No directories selected"
      | _ :: _ =>
          source_space ← check_disk_usage "/";
          match source_space with
          | None => ret tt
          | Some space =>
              required ← total_required selected_dirs;
              if available space <? required
              then logger ERROR "Insufficient space"
              else
                mounted ← mount_drive drive (show_path mount_point);
                if negb mounted then ret tt
                else
                  for_each selected_dirs (fun source_dir _ => process source_dir) tt;;
                  updated ← update_fstab drive (show_path mount_point);
                  if updated
                  then logger INFO (newline +:+ "Updated fstab successfully");;
                       logger INFO "Disk space rebalancing complete"
                  else ret tt
          end
      end
  end.

End Script.

(** * Vocabulary of the properties *)

(** The events that a computation adds to the trace of the state it starts
    from. *)
Definition new_events (st st' : state) : list event :=
  drop (length (trace st)) (trace st').

(** [emits P m]: whatever the start state, [m] only appends to the trace,
    and every event it appends satisfies [P]. *)
Definition emits {A} (P : event -> Prop) (m : M A) : Prop :=
  forall st, exists evs, trace (snd (m st)) = trace st ++ evs /\ Forall P evs.

Definition is_log (e : event) : Prop :=
  match e with
  | Log _ _ => True
  | _ => False
  end.

(** Output, input and log lines. *)
Definition talk (e : event) : Prop :=
  match e with
  | Stdout _ | Input _ | Log _ _ => True
  | _ => False
  end.

(** Events that leave the file system and the mount table alone: output,
    input, log lines and free-space queries. *)
Definition touches_nothing (e : event) : Prop :=
  match e with
  | Stdout _ | Input _ | Log _ _ | DiskUsage _ => True
  | _ => False
  end.

Definition not_disk_usage (e : event) : Prop :=
  match e with
  | DiskUsage _ => False
  | _ => True
  end.

(** The paths whose free space was asked for, the commands handed to
    [subprocess.run], and the log lines, each in order. *)
Definition disk_queries (evs : list event) : list string :=
  flat_map (fun e => match e with
                     | DiskUsage p => [p]
                     | _ => []
                     end) evs.


Definition commands (evs : list event) : list (list string) :=
  flat_map (fun e => match e with
                     | Run argv _ _ => [argv]
                     | _ => []
                     end) evs.

Definition logged (evs : list event) : list string :=
  flat_map (fun e => match e with
                     | Log _ msg => [msg]
                     | _ => []
                     end) evs.

(** The value of [calculate_dir_size]: kilobytes, or [None]. *)
Definition kb_of (w : world) (directory : path) : option Z :=
  option_map (fun bytes => Z.of_N bytes / 1024) (sum_beneath w directory).

(** [size_mb > min_size_mb] for a directory whose size can be computed. *)
Definition exceeds (w : world) (min_size_mb : Z) (directory : path) : bool :=
  match kb_of w directory with
  | Some kb => Qlt_bool (inject_Z min_size_mb) (inject_Z kb / 1024)
  | None => false
  end.

(** Every walked directory is smaller than 2^53 KB.  These are the sizes
    for which the float [size_mb] of the code is the exact quotient that
    [measure] keeps; above them [kb / 1024] is rounded to 53 significant
    bits. *)
Definition sizes_exact (w : world) : bool :=
  forallb (fun p => match kb_of w p with
                    | Some kb => kb <? 2 ^ 53
                    | None => true
                    end)
          (os_walk w home).

Definition descending (l : list (path * Q)) : Prop :=
  StronglySorted (fun a b => (snd b <= snd a)%Q) l.

Definition strictly_descending (l : list (path * Q)) : Prop :=
  StronglySorted (fun a b => (snd b < snd a)%Q) l.

(** Bytes of the regular files of a listing (not of what lies below it). *)
Definition bytes (l : list node) : N :=
  fold_right (fun n acc => (st_size n + acc)%N) 0%N l.

(** Path resolution through real directories only. *)
Fixpoint descend_real (es : list node) (p : path) : option (list node) :=
  match p with
  | [] => Some es
  | c :: p' =>
      match lookup_entry c es with
      | Some (Dir _ es') => descend_real es' p'
      | _ => None
      end
  end.

(** The candidates put before the operator: the paths of the
    [Directory: ...] lines, in the order of printing. *)
Definition shown (evs : list event) : list path :=
  flat_map (fun e => match e with
                     | Stdout (Directory p) => [p]
                     | _ => []
                     end) evs.

(** The lines of standard input that the prompt accepts. *)
Definition answers (lines : list string) : list string :=
  filter (fun l => lower l = "y" \/ lower l = "n") lines.

(** [haystack.count(needle)]: the number of occurrences found from left to
    right, an occurrence starting where the one before has ended.  [skip]
    is the number of characters that still belong to the last occurrence. *)
Fixpoint count_from (p s : list ascii) (skip : nat) : nat :=
  match s with
  | [] => 0
  | _ :: s' =>
      match skip with
      | S k => count_from p s' k
      | O => if starts_with p s then S (count_from p s' (length p - 1))
             else count_from p s' 0
      end
  end.

Definition str_count (p s : list ascii) : nat :=
  match p with
  | [] => S (length s)
  | _ :: _ => count_from p s 0
  end.

Definition count_in (needle haystack : string) : nat :=
  str_count (list_ascii_of_string needle) (list_ascii_of_string haystack).

(** A text without carriage return: text mode reads it back as it was
    written. *)
Fixpoint no_cr (s : string) : bool :=
  match s with
  | EmptyString => true
  | String c s' => negb (Ascii.eqb c "013") && no_cr s'
  end.

(** * Sample runs *)

Definition MiB (n : N) : N := (n * 1024 * 1024)%N.

(** A world in which every call succeeds; 50 GB are free on [/]. *)
Definition calm (tree : list node) : world :=
  {| fs := tree;
     disk_usage := fun _ _ => Some (100000000000, 50000000000, 50000000000);
     mkdir := fun _ _ => true;
     spawn := fun _ _ _ => Exited 0;
     tee_wrote := fun _ _ => 0%nat;
     is_symlink := fun _ _ => false;
     path_exists := fun _ _ => true;
     unlink := fun _ _ => true;
     symlink_to := fun _ _ _ => true |}.

(** The same with [free] bytes free on [/]. *)
Definition free_space (free : Z) (tree : list node) : world :=
  {| fs := tree;
     disk_usage := fun _ _ => Some (100000000000, 100000000000 - free, free);
     mkdir := mkdir (calm tree);
     spawn := spawn (calm tree);
     tee_wrote := tee_wrote (calm tree);
     is_symlink := is_symlink (calm tree);
     path_exists := path_exists (calm tree);
     unlink := unlink (calm tree);
     symlink_to := symlink_to (calm tree) |}.

(** The same as [calm], except that the commands in [failing] exit with
    code 1 (having written nothing). *)
Definition exit_one (failing : list (list string)) (tree : list node) : world :=
  {| fs := tree;
     disk_usage := disk_usage (calm tree);
     mkdir := mkdir (calm tree);
     spawn := fun _ argv _ => if decide (argv ∈ failing) then Exited 1 else Exited 0;
     tee_wrote := tee_wrote (calm tree);
     is_symlink := is_symlink (calm tree);
     path_exists := path_exists (calm tree);
     unlink := unlink (calm tree);
     symlink_to := symlink_to (calm tree) |}.

(** The same, except that the commands in [broken] cannot be started. *)
Definition unable_to_start (broken : list (list string)) (tree : list node) : world :=
  {| fs := tree;
     disk_usage := disk_usage (calm tree);
     mkdir := mkdir (calm tree);
     spawn := fun _ argv _ => if decide (argv ∈ broken) then NotStarted else Exited 0;
     tee_wrote := tee_wrote (calm tree);
     is_symlink := is_symlink (calm tree);
     path_exists := path_exists (calm tree);
     unlink := unlink (calm tree);
     symlink_to := symlink_to (calm tree) |}.

(** Two nested directories of equal size, and a small one. *)
Definition tied_tree : list node :=
  [Dir "home" [Dir "a" [Dir "b" [File "film" (MiB 2000)]];
               Dir "c" [File "notes" (MiB 50)]]].

(** A directory whose entries cannot be examined, next to a large one. *)
Definition locked_tree : list node :=
  [Dir "home" [Dir "locked" [Faulty "secret"];
               Dir "big" [File "film" (MiB 2000)]]].

(** A directory that holds a link to a large directory. *)
Definition link_tree : list node :=
  [Dir "home" [Dir "u" [File "notes" (MiB 1);
                        DirLink "videos" [File "film" (MiB 2000)]]]].

(** A large directory inside a directory that also holds an entry that
    cannot be examined. *)
Definition half_locked_tree : list node :=
  [Dir "home" [Dir "x" [Faulty "secret"; Dir "big" [File "film" (MiB 2000)]]]].

(** A large directory behind a directory that can be traversed but not
    listed. *)
Definition search_only_tree : list node :=
  [Dir "home" [Dir "A" [File "notes" (MiB 1);
                        SearchOnly "X" [Dir "B" [File "film" (MiB 2000)]]]]].

(** A directory that can be neither listed nor traversed, next to a large
    one. *)
Definition closed_tree : list node :=
  [Dir "home" [Locked "private"; Dir "big" [File "film" (MiB 2000)]]].

(** The scenario of the specification: A (1500 MB), B (800 MB), C (50 MB). *)
Definition scenario_tree : list node :=
  [Dir "home" [Dir "A" [File "a" (MiB 1500)];
               Dir "B" [File "b" (MiB 800)];
               Dir "C" [File "c" (MiB 50)]]].

(** Two large directories. *)
Definition two_tree : list node :=
  [Dir "home" [Dir "a" [File "film" (MiB 2000)];
               Dir "d" [File "disk" (MiB 1500); Dir "sub" [File "x" (MiB 1)]]]].

Definition start (lines : list string) (table : string) : state :=
  {| trace := []; stdin := lines; fstab := Some table |}.

(** * Vocabulary of the further properties *)

(** The part of [main] that follows the capacity check (lines 175-193), as a
    function of the approved directories. *)
Definition mount_and_transfer (w : world) (selected_dirs : list path) : M unit :=
  (mounted ← mount_drive w drive (show_path mount_point);
   if negb mounted then ret tt
   else
     for_each selected_dirs (fun source_dir _ => process w source_dir) tt;;
     updated ← update_fstab w drive (show_path mount_point);
     if updated
     then logger INFO (newline +:+ "Updated fstab successfully");;
          logger INFO "Disk space rebalancing complete"
     else ret tt)%script.

(** [keeps f m]: [m] leaves the component [f] of the state as it is; [f]
    is [fstab] (the mount table) or [stdin]. *)
Definition keeps {X A} (f : state -> X) (m : M A) : Prop :=
  forall st, f (snd (m st)) = f st.

(** Events that remove or replace the original of a directory. *)
Definition removes_original (e : event) : Prop :=
  match e with
  | Unlink _ | SymlinkTo _ _ => True
  | Run argv _ _ => take 2 argv = ["sudo"; "rm"]
  | _ => False
  end.

(** The events that processing [source] with copy [destination] can add:
    the four commands on that pair, the examination and replacement of
    [source], and the log lines of the transfer, the relink and the
    verdict.  The line [Verification failed] is not among them: the handler
    that writes it can never run, since the comparison is started without
    [check=True]. *)
Definition concerns (source destination : string) (e : event) : Prop :=
  match e with
  | Run argv input _ =>
      input = None /\
      argv ∈ [rsync_dry_run source destination; rsync_delete source destination;
              diff_r source destination; ["sudo"; "rm"; "-rf"; source]]
  | IsSymlink p | PathExists p | Unlink p => p = source
  | SymlinkTo link target => link = source /\ target = destination
  | Log _ msg =>
      msg ∈ [newline +:+ "Processing: " +:+ source; "Transfer error"; "Symlink error";
             "Successfully moved: " +:+ source; "Failed to process: " +:+ source]
  | _ => False
  end.

(** The events of the mount, and of the update of the mount table. *)
Definition mounting (e : event) : Prop :=
  match e with
  | Mkdir p => p = "/mnt/temp"
  | Run argv input _ => argv = ["sudo"; "mount"; "/dev/nvme0n1p1"; "/mnt/temp"] /\ input = None
  | Log _ msg => msg ∈ ["Failed to create mount point"; "Mount error"]
  | _ => False
  end.

Definition persisting (e : event) : Prop :=
  match e with
  | ReadText p => p = "/etc/fstab"
  | Run argv input _ =>
      argv = ["sudo"; "tee"; "-a"; "/etc/fstab"] /\
      input = Some ("/dev/nvme0n1p1 /mnt/temp ext4 defaults 0 2" +:+ newline)
  | Log _ msg =>
      msg ∈ ["Failed to update fstab"; newline +:+ "Updated fstab successfully";
             "Disk space rebalancing complete"]
  | _ => False
  end.

(** The decisions of the operator: the candidates whose reply is [y] once
    lower-cased, the candidates and the accepted replies taken in pairs. *)
Fixpoint chosen (offered : list (path * Q)) (replies : list string) : list path :=
  match offered, replies with
  | (p, _) :: offered', r :: replies' =>
      if decide (lower r = "y") then p :: chosen offered' replies' else chosen offered' replies'
  | _, _ => []
  end.

(** The lines read from standard input, and the number of reminders
    printed. *)
Definition read_lines (evs : list event) : list string :=
  flat_map (fun e => match e with
                     | Input (Some l) => [l]
                     | _ => []
                     end) evs.

Definition reminders (evs : list event) : nat :=
  length (flat_map (fun e => match e with
                             | Stdout PleaseEnter => [e]
                             | _ => []
                             end) evs).

(** The listings of the real directories of a listing. *)
Definition subdirectories (es : list node) : list (list node) :=
  flat_map (fun n => match n with
                     | Dir _ es' => [es']
                     | _ => []
                     end) es.

(** [size_mb > min_size_mb] on an entry of the scanner's result. *)
Definition above (min_size_mb : Z) (c : path * Q) : bool :=
  Qlt_bool (inject_Z min_size_mb) (snd c).

(** What the last event of a run is when an exception leaves [main]. *)
Definition cause (e : exn) (last_event : event) : Prop :=
  match e, last_event with
  | EOFError, Input None => True
  | TypeError, Log ERROR "Failed to calculate directory size" => True
  | OSError, Run argv None NotStarted =>
      exists tool rest, argv = "sudo" :: tool :: rest /\ tool ∈ ["mount"; "rsync"; "diff"]
  | _, _ => False
  end.

(** The links that were created: the [symlink_to] calls among [evs] that
    succeeded, [h] being the history before [evs]. *)
Fixpoint links_made (w : world) (h evs : list event) : list (string * string) :=
  match evs with
  | [] => []
  | e :: evs' =>
      match e with
      | SymlinkTo link target => if symlink_to w h link target then [(link, target)] else []
      | _ => []
      end ++ links_made w (h ++ [e]) evs'
  end.

(** The paths of the [Marked for moving: ...] lines, in order. *)
Definition marked (evs : list event) : list path :=
  flat_map (fun e => match e with
                     | Stdout (Marked p) => [p]
                     | _ => []
                     end) evs.

(** What [main] can do before it mounts the drive: print, read answers,
    ask for the free space of [/], and write one of seven log lines. *)
Definition before_mount (e : event) : Prop :=
  match e with
  | Stdout _ | Input _ => True
  | DiskUsage p => p = "/"
  | Log _ msg =>
      msg ∈ ["Scanning for large directories..."; "No large directories found";
             newline +:+ "Select directories to move:"; "No directories selected";
             "Failed to check disk usage"; "Failed to calculate directory size";
             "Insufficient space"]
  | _ => False
  end.

(** The same as [calm], except that [tee] exits with code 1 after it has
    appended the first [written] characters of its input. *)
Definition tee_interrupted (written : nat) (tree : list node) : world :=
  {| fs := tree;
     disk_usage := disk_usage (calm tree);
     mkdir := mkdir (calm tree);
     spawn := fun _ argv _ =>
                if decide (argv = ["sudo"; "tee"; "-a"; "/etc/fstab"]) then Exited 1
                else Exited 0;
     tee_wrote := fun _ _ => written;
     is_symlink := is_symlink (calm tree);
     path_exists := path_exists (calm tree);
     unlink := unlink (calm tree);
     symlink_to := symlink_to (calm tree) |}.

(** * Properties *)

(** ** The monad *)

Lemma bind_unfold {A B} (m : M A) (f : A -> M B) (st : state) :
  bind m f st =
    match m st with
    | (Ok a, st') => f a st'
    | (Raise e, st') => (Raise e, st')
    end.
Proof. reflexivity. Qed.

Lemma emits_ret {A} P (a : A) : emits P (ret a).
Proof. intros st. exists []. simpl. rewrite app_nil_r. auto. Qed.

Lemma emits_raise {A} P (e : exn) : emits P (@raise A e).
Proof. intros st. exists []. simpl. rewrite app_nil_r. auto. Qed.

Lemma emits_emit P (e : event) : P e -> emits P (emit e).
Proof. intros He st. exists [e]. simpl. auto. Qed.

Lemma emits_bind {A B} P (m : M A) (f : A -> M B) :
  emits P m -> (forall a, emits P (f a)) -> emits P (bind m f).
Proof.
  intros Hm Hf st. unfold bind.
  destruct (Hm st) as (evs & Ht & Hp).
  destruct (m st) as [[a|e] st1]; simpl in *.
  - destruct (Hf a st1) as (evs' & Ht' & Hp').
    exists (evs ++ evs'). rewrite Ht', Ht, <- app_assoc.
    split; [reflexivity | apply Forall_app; auto].
  - exists evs. auto.
Qed.

Lemma emits_try_except {A} P (body : M A) (h : exn -> option (M A)) :
  emits P body -> (forall e m, h e = Some m -> emits P m) -> emits P (try_except body h).
Proof.
  intros Hm Hh st. unfold try_except.
  destruct (Hm st) as (evs & Ht & Hp).
  destruct (body st) as [[a|e] st1]; simpl in *.
  - exists evs. auto.
  - destruct (h e) as [m|] eqn:He.
    + destruct (Hh e m He st1) as (evs' & Ht' & Hp').
      exists (evs ++ evs'). rewrite Ht', Ht, <- app_assoc.
      split; [reflexivity | apply Forall_app; auto].
    + exists evs. auto.
Qed.

Lemma emits_for_each {A B} P (l : list A) (body : A -> B -> M B) (acc : B) :
  (forall x b, emits P (body x b)) -> emits P (for_each l body acc).
Proof.
  intros Hb. revert acc. induction l as [|x l IH]; intros acc; simpl.
  - apply emits_ret.
  - apply emits_bind; auto.
Qed.

Lemma emits_history P : emits P history.
Proof. intros st. exists []. simpl. rewrite app_nil_r. auto. Qed.

Lemma emits_weaken {A} (P Q : event -> Prop) (m : M A) :
  (forall e, P e -> Q e) -> emits P m -> emits Q m.
Proof.
  intros HPQ Hm st. destruct (Hm st) as (evs & Ht & Hp).
  exists evs. split; [assumption | eapply Forall_impl; eauto].
Qed.

Lemma new_events_app (st st' : state) evs :
  trace st' = trace st ++ evs -> new_events st st' = evs.
Proof. unfold new_events. intros ->. apply drop_app_length. Qed.

Lemma subprocess_run_spec w check argv input st :
  let r := spawn w (trace st) argv input in
  let st' := {| trace := trace st ++ [Run argv input r];
                stdin := stdin st;
                fstab := after_run w (trace st) argv input r (fstab st) |} in
  subprocess_run w check argv input st =
    (match r with
     | NotStarted => Raise OSError
     | Exited rc => if check && negb (rc =? 0) then Raise CalledProcessError else Ok rc
     end, st').
Proof.
  unfold subprocess_run. simpl.
  destruct (spawn w (trace st) argv input) as [rc|]; [|reflexivity].
  destruct (check && negb (rc =? 0)); reflexivity.
Qed.

(** ** Which events each function can add *)

Lemma emits_subprocess_run (w : world) P (check : bool) (argv : list string)
    (input : option string) :
  (forall r, P (Run argv input r)) -> emits P (subprocess_run w check argv input).
Proof.
  intros HP st. rewrite subprocess_run_spec. simpl. eexists [_]. split; [reflexivity|].
  constructor; [apply HP | constructor].
Qed.

Lemma emits_read_text P (p : string) : P (ReadText p) -> emits P (read_text p).
Proof.
  intros HP st. unfold read_text. exists [ReadText p].
  destruct (fstab st); simpl; (split; [reflexivity | repeat constructor; assumption]).
Qed.

Lemma emits_ask_yes_no P :
  (forall reply, P (Input reply)) -> P (Stdout PleaseEnter) -> emits P ask_yes_no.
Proof.
  intros Hin Hpl st. unfold ask_yes_no.
  assert (H : forall lines tr, exists evs,
             fst (snd (ask lines tr)) = tr ++ evs /\ Forall P evs).
  { induction lines as [|l rest IH]; intros tr; simpl.
    - exists [Input None]. split; [reflexivity | repeat constructor; apply Hin].
    - destruct (decide (lower l = "y" \/ lower l = "n")); simpl.
      + exists [Input (Some l)]. split; [reflexivity | repeat constructor; apply Hin].
      + destruct (IH ((tr ++ [Input (Some l)]) ++ [Stdout PleaseEnter])) as (evs & Ht & Hp).
        exists (Input (Some l) :: Stdout PleaseEnter :: evs).
        split; [rewrite Ht, <- !app_assoc; reflexivity|].
        repeat constructor; auto. }
  destruct (H (stdin st) (trace st)) as (evs & Ht & Hp).
  destruct (ask (stdin st) (trace st)) as [r [tr rest]]. simpl in *.
  exists evs. auto.
Qed.

(** One step of a syntax-directed proof of [emits P m]. *)
Ltac emits_step :=
  match goal with
  | |- emits _ (ret _) => apply emits_ret
  | |- emits _ (raise _) => apply emits_raise
  | |- emits _ history => apply emits_history
  | |- emits _ (emit _) => apply emits_emit; exact I
  | |- emits _ (bind _ _) => apply emits_bind; [|intros ?]
  | |- emits _ (for_each _ _ _) => apply emits_for_each; intros ? ?
  | |- emits _ (subprocess_run _ _ _ _) => apply emits_subprocess_run; intros ?; exact I
  | |- emits _ (read_text _) => apply emits_read_text; exact I
  | |- emits _ ask_yes_no => apply emits_ask_yes_no; [intros ?; exact I | exact I]
  | |- emits _ (try_except _ _) =>
      apply emits_try_except;
      [|let e := fresh "e" in let m := fresh "m" in let H := fresh "H" in
        intros e m H; destruct e; try discriminate H; injection H as <-]
  | |- emits _ (if ?b then _ else _) => destruct b
  | |- emits _ (match ?x with _ => _ end) => destruct x
  end.

Ltac emits_auto := repeat emits_step.

Section Emits.

Context (w : world).

Lemma emits_calculate_dir_size (d : path) : emits is_log (calculate_dir_size w d).
Proof. unfold calculate_dir_size, logger. emits_auto. Qed.

Lemma emits_find_large_directories (t : Z) : emits is_log (find_large_directories w t).
Proof.
  unfold find_large_directories. apply emits_bind; [|intros; apply emits_ret].
  apply emits_for_each. intros p acc. unfold measure.
  apply emits_bind; [apply emits_calculate_dir_size|]. intros [kb|]; emits_auto.
Qed.

Lemma emits_total_required (selected : list path) : emits is_log (total_required w selected).
Proof.
  unfold total_required. apply emits_for_each. intros d acc.
  apply emits_bind; [apply emits_calculate_dir_size|]. intros [kb|]; emits_auto.
Qed.

Lemma emits_prompt_directory_move (dir_info : list (path * Q)) (limit : Z) :
  emits talk (prompt_directory_move dir_info limit).
Proof.
  unfold prompt_directory_move. apply emits_bind; [|intros; apply emits_ret].
  apply emits_for_each. intros [p s] [i dirs]. unfold offer, print. emits_auto.
Qed.

Lemma emits_process (source_dir : path) : emits not_disk_usage (process w source_dir).
Proof.
  unfold process, transfer_directory, verify_transfer, create_symlink, logger. emits_auto.
Qed.

Lemma emits_update_fstab (d m : string) : emits not_disk_usage (update_fstab w d m).
Proof. unfold update_fstab, logger. emits_auto. Qed.

Lemma mount_drive_starts_with_mkdir (d m : string) (st : state) :
  exists rest,
    trace (snd (mount_drive w d m st)) = trace st ++ Mkdir m :: rest /\
    Forall not_disk_usage rest.
Proof.
  unfold mount_drive, verify_mount_point, try_except, bind, history, emit, logger, emit, ret, raise.
  simpl. destruct (mkdir w (trace st) m); simpl.
  - rewrite subprocess_run_spec. simpl.
    match goal with |- context [spawn w ?t ?a ?i] => destruct (spawn w t a i) as [rc|] end; simpl.
    + destruct (rc =? 0); simpl; eexists; (split; [rewrite <- !app_assoc; reflexivity|]);
        repeat constructor.
    + eexists; (split; [rewrite <- !app_assoc; reflexivity|]); repeat constructor.
  - eexists; (split; [rewrite <- !app_assoc; reflexivity|]); repeat constructor.
Qed.

End Emits.

Lemma emits_is_log_talk {A} (m : M A) : emits is_log m -> emits talk m.
Proof. apply emits_weaken. intros []; simpl; auto. Qed.

Lemma disk_queries_app (a b : list event) :
  disk_queries (a ++ b) = disk_queries a ++ disk_queries b.
Proof. unfold disk_queries. apply flat_map_app. Qed.

Lemma disk_queries_talk (evs : list event) : Forall talk evs -> disk_queries evs = [].
Proof.
  induction 1 as [|e evs He _ IH]; [reflexivity|].
  destruct e; try contradiction; exact IH.
Qed.

Lemma talk_touches_nothing (evs : list event) : Forall talk evs -> Forall touches_nothing evs.
Proof. intros H. eapply Forall_impl; [exact H|]. intros []; simpl; auto. Qed.

Lemma emits_run {A} P (m : M A) (st st' : state) (r : outcome A) :
  emits P m -> m st = (r, st') -> exists evs, trace st' = trace st ++ evs /\ Forall P evs.
Proof. intros Hm Hrun. specialize (Hm st). now rewrite Hrun in Hm. Qed.

(** ** Scanner *)

Lemma calculate_dir_size_spec (w : world) (directory : path) (st : state) :
  calculate_dir_size w directory st =
    (Ok (kb_of w directory),
     {| trace := trace st ++
                 match kb_of w directory with
                 | Some _ => []
                 | None => [Log ERROR "Failed to calculate directory size"]
                 end;
        stdin := stdin st; fstab := fstab st |}).
Proof.
  unfold calculate_dir_size, kb_of.
  destruct (sum_beneath w directory); simpl.
  - unfold ret. rewrite app_nil_r. destruct st; reflexivity.
  - reflexivity.
Qed.

(** The size of a directory cannot be computed exactly when an entry that
    cannot be examined lies beneath it. *)
Lemma sum_file_sizes_none (l : list node) :
  sum_file_sizes l = None <-> exists name, Faulty name ∈ l.
Proof.
  induction l as [|f l IH]; simpl.
  - split; [discriminate | intros [name H]; inversion H].
  - assert (Hcons : (exists name, Faulty name ∈ f :: l) <->
                    (exists name, f = Faulty name) \/ (exists name, Faulty name ∈ l)).
    { split.
      - intros [name H]. apply elem_of_cons in H as [H|H]; eauto.
      - intros [[name ->]|[name H]]; exists name; [left | now right]. }
    rewrite Hcons, <- IH.
    destruct f as [n sz|n|n|n es|n es|n es|n]; simpl;
      [| |split; [eauto | reflexivity]| | | |];
      (destruct (sum_file_sizes l);
       [split; [discriminate | intros [[? ?]|?]; discriminate]
       |split; [auto | reflexivity]]).
Qed.

Lemma kb_of_none (w : world) (directory : path) :
  kb_of w directory = None <->
  unexaminable (fs w) directory = true \/ exists name, Faulty name ∈ rglob_from w directory.
Proof.
  unfold kb_of, sum_beneath. rewrite <- sum_file_sizes_none.
  destruct (unexaminable (fs w) directory); simpl; [tauto|].
  destruct (sum_file_sizes (rglob_from w directory)); simpl.
  - split; [discriminate | intros [H|H]; discriminate].
  - split; [auto | reflexivity].
Qed.

Lemma measure_spec (w : world) (t : Z) (p : path) (acc : list (path * Q)) (st : state) :
  measure w t p acc st =
    match kb_of w p with
    | Some kb =>
        (Ok (if exceeds w t p then acc ++ [(p, (inject_Z kb / 1024)%Q)] else acc), st)
    | None =>
        (Raise TypeError,
         {| trace := trace st ++ [Log ERROR "Failed to calculate directory size"];
            stdin := stdin st; fstab := fstab st |})
    end.
Proof.
  unfold measure. rewrite bind_unfold, calculate_dir_size_spec. unfold exceeds.
  destruct (kb_of w p) as [kb|]; simpl.
  - rewrite app_nil_r.
    destruct (Qlt_bool (inject_Z t) (inject_Z kb / 1024)); destruct st; reflexivity.
  - reflexivity.
Qed.

(** The pairs that the loop of the scanner collects from a list of paths. *)
Lemma measure_loop_ok (w : world) (t : Z) (l : list path) (acc : list (path * Q)) (st : state) :
  Forall (fun p => kb_of w p <> None) l ->
  exists found,
    for_each l (measure w t) acc st = (Ok (acc ++ found), st) /\
    map fst found = filter (fun p => exceeds w t p = true) l /\
    Forall (fun c => exists kb, kb_of w (fst c) = Some kb /\
                                snd c = (inject_Z kb / 1024)%Q) found.
Proof.
  intros Hall. revert acc. induction Hall as [|p l Hp Hall IH]; intros acc; cbn [for_each].
  - exists []. rewrite app_nil_r. repeat split. constructor.
  - rewrite bind_unfold, measure_spec. rewrite filter_cons.
    destruct (kb_of w p) as [kb|] eqn:Hkb; [|contradiction].
    destruct (exceeds w t p) eqn:Hex.
    + destruct (IH (acc ++ [(p, (inject_Z kb / 1024)%Q)])) as (found & Hrun & Hmap & Hsz).
      exists ((p, (inject_Z kb / 1024)%Q) :: found).
      rewrite Hrun, <- app_assoc. split; [reflexivity|].
      destruct (decide (true = true)); [|contradiction].
      split; [simpl; now rewrite Hmap|].
      constructor; [exists kb; auto | assumption].
    + destruct (IH acc) as (found & Hrun & Hmap & Hsz).
      exists found. rewrite Hrun. split; [reflexivity|].
      destruct (decide (false = true)); [discriminate|]. auto.
Qed.

Lemma measure_loop_fail (w : world) (t : Z) (l : list path) (acc : list (path * Q)) (st : state) :
  Exists (fun p => kb_of w p = None) l ->
  fst (for_each l (measure w t) acc st) = Raise TypeError.
Proof.
  intros Hex. revert acc st. induction l as [|p l IH]; intros acc st; cbn [for_each].
  - inversion Hex.
  - rewrite bind_unfold, measure_spec.
    destruct (kb_of w p) as [kb|] eqn:Hkb; [|reflexivity].
    apply IH. inversion Hex; subst; [congruence | assumption].
Qed.

Lemma insert_desc_perm (x : path * Q) (l : list (path * Q)) :
  Permutation (insert_desc x l) (x :: l).
Proof.
  induction l as [|y l IH]; simpl; [reflexivity|].
  destruct (Qle_bool (snd y) (snd x)); [reflexivity|].
  rewrite IH. apply perm_swap.
Qed.

Lemma sorted_desc_perm (l : list (path * Q)) : Permutation (sorted_desc l) l.
Proof.
  induction l as [|x l IH]; simpl; [reflexivity|].
  rewrite insert_desc_perm. now constructor.
Qed.

Lemma insert_desc_sorted (x : path * Q) (l : list (path * Q)) :
  descending l -> descending (insert_desc x l).
Proof.
  unfold descending. induction 1 as [|y l Hl IH Hy]; simpl.
  - repeat constructor.
  - destruct (Qle_bool (snd y) (snd x)) eqn:Hle.
    + apply Qle_bool_iff in Hle. constructor; [constructor; assumption|].
      constructor; [assumption|].
      eapply Forall_impl; [exact Hy|]. simpl. intros z Hz. eapply Qle_trans; eauto.
    + constructor; [assumption|].
      assert (Hxy : (snd x <= snd y)%Q).
      { apply Qlt_le_weak, Qnot_le_lt. intros H. apply Qle_bool_iff in H. congruence. }
      rewrite Forall_forall. intros z Hz.
      rewrite (insert_desc_perm x l) in Hz. apply elem_of_cons in Hz as [->|Hz].
      * exact Hxy.
      * rewrite Forall_forall in Hy. now apply Hy.
Qed.

Lemma sorted_desc_sorted (l : list (path * Q)) : descending (sorted_desc l).
Proof.
  induction l as [|x l IH]; simpl; [constructor | now apply insert_desc_sorted].
Qed.

(** The sort is stable: the entries of any one size keep the order they
    had in the input.  Together with [sorted_desc_perm] and
    [sorted_desc_sorted] this fixes the result of the sort. *)
Lemma insert_desc_stable (q : Q) (x : path * Q) (l : list (path * Q)) :
  filter (fun c => Qeq_bool (snd c) q = true) (insert_desc x l) =
  filter (fun c => Qeq_bool (snd c) q = true) (x :: l).
Proof.
  induction l as [|y l IH]; simpl; [reflexivity|].
  destruct (Qle_bool (snd y) (snd x)) eqn:Hle; [reflexivity|].
  rewrite (filter_cons _ y), IH, !filter_cons.
  destruct (decide (Qeq_bool (snd y) q = true)) as [Hy|Hy];
    destruct (decide (Qeq_bool (snd x) q = true)) as [Hx|Hx]; try reflexivity.
  exfalso. apply Qeq_bool_iff in Hx, Hy.
  assert (Hyx : (snd y <= snd x)%Q) by (rewrite Hx, Hy; apply Qle_refl).
  apply Qle_bool_iff in Hyx. congruence.
Qed.

Lemma sorted_desc_stable (q : Q) (l : list (path * Q)) :
  filter (fun c => Qeq_bool (snd c) q = true) (sorted_desc l) =
  filter (fun c => Qeq_bool (snd c) q = true) l.
Proof.
  induction l as [|x l IH]; simpl; [reflexivity|].
  rewrite insert_desc_stable, !filter_cons, IH. reflexivity.
Qed.

Lemma Qlt_bool_iff (x y : Q) : Qlt_bool x y = true <-> (x < y)%Q.
Proof.
  unfold Qlt_bool. rewrite negb_true_iff. split.
  - intros H. apply Qnot_le_lt. intros Hle. apply Qle_bool_iff in Hle. congruence.
  - intros H. destruct (Qle_bool y x) eqn:E; [|reflexivity].
    apply Qle_bool_iff in E. exfalso. eapply Qlt_not_le; eauto.
Qed.

Lemma exceeds_iff (w : world) (t : Z) (p : path) :
  exceeds w t p = true <-> exists kb, kb_of w p = Some kb /\ t * 1024 < kb.
Proof.
  unfold exceeds. destruct (kb_of w p) as [kb|].
  - rewrite Qlt_bool_iff. unfold Qlt, Qdiv, Qmult, Qinv, inject_Z. simpl.
    split.
    + intros H. exists kb. split; [reflexivity | lia].
    + intros (kb' & [= <-] & H). lia.
  - split; [discriminate | intros (? & ? & _); discriminate].
Qed.

(** C2.  On a tree whose walked directories are all smaller than 2^53 KB
    (where the float [size_mb] of the code is the exact quotient): when the
    scanner returns, it returns the walked directories whose computed size
    in megabytes exceeds the threshold, each once and with that size; a
    directory of at most the threshold is absent; and the list is in
    descending order of size (equal sizes may be adjacent).  It returns
    whenever the size of every walked directory can be computed, and
    otherwise raises [TypeError]. *)
Theorem find_large_directories_result (w : world) (min_size_mb : Z) (st : state) :
  sizes_exact w = true ->
  match fst (find_large_directories w min_size_mb st) with
  | Ok out =>
      Permutation (map fst out)
        (filter (fun p => exceeds w min_size_mb p = true) (os_walk w home)) /\
      (forall p size_mb, (p, size_mb) ∈ out ->
         exists kb, kb_of w p = Some kb /\ size_mb = (inject_Z kb / 1024)%Q /\
                    min_size_mb * 1024 < kb) /\
      (forall p kb, kb_of w p = Some kb -> kb <= min_size_mb * 1024 -> p ∉ map fst out) /\
      descending out /\
      Forall (fun p => kb_of w p <> None) (os_walk w home)
  | Raise e =>
      e = TypeError /\ Exists (fun p => kb_of w p = None) (os_walk w home)
  end.
Proof.
  intros _. unfold find_large_directories. rewrite bind_unfold.
  destruct (decide (Forall (fun p => kb_of w p <> None) (os_walk w home))) as [Hall|Hex].
  - destruct (measure_loop_ok w min_size_mb _ [] st Hall) as (found & Hrun & Hmap & Hsz).
    rewrite Hrun. simpl.
    assert (Hperm : Permutation (sorted_desc found) found) by apply sorted_desc_perm.
    assert (Hin : forall p, p ∈ map fst (sorted_desc found) -> exceeds w min_size_mb p = true).
    { intros p Hp. rewrite Hperm, Hmap in Hp. apply list_elem_of_filter in Hp. tauto. }
    split; [rewrite Hperm, Hmap; reflexivity|].
    split; [|split; [|split; [apply sorted_desc_sorted | assumption]]].
    + intros p size_mb Hp.
      assert (Hex : exceeds w min_size_mb p = true).
      { apply Hin. apply list_elem_of_fmap. exists (p, size_mb). auto. }
      rewrite Hperm in Hp. rewrite Forall_forall in Hsz.
      destruct (Hsz _ Hp) as (kb & Hkb & Hs). simpl in *.
      apply exceeds_iff in Hex as (kb' & Hkb' & Hlt).
      exists kb. split; [assumption | split; [assumption | congruence]].
    + intros p kb Hkb Hle Hp. apply Hin, exceeds_iff in Hp as (kb' & Hkb' & Hlt).
      assert (kb' = kb) by congruence. lia.
  - apply not_Forall_Exists in Hex; [|intros p; apply _].
    assert (Hex' : Exists (fun p => kb_of w p = None) (os_walk w home)).
    { eapply Exists_impl; [exact Hex|]. simpl. intros p Hp.
      destruct (kb_of w p); [exfalso; apply Hp; discriminate | reflexivity]. }
    pose proof (measure_loop_fail w min_size_mb _ [] st Hex') as Hfail.
    destruct (for_each (os_walk w home) (measure w min_size_mb) [] st) as [[out|e] st1];
      simpl in *; [discriminate|].
    injection Hfail as ->. auto.
Qed.

Lemma find_large_directories_result_witness :
  let w := calm two_tree in
  sizes_exact w = true /\
  match fst (find_large_directories w 1000 (start [] "")) with
  | Ok out =>
      Permutation (map fst out)
        (filter (fun p => exceeds w 1000 p = true) (os_walk w home)) /\
      (forall p size_mb, (p, size_mb) ∈ out ->
         exists kb, kb_of w p = Some kb /\ size_mb = (inject_Z kb / 1024)%Q /\
                    1000 * 1024 < kb) /\
      (forall p kb, kb_of w p = Some kb -> kb <= 1000 * 1024 -> p ∉ map fst out) /\
      descending out /\
      Forall (fun p => kb_of w p <> None) (os_walk w home)
  | Raise e =>
      e = TypeError /\ Exists (fun p => kb_of w p = None) (os_walk w home)
  end.
Proof.
  intros w. assert (H : sizes_exact w = true) by reflexivity.
  split; [exact H|].
  exact (find_large_directories_result w 1000 (start [] "") H).
Defined.

(** Two nested directories with the same content have the same size: the
    list that the scanner returns is not strictly descending. *)
Lemma find_large_directories_tie :
  let out := [(["home"; "a"], (inject_Z 2048000 / 1024)%Q);
              (["home"; "a"; "b"], (inject_Z 2048000 / 1024)%Q)] in
  fst (find_large_directories (calm tied_tree) 1000 (start [] "")) = Ok out /\
  ~ strictly_descending out.
Proof.
  intros out. split; [reflexivity|].
  intros H. inversion H as [|a l _ Hall]; subst.
  inversion Hall as [|b l' Hlt _]; subst.
  vm_compute in Hlt. discriminate.
Qed.

(** C3.  One directory with an entry that cannot be examined:
    [calculate_dir_size] logs the error and returns [None], and the division
    [None / 1024] in the scanner raises [TypeError].  The scan stops there;
    the large directory next to it is never reported. *)
Theorem find_large_directories_unreadable_is_fatal :
  find_large_directories (calm locked_tree) 1000 (start [] "") =
    (Raise TypeError,
     {| trace := [Log ERROR "Failed to calculate directory size"];
        stdin := []; fstab := Some "" |}) /\
  os_walk (calm locked_tree) home = [["home"; "locked"]; ["home"; "big"]] /\
  kb_of (calm locked_tree) ["home"; "locked"] = None /\
  exceeds (calm locked_tree) 1000 ["home"; "big"] = true.
Proof. repeat split. Qed.

(** ** Sizes of nested directories *)

Lemma sum_file_sizes_app (a b : list node) :
  sum_file_sizes (a ++ b) =
    match sum_file_sizes a, sum_file_sizes b with
    | Some x, Some y => Some (x + y)%N
    | _, _ => None
    end.
Proof.
  induction a as [|f a IH]; simpl.
  - destruct (sum_file_sizes b); reflexivity.
  - destruct (is_file f) as [isf|e]; [|reflexivity].
    rewrite IH. destruct (sum_file_sizes a) as [x|]; [|reflexivity].
    destruct (sum_file_sizes b) as [y|]; [|reflexivity].
    destruct isf; f_equal; lia.
Qed.

Lemma rglob_app (a b : list node) : rglob (a ++ b) = rglob a ++ rglob b.
Proof. apply flat_map_app. Qed.

Lemma rglob_cons (e : node) (l : list node) : rglob (e :: l) = rglob_node e ++ rglob l.
Proof. reflexivity. Qed.

Lemma rglob_node_dir (name : string) (es : list node) :
  rglob_node (Dir name es) = Dir name es :: rglob es.
Proof. reflexivity. Qed.

Lemma lookup_entry_split (c : string) (es : list node) (e : node) :
  lookup_entry c es = Some e -> exists l1 l2, es = l1 ++ e :: l2.
Proof.
  induction es as [|x es IH]; simpl; [discriminate|].
  destruct (String.eqb (node_name x) c).
  - intros [= ->]. exists [], es. reflexivity.
  - intros H. destruct (IH H) as (l1 & l2 & ->). exists (x :: l1), l2. reflexivity.
Qed.

Lemma bytes_app (a b : list node) : bytes (a ++ b) = (bytes a + bytes b)%N.
Proof. induction a as [|f a IH]; simpl; [reflexivity | rewrite IH; lia]. Qed.

(** What lies at the top of a listing is part of what lies beneath it. *)
Lemma bytes_le_rglob (l : list node) (t : N) :
  sum_file_sizes (rglob l) = Some t -> (bytes l <= t)%N.
Proof.
  revert t. induction l as [|e l IH]; intros t.
  - intros [= <-]. reflexivity.
  - rewrite rglob_cons, sum_file_sizes_app.
    destruct (sum_file_sizes (rglob_node e)) as [x|] eqn:Hx; [|discriminate].
    destruct (sum_file_sizes (rglob l)) as [y|] eqn:Hy; [|discriminate].
    intros [= <-]. specialize (IH y eq_refl). simpl bytes.
    assert (st_size e <= x)%N; [|lia].
    destruct e; simpl in Hx; try (injection Hx as <-; simpl; lia); try discriminate.
    destruct (sum_file_sizes (flat_map rglob_node entries)); [|discriminate].
    injection Hx as <-. simpl. lia.
Qed.

Lemma nested_sum (p : path) : forall (es in_b : list node) (ta : N),
  p <> [] ->
  descend_real es p = Some in_b ->
  sum_file_sizes (rglob es) = Some ta ->
  exists tb, sum_file_sizes (rglob in_b) = Some tb /\ (bytes es + tb <= ta)%N.
Proof.
  induction p as [|c p IH]; intros es in_b ta Hne Hdesc Hsum; [contradiction|].
  simpl in Hdesc.
  destruct (lookup_entry c es) as [[| | |name es'| | |]|] eqn:Hlook; try discriminate.
  destruct (lookup_entry_split _ _ _ Hlook) as (l1 & l2 & ->).
  rewrite rglob_app, rglob_cons, rglob_node_dir in Hsum.
  rewrite sum_file_sizes_app in Hsum.
  destruct (sum_file_sizes (rglob l1)) as [s1|] eqn:H1; [|discriminate].
  change ((Dir name es' :: rglob es') ++ rglob l2)
    with ([Dir name es'] ++ rglob es' ++ rglob l2) in Hsum.
  rewrite !sum_file_sizes_app in Hsum. simpl in Hsum.
  destruct (sum_file_sizes (rglob es')) as [s'|] eqn:H'; [|discriminate].
  destruct (sum_file_sizes (rglob l2)) as [s2|] eqn:H2; [|discriminate].
  injection Hsum as <-.
  apply bytes_le_rglob in H1, H2.
  rewrite bytes_app. simpl bytes.
  destruct p as [|c' p'].
  - simpl in Hdesc. injection Hdesc as <-. exists s'. split; [assumption | lia].
  - destruct (IH es' in_b s') as (tb & Htb & Hle); [discriminate | assumption | assumption |].
    exists tb. split; [assumption | lia].
Qed.

Lemma descend_real_descend (p : path) : forall (es es' : list node),
  descend_real es p = Some es' -> descend es p = Some es'.
Proof.
  induction p as [|c p IH]; intros es es'; simpl; [auto|].
  destruct (lookup_entry c es) as [[| | |name sub| | |]|]; try discriminate. apply IH.
Qed.

(** A listing that was refused shows no entry to go on with. *)
Lemma descend_app_real (a rest : path) : forall (es in_a in_b : list node),
  descend es a = Some in_a ->
  rest <> [] ->
  descend_real in_a rest = Some in_b ->
  descend es (a ++ rest) = Some in_b.
Proof.
  induction a as [|c a IH]; intros es in_a in_b; cbn [descend app].
  - intros [= ->] _. apply descend_real_descend.
  - destruct (lookup_entry c es) as [[| | |name sub|name sub|name sub|name]|];
      try discriminate; try apply IH;
      (destruct a as [|c' a]; [|first [apply IH | discriminate]]);
      intros [= <-] Hne Hb; (destruct rest as [|c' rest]; [contradiction | discriminate]).
Qed.

(** A path that leads to a directory can be examined. *)
Lemma descend_examinable (p : path) : forall (es es' : list node),
  descend es p = Some es' -> unexaminable es p = false.
Proof.
  induction p as [|c p IH]; intros es es'; cbn [descend unexaminable]; [reflexivity|].
  destruct (lookup_entry c es) as [[| | |name sub|name sub|name sub|name]|];
    try discriminate; try apply IH;
    (destruct p as [|c' p]; [reflexivity | first [apply IH | discriminate]]).
Qed.

(** C9.  Let [b] be a directory reached from directory [a] through real
    directories that can be listed, [b] being one too.  When the size of [a]
    is computed, so is the size of [b],
    and it is not larger; in bytes, the total of [a] covers the files that
    lie directly in [a] and, on top of them, the total of [b]. *)
Theorem nested_directory_size (w : world) (a rest : path) (in_a in_b : list node)
    (st : state) (size_a : Z) :
  descend (fs w) a = Some in_a ->
  rest <> [] ->
  descend_real in_a rest = Some in_b ->
  fst (calculate_dir_size w a st) = Ok (Some size_a) ->
  exists size_b bytes_a bytes_b,
    fst (calculate_dir_size w (a ++ rest) st) = Ok (Some size_b) /\
    size_b <= size_a /\
    sum_file_sizes (rglob in_a) = Some bytes_a /\
    sum_file_sizes (rglob in_b) = Some bytes_b /\
    (bytes in_a + bytes_b <= bytes_a)%N /\
    size_a = Z.of_N bytes_a / 1024 /\
    size_b = Z.of_N bytes_b / 1024.
Proof.
  intros Ha Hne Hb. rewrite !calculate_dir_size_spec. simpl.
  pose proof (descend_app_real a rest _ _ _ Ha Hne Hb) as Hab.
  unfold kb_of, sum_beneath, rglob_from.
  rewrite (descend_examinable _ _ _ Ha), (descend_examinable _ _ _ Hab), Hab, Ha.
  destruct (sum_file_sizes (rglob in_a)) as [ta|] eqn:Hta; [|discriminate].
  simpl. intros [= <-].
  destruct (nested_sum rest in_a in_b ta Hne Hb Hta) as (tb & Htb & Hle).
  exists (Z.of_N tb / 1024), ta, tb. rewrite Htb. simpl.
  split; [reflexivity|]. split; [apply Z.div_le_mono; lia|]. auto.
Qed.

Lemma nested_directory_size_witness :
  exists size_b bytes_a bytes_b,
    fst (calculate_dir_size (calm two_tree) (["home"; "d"] ++ ["sub"]) (start [] ""))
      = Ok (Some size_b) /\
    size_b <= 1537024 /\
    sum_file_sizes (rglob [File "disk" (MiB 1500); Dir "sub" [File "x" (MiB 1)]]) = Some bytes_a /\
    sum_file_sizes (rglob [File "x" (MiB 1)]) = Some bytes_b /\
    (bytes [File "disk" (MiB 1500); Dir "sub" [File "x" (MiB 1)]] + bytes_b <= bytes_a)%N /\
    1537024 = Z.of_N bytes_a / 1024 /\
    size_b = Z.of_N bytes_b / 1024.
Proof.
  apply (nested_directory_size (calm two_tree) ["home"; "d"] ["sub"]
           [File "disk" (MiB 1500); Dir "sub" [File "x" (MiB 1)]] [File "x" (MiB 1)]
           (start [] "") 1537024).
  - reflexivity.
  - discriminate.
  - reflexivity.
  - reflexivity.
Defined.

(** A symbolic link to a directory is listed by the walk and measured
    through the link, but the size of the directory that holds the link does
    not count what lies behind it.  The size of a directory is [None] as
    soon as one entry beneath it cannot be examined, also when the size of a
    directory inside it is known.  And without any link: a directory that
    can be traversed but not listed hides what lies in it from the size of
    the directories above, while a directory inside it is measured in
    full. *)
Lemma linked_directory_larger_than_parent :
  (let w := calm link_tree in
   os_walk w home = [["home"; "u"]; ["home"; "u"; "videos"]] /\
   fst (calculate_dir_size w ["home"; "u"] (start [] "")) = Ok (Some 1024) /\
   fst (calculate_dir_size w (["home"; "u"] ++ ["videos"]) (start [] "")) = Ok (Some 2048000) /\
   ~ (2048000 <= 1024)) /\
  (let w := calm half_locked_tree in
   os_walk w home = [["home"; "x"]; ["home"; "x"; "big"]] /\
   fst (calculate_dir_size w ["home"; "x"] (start [] "")) = Ok None /\
   fst (calculate_dir_size w (["home"; "x"] ++ ["big"]) (start [] "")) = Ok (Some 2048000)) /\
  (let w := calm search_only_tree in
   os_walk w home = [["home"; "A"]; ["home"; "A"; "X"]] /\
   fst (calculate_dir_size w ["home"; "A"] (start [] "")) = Ok (Some 1024) /\
   fst (calculate_dir_size w (["home"; "A"] ++ ["X"]) (start [] "")) = Ok (Some 0) /\
   fst (calculate_dir_size w (["home"; "A"] ++ ["X"; "B"]) (start [] ""))
     = Ok (Some 2048000) /\
   ~ (2048000 <= 1024)).
Proof. repeat split; intros H; vm_compute in H; now apply H. Qed.

(** ** Selector *)

Lemma shown_app (a b : list event) : shown (a ++ b) = shown a ++ shown b.
Proof. unfold shown. apply flat_map_app. Qed.

Lemma answers_cons (l : string) (rest : list string) :
  answers (l :: rest) =
    if decide (lower l = "y" \/ lower l = "n") then l :: answers rest else answers rest.
Proof. reflexivity. Qed.

Lemma ask_spec (lines : list string) (tr : list event) :
  exists evs,
    fst (snd (ask lines tr)) = tr ++ evs /\
    shown evs = [] /\
    (forall response, fst (ask lines tr) = Ok response -> response = "y" \/ response = "n") /\
    (length (answers lines) <= S (length (answers (snd (snd (ask lines tr))))))%nat /\
    (answers lines <> [] -> exists response, fst (ask lines tr) = Ok response).
Proof.
  revert tr. induction lines as [|l rest IH]; intros tr; simpl.
  - exists [Input None].
    split; [reflexivity|]. split; [reflexivity|]. split; [discriminate|].
    split; [simpl; lia|]. intros H. now destruct H.
  - rewrite answers_cons.
    destruct (decide (lower l = "y" \/ lower l = "n")) as [Hv|Hv]; simpl.
    + exists [Input (Some l)].
      split; [reflexivity|]. split; [reflexivity|].
      split; [intros response [= <-]; exact Hv|].
      split; [simpl; lia|]. intros _. eauto.
    + destruct (IH ((tr ++ [Input (Some l)]) ++ [Stdout PleaseEnter]))
        as (evs & Htr & Hshown & Hresp & Hlen & Hret).
      exists (Input (Some l) :: Stdout PleaseEnter :: evs).
      split; [rewrite Htr, <- !app_assoc; reflexivity|].
      split; [exact Hshown|]. auto.
Qed.

Lemma offer_spec (limit : Z) (dir_info : list (path * Q)) (p : path) (size_mb : Q)
    (i : Z) (dirs : list path) (st : state) :
  let run := offer limit dir_info (p, size_mb) (i, dirs) st in
  exists evs,
    trace (snd run) = trace st ++ evs /\
    shown evs = [p] /\
    (forall vars, fst run = Ok vars -> snd vars = dirs \/ snd vars = dirs ++ [p]) /\
    (length (answers (stdin st)) <= S (length (answers (stdin (snd run)))))%nat /\
    (answers (stdin st) <> [] -> exists vars, fst run = Ok vars).
Proof.
  unfold offer, print, emit, bind, ask_yes_no. simpl.
  match goal with |- context [ask ?l ?t] =>
    destruct (ask_spec l t) as (evs & Htr & Hshown & Hresp & Hlen & Hret);
    destruct (ask l t) as [r [tr' rest]] end.
  simpl in *. subst tr'.
  destruct r as [response|e]; simpl.
  - destruct (decide (response = "y")); simpl.
    + eexists (_ :: _ :: _ :: evs ++ [_]). split.
      { rewrite <- !app_assoc. reflexivity. }
      split; [simpl; rewrite shown_app, Hshown; reflexivity|].
      split; [intros vars [= <-]; auto|]. split; [assumption|]. eauto.
    + eexists (_ :: _ :: _ :: evs ++ [_]). split.
      { rewrite <- !app_assoc. reflexivity. }
      split; [simpl; rewrite shown_app, Hshown; reflexivity|].
      split; [intros vars [= <-]; auto|]. split; [assumption|]. eauto.
  - eexists (_ :: _ :: _ :: evs). split.
    { rewrite <- !app_assoc. reflexivity. }
    split; [simpl; rewrite Hshown; reflexivity|].
    split; [discriminate|]. split; [assumption|].
    intros H. destruct (Hret H) as [? ?]. discriminate.
Qed.

Lemma offer_loop (limit : Z) (dir_info l : list (path * Q)) (i : Z) (dirs : list path)
    (st : state) :
  let run := for_each l (offer limit dir_info) (i, dirs) st in
  exists evs,
    trace (snd run) = trace st ++ evs /\
    shown evs `prefix_of` map fst l /\
    (forall vars, fst run = Ok vars ->
       shown evs = map fst l /\
       exists approved, snd vars = dirs ++ approved /\ sublist approved (map fst l)) /\
    ((length l <= length (answers (stdin st)))%nat -> exists vars, fst run = Ok vars).
Proof.
  revert i dirs st. induction l as [|[p size_mb] l IH]; intros i dirs st run; subst run;
    cbn [for_each].
  - exists []. simpl. rewrite app_nil_r. split; [reflexivity|]. split; [reflexivity|].
    split; [|eauto].
    intros vars [= <-]. split; [reflexivity|]. exists []. rewrite app_nil_r.
    split; [reflexivity | constructor].
  - rewrite bind_unfold.
    destruct (offer_spec limit dir_info p size_mb i dirs st)
      as (evs & Htr & Hshown & Hvars & Hlen & Hret).
    destruct (offer limit dir_info (p, size_mb) (i, dirs) st) as [[[i' dirs']|e] st1];
      cbn [fst snd] in *.
    + destruct (IH i' dirs' st1) as (evs' & Htr' & Hshown' & Hvars' & Hret').
      exists (evs ++ evs'). split; [rewrite Htr', Htr, <- app_assoc; reflexivity|].
      rewrite shown_app, Hshown. simpl.
      split; [now apply prefix_cons|]. split.
      * intros vars Hrun. destruct (Hvars' vars Hrun) as (-> & approved & Hsnd & Hsub).
        split; [reflexivity|].
        destruct (Hvars _ eq_refl) as [Hd|Hd]; simpl in Hd; subst dirs'.
        -- exists approved. split; [assumption | now apply sublist_cons].
        -- exists (p :: approved). rewrite Hsnd, <- app_assoc.
           split; [reflexivity | now apply sublist_skip].
      * intros Hle. apply Hret'. lia.
    + exists evs. split; [assumption|]. rewrite Hshown.
      split; [apply prefix_cons, prefix_nil|]. split; [discriminate|].
      intros Hle. destruct Hret as [? ?]; [|discriminate].
      intros Hnil. rewrite Hnil in Hle. simpl in Hle. lia.
Qed.

(** C7.  For a display limit [0 <= N]: the candidates put before the
    operator are an initial part of the first [N] candidates, in ranked
    order; when the selector returns, all of the first [N] were shown, the
    approved paths are a sublist of them (ranked order kept) and there are at
    most [N]; and the selector does return when standard input holds one
    accepted answer for each of them. *)
Theorem prompt_directory_move_first_n (dir_info : list (path * Q)) (limit : Z) (st : state) :
  0 <= limit ->
  let run := prompt_directory_move dir_info limit st in
  let first_n := map fst (take (Z.to_nat limit) dir_info) in
  shown (new_events st (snd run)) `prefix_of` first_n /\
  (forall approved, fst run = Ok approved ->
     shown (new_events st (snd run)) = first_n /\
     sublist approved first_n /\
     Z.of_nat (length approved) <= limit) /\
  ((length first_n <= length (answers (stdin st)))%nat ->
     exists approved, fst run = Ok approved).
Proof.
  intros Hlimit run first_n. subst run.
  unfold prompt_directory_move, bind.
  assert (Hslice : slice_to dir_info limit = take (Z.to_nat limit) dir_info).
  { unfold slice_to. destruct (Z.leb_spec 0 limit); [reflexivity | lia]. }
  rewrite Hslice.
  destruct (offer_loop limit dir_info (take (Z.to_nat limit) dir_info) 0 [] st)
    as (evs & Htr & Hshown & Hvars & Hret).
  fold first_n in Hshown, Hvars.
  destruct (for_each (take (Z.to_nat limit) dir_info) (offer limit dir_info) (0, []) st)
    as [[vars|e] st1]; simpl in *.
  - rewrite (new_events_app _ _ _ Htr).
    split; [assumption|]. split.
    + intros approved [= <-].
      destruct (Hvars vars eq_refl) as (Heq & approved & Hsnd & Hsub).
      rewrite Hsnd. simpl. split; [assumption|]. split; [assumption|].
      apply sublist_length in Hsub. subst first_n.
      rewrite length_map, length_take in Hsub. lia.
    + intros _. eauto.
  - rewrite (new_events_app _ _ _ Htr).
    split; [assumption|]. split; [discriminate|].
    intros Hle. subst first_n. rewrite length_map in Hle.
    destruct (Hret Hle) as [? ?]. discriminate.
Qed.

Lemma prompt_directory_move_first_n_witness :
  let dir_info := [(["home"; "a"], 3%Q); (["home"; "b"], 2%Q); (["home"; "c"], 1%Q)] in
  let run := prompt_directory_move dir_info 2 (start ["Y"; "maybe"; "n"] "") in
  0 <= 2 /\
  fst run = Ok [["home"; "a"]] /\
  shown (new_events (start ["Y"; "maybe"; "n"] "") (snd run)) = [["home"; "a"]; ["home"; "b"]] /\
  sublist [["home"; "a"]] [["home"; "a"]; ["home"; "b"]] /\
  Z.of_nat (length [["home"; "a"]]) <= 2.
Proof.
  intros dir_info run.
  assert (H0 : 0 <= 2) by lia.
  assert (Hrun : fst run = Ok [["home"; "a"]]) by reflexivity.
  split; [exact H0 | split; [exact Hrun|]].
  exact (proj1 (proj2 (prompt_directory_move_first_n dir_info 2
           (start ["Y"; "maybe"; "n"] "") H0)) _ Hrun).
Defined.

(** With a negative limit the slice [dir_info[:limit]] drops candidates
    from the end instead of keeping none: a candidate is shown and approved
    although no rank is within the limit. *)
Lemma prompt_directory_move_negative_limit :
  let dir_info := [(["home"; "a"], 3%Q); (["home"; "b"], 2%Q)] in
  let run := prompt_directory_move dir_info (-1) (start ["y"] "") in
  fst run = Ok [["home"; "a"]] /\
  shown (new_events (start ["y"] "") (snd run)) = [["home"; "a"]] /\
  ~ (Z.of_nat (length [["home"; "a"]]) <= -1) /\
  ~ shown (new_events (start ["y"] "") (snd run))
      `prefix_of` map fst (take (Z.to_nat (-1)) dir_info).
Proof.
  intros dir_info run.
  split; [reflexivity|]. split; [reflexivity|]. split; [simpl; lia|].
  intros H. apply prefix_length in H. vm_compute in H. lia.
Qed.

(** ** Capacity check *)

Lemma total_required_loop (w : world) (selected : list path) (acc required : Z) (st st' : state) :
  for_each selected (fun d acc =>
      bind (calculate_dir_size w d) (fun size =>
        match size with
        | None => raise TypeError
        | Some kb => ret (acc + kb)
        end)) acc st = (Ok required, st') ->
  exists sizes,
    Forall2 (fun d kb => kb_of w d = Some kb) selected sizes /\
    required = acc + fold_right Z.add 0 sizes.
Proof.
  revert acc st. induction selected as [|d selected IH]; intros acc st; cbn [for_each].
  - intros [= <- <-]. exists []. split; [constructor | simpl; lia].
  - rewrite !bind_unfold, calculate_dir_size_spec.
    destruct (kb_of w d) as [kb|] eqn:Hkb; [|discriminate].
    unfold ret at 1. intros Hrun. apply IH in Hrun as (sizes & Hall & ->).
    exists (kb :: sizes). split; [constructor; assumption | simpl; lia].
Qed.

Lemma check_disk_usage_some (w : world) (p : string) (st st' : state) (space : usage) :
  check_disk_usage w p st = (Ok (Some space), st') ->
  (exists t u f, disk_usage w (trace st) p = Some (t, u, f) /\ available space = f / 1024) /\
  trace st' = trace st ++ [DiskUsage p].
Proof.
  unfold check_disk_usage, try_except, bind, history, emit, logger, emit, ret, raise. simpl.
  destruct (disk_usage w (trace st) p) as [[[t u] f]|]; simpl.
  - intros [= <- <-]. split; [exists t, u, f; auto | reflexivity].
  - discriminate.
Qed.

(** C1.  Take a run of [main] that reaches the capacity check: the scan
    found candidates, the operator approved some, the free space of [/]
    could be read and the sizes of the approved directories could be
    summed.  Then the required size is the sum of the sizes of the approved
    directories and the available size is the free space reported for [/],
    both in kilobytes.  If required > available the run ends there, having
    produced nothing but output, input, log lines and the free-space query
    for [/].  Otherwise the next thing the run does is to create the mount
    point, and no further free-space query follows. *)
Theorem capacity_check (w : world) (st st1 st2 st3 st4 : state)
    (large_dirs : list (path * Q)) (selected_dirs : list path)
    (space : usage) (required : Z) :
  find_large_directories w min_dir_size_mb
    (snd (logger INFO "Scanning for large directories..." st)) = (Ok large_dirs, st1) ->
  large_dirs <> [] ->
  prompt_directory_move large_dirs 10
    (snd (logger INFO (newline +:+ "Select directories to move:") st1)) = (Ok selected_dirs, st2) ->
  selected_dirs <> [] ->
  check_disk_usage w "/" st2 = (Ok (Some space), st3) ->
  total_required w selected_dirs st3 = (Ok required, st4) ->
  (exists sizes,
     Forall2 (fun d kb => kb_of w d = Some kb) selected_dirs sizes /\
     required = fold_right Z.add 0 sizes) /\
  (exists t u f, disk_usage w (trace st2) "/" = Some (t, u, f) /\ available space = f / 1024) /\
  (available space < required ->
     main w st = (Ok tt, snd (logger ERROR "Insufficient space" st4)) /\
     Forall touches_nothing (new_events st (snd (main w st))) /\
     disk_queries (new_events st (snd (main w st))) = ["/"]) /\
  (required <= available space ->
     exists before rest,
       trace (snd (main w st)) = trace st ++ before ++ Mkdir "/mnt/temp" :: rest /\
       trace st4 = trace st ++ before /\
       Forall touches_nothing before /\
       disk_queries before = ["/"] /\
       Forall not_disk_usage rest).
Proof.
  intros Hscan Hlarge Hprompt Hsel Hcheck Hreq.
  split; [|split].
  { unfold total_required in Hreq. apply total_required_loop in Hreq as (sizes & H & ->).
    exists sizes. split; [assumption | lia]. }
  { eapply check_disk_usage_some; eauto. }
  (* the trace up to the end of the check *)
  assert (Hbefore : exists before,
            trace st4 = trace st ++ before /\ Forall touches_nothing before /\
            disk_queries before = ["/"]).
  { destruct (emits_run _ _ _ _ _ (emits_is_log_talk _
                (emits_find_large_directories w min_dir_size_mb)) Hscan) as (e1 & H1 & P1).
    destruct (emits_run _ _ _ _ _ (emits_prompt_directory_move large_dirs 10) Hprompt)
      as (e2 & H2 & P2).
    destruct (check_disk_usage_some _ _ _ _ _ Hcheck) as (_ & H3).
    destruct (emits_run _ _ _ _ _ (emits_is_log_talk _
                (emits_total_required w selected_dirs)) Hreq) as (e4 & H4 & P4).
    simpl in H1, H2.
    exists ((Log INFO "Scanning for large directories..." :: e1) ++
            (Log INFO (newline +:+ "Select directories to move:") :: e2) ++
            [DiskUsage "/"] ++ e4).
    split; [rewrite H4, H3, H2, H1, <- !app_assoc; reflexivity|].
    split.
    - repeat (apply Forall_app; split); try (apply talk_touches_nothing; assumption);
        repeat constructor; apply talk_touches_nothing; assumption.
    - rewrite !disk_queries_app. simpl.
      rewrite (disk_queries_talk e1), (disk_queries_talk e2), (disk_queries_talk e4)
        by assumption.
      reflexivity. }
  destruct Hbefore as (before & Htr & Hquiet & Hqueries).
  (* [main] up to the comparison *)
  assert (Hmain : main w st =
            (if available space <? required
             then logger ERROR "Insufficient space"
             else
               bind (mount_drive w drive (show_path mount_point)) (fun mounted =>
                 if negb mounted then ret tt
                 else
                   bind (for_each selected_dirs (fun source_dir _ => process w source_dir) tt)
                     (fun _ =>
                        bind (update_fstab w drive (show_path mount_point)) (fun updated =>
                          if updated
                          then bind (logger INFO (newline +:+ "Updated fstab successfully"))
                                 (fun _ => logger INFO "Disk space rebalancing complete")
                          else ret tt)))) st4).
  { unfold main. rewrite bind_unfold. cbn [logger emit fst snd] in *.
    rewrite bind_unfold, Hscan.
    destruct large_dirs as [|c large_dirs]; [contradiction|].
    rewrite bind_unfold. cbn [logger emit fst snd].
    rewrite bind_unfold, Hprompt.
    destruct selected_dirs as [|d selected_dirs]; [contradiction|].
    rewrite bind_unfold, Hcheck.
    rewrite bind_unfold, Hreq. reflexivity. }
  split.
  - intros Hlt. apply Z.ltb_lt in Hlt. rewrite Hmain, Hlt.
    split; [reflexivity|].
    erewrite new_events_app with (evs := before ++ [Log ERROR "Insufficient space"]).
    + split; [apply Forall_app; split; [assumption | repeat constructor]|].
      rewrite disk_queries_app, Hqueries. reflexivity.
    + simpl. rewrite Htr, <- app_assoc. reflexivity.
  - intros Hle. apply Z.ltb_ge in Hle. rewrite Hmain, Hle.
    rewrite bind_unfold.
    destruct (mount_drive_starts_with_mkdir w drive (show_path mount_point) st4)
      as (r1 & Hm & Pm).
    destruct (mount_drive w drive (show_path mount_point) st4) as [[mounted|e] stm];
      cbn [fst snd] in *.
    + assert (Hrest : emits not_disk_usage
                (if negb mounted then ret tt
                 else
                   bind (for_each selected_dirs (fun source_dir _ => process w source_dir) tt)
                     (fun _ =>
                        bind (update_fstab w drive (show_path mount_point)) (fun updated =>
                          if updated
                          then bind (logger INFO (newline +:+ "Updated fstab successfully"))
                                 (fun _ => logger INFO "Disk space rebalancing complete")
                          else ret tt)))).
      { destruct mounted; simpl; [|apply emits_ret].
        apply emits_bind; [apply emits_for_each; intros; apply emits_process|].
        intros _. apply emits_bind; [apply emits_update_fstab|].
        intros updated. unfold logger. emits_auto. }
      destruct (Hrest stm) as (r2 & H2 & P2).
      exists before, (r1 ++ r2). rewrite H2, Hm, Htr, <- !app_assoc.
      split; [reflexivity|]. split; [reflexivity|]. split; [assumption|].
      split; [assumption|]. apply Forall_app. auto.
    + exists before, r1. rewrite Hm, Htr, <- !app_assoc. auto.
Qed.

Lemma capacity_check_witness :
  let w := calm two_tree in
  let st := start ["y"; "y"] "" in
  exists before rest,
    trace (snd (main w st)) = trace st ++ before ++ Mkdir "/mnt/temp" :: rest /\
    Forall touches_nothing before /\
    disk_queries before = ["/"] /\
    Forall not_disk_usage rest.
Proof.
  intros w st.
  set (st0 := snd (logger INFO "Scanning for large directories..." st)).
  set (scan := find_large_directories w min_dir_size_mb st0).
  set (large_dirs := match fst scan with Ok l => l | Raise _ => [] end).
  set (st1' := snd (logger INFO (newline +:+ "Select directories to move:") (snd scan))).
  set (asked := prompt_directory_move large_dirs 10 st1').
  set (selected_dirs := match fst asked with Ok l => l | Raise _ => [] end).
  set (checked := check_disk_usage w "/" (snd asked)).
  set (space := {| total := 97656250; used := 48828125; available := 48828125 |}).
  set (summed := total_required w selected_dirs (snd checked)).
  assert (H1 : scan = (Ok large_dirs, snd scan)) by reflexivity.
  assert (H2 : large_dirs <> []) by discriminate.
  assert (H3 : asked = (Ok selected_dirs, snd asked)) by reflexivity.
  assert (H4 : selected_dirs <> []) by discriminate.
  assert (H5 : checked = (Ok (Some space), snd checked)) by reflexivity.
  assert (H6 : summed = (Ok 3585024, snd summed)) by reflexivity.
  destruct (capacity_check w st (snd scan) (snd asked) (snd checked) (snd summed)
              large_dirs selected_dirs space 3585024 H1 H2 H3 H4 H5 H6)
    as (_ & _ & _ & Hgo).
  destruct Hgo as (before & rest & Htrace & _ & Hb & Hq & Hr); [simpl; lia|].
  exists before, rest. auto.
Defined.

(** The two cases of the capacity check on a tree with 3.4 GB to move. *)
Example capacity_check_aborts :
  let run := main (free_space 1000000000 two_tree) (start ["y"; "y"] "") in
  fst run = Ok tt /\
  commands (trace (snd run)) = [] /\
  last (logged (trace (snd run))) = Some "Insufficient space".
Proof. repeat split. Qed.

Example capacity_check_proceeds :
  let run := main (calm two_tree) (start ["y"; "y"] "") in
  fst run = Ok tt /\
  commands (trace (snd run)) =
    [["sudo"; "mount"; "/dev/nvme0n1p1"; "/mnt/temp"];
     rsync_dry_run "/home/a" "/mnt/temp/a"; rsync_delete "/home/a" "/mnt/temp/a";
     diff_r "/home/a" "/mnt/temp/a"; ["sudo"; "rm"; "-rf"; "/home/a"];
     rsync_dry_run "/home/d" "/mnt/temp/d"; rsync_delete "/home/d" "/mnt/temp/d";
     diff_r "/home/d" "/mnt/temp/d"; ["sudo"; "rm"; "-rf"; "/home/d"];
     ["sudo"; "tee"; "-a"; "/etc/fstab"]].
Proof. repeat split. Qed.

(** ** Transfer engine *)

(** C4. [transfer_directory] starts with the dry run.  Any further command
    that it runs is the mirroring [rsync --delete] and is run only after the
    dry run exited with code 0; when the dry run did anything else (a
    non-zero code, or it could not be started) the result is not [True] and
    nothing but log lines follows the dry run. *)
Theorem transfer_directory_dry_run_gate (w : world) (source destination : string) (st : state) :
  let dry := spawn w (trace st) (rsync_dry_run source destination) None in
  let run := transfer_directory w source destination st in
  exists rest,
    new_events st (snd run) = Run (rsync_dry_run source destination) None dry :: rest /\
    (forall argv i r, In (Run argv i r) rest ->
       dry = Exited 0 /\ argv = rsync_delete source destination /\ i = None) /\
    (dry <> Exited 0 -> fst run <> Ok true /\ Forall is_log rest) /\
    (fst run = Ok true -> exists r, rest = [Run (rsync_delete source destination) None r] /\ r = Exited 0).
Proof.
  intros dry run. subst run.
  unfold transfer_directory, try_except, bind.
  rewrite subprocess_run_spec. fold dry.
  destruct dry as [rc|] eqn:Hdry; simpl.
  - destruct (rc =? 0) eqn:Hrc; simpl.
    + apply Z.eqb_eq in Hrc. subst rc.
      rewrite subprocess_run_spec. simpl.
      match goal with |- context [spawn w ?t ?a ?i] => destruct (spawn w t a i) as [rc2|] eqn:Hreal end; simpl.
      * destruct (rc2 =? 0) eqn:Hrc2; simpl.
        -- apply Z.eqb_eq in Hrc2. subst rc2.
           eexists. split.
           { apply new_events_app. simpl. rewrite <- app_assoc. reflexivity. }
           split; [|split].
           ++ intros argv i r [H|[]]. inversion H. auto.
           ++ intros H. congruence.
           ++ intros _. eexists. split; reflexivity.
        -- eexists. split.
           { apply new_events_app. simpl. rewrite <- !app_assoc. reflexivity. }
           split; [|split].
           ++ intros argv i r [H|[H|[]]]; inversion H. auto.
           ++ intros H. congruence.
           ++ intros H. discriminate.
      * eexists. split.
        { apply new_events_app. simpl. rewrite <- !app_assoc. reflexivity. }
        split; [|split].
        ++ intros argv i r [H|[]]. inversion H. auto.
        ++ intros H. congruence.
        ++ intros H. discriminate.
    + eexists. split.
      { apply new_events_app. simpl. rewrite <- !app_assoc. reflexivity. }
      split; [|split].
      * intros argv i r [H|[]]. inversion H.
      * intros _. split; [discriminate|]. repeat constructor.
      * intros H. discriminate.
  - eexists. split.
    { apply new_events_app. simpl. reflexivity. }
    split; [|split].
    + intros argv i r [].
    + intros _. split; [discriminate|]. constructor.
    + intros H. discriminate.
Qed.

(** ** Verifier *)

Lemma verify_transfer_spec (w : world) (source destination : string) (st : state) :
  let r := spawn w (trace st) (diff_r source destination) None in
  fst (verify_transfer w source destination st) =
    match r with
    | Exited rc => Ok (rc =? 0)
    | NotStarted => Raise OSError
    end /\
  new_events st (snd (verify_transfer w source destination st)) =
    [Run (diff_r source destination) None r].
Proof.
  intros r. unfold verify_transfer, try_except, bind.
  rewrite subprocess_run_spec. fold r.
  destruct r as [rc|]; simpl; (split; [reflexivity | apply new_events_app; reflexivity]).
Qed.

(** C5.  When [sudo diff] cannot be started, [subprocess.run] raises an
    [OSError]; the handler of [verify_transfer] only names
    [CalledProcessError], so the verifier does not answer [False]: the
    exception leaves it, and it leaves [main] as well. *)
Theorem verify_transfer_not_started_raises :
  let w := unable_to_start [diff_r "/home/a" "/mnt/temp/a"] [] in
  fst (verify_transfer w "/home/a" "/mnt/temp/a" (start [] "")) = Raise OSError /\
  new_events (start [] "") (snd (verify_transfer w "/home/a" "/mnt/temp/a" (start [] "")))
    = [Run (diff_r "/home/a" "/mnt/temp/a") None NotStarted].
Proof. split; reflexivity. Qed.

(** ** The loop over the approved directories *)

(** A directory whose transfer, verification or relink reports a failure is
    logged as failed and the loop goes on; the one way out of [process] is
    the [OSError] of an [rsync] or [diff] that could not be started. *)
Lemma process_outcome (w : world) (source_dir : path) (st : state) :
  let source := show_path source_dir in
  let destination := show_path (mount_point ++ [path_name source_dir]) in
  fst (process w source_dir st) = Ok tt \/
  (fst (process w source_dir st) = Raise OSError /\
   exists argv,
     argv ∈ [rsync_dry_run source destination; rsync_delete source destination;
             diff_r source destination] /\
     last (new_events st (snd (process w source_dir st))) = Some (Run argv None NotStarted)).
Proof.
  intros source destination.
  unfold process, transfer_directory, verify_transfer, create_symlink.
  fold source. fold destination.
  unfold try_except, bind, history, logger, emit, ret, raise. simpl.
  rewrite subprocess_run_spec. simpl.
  match goal with |- context [spawn w ?t (rsync_dry_run _ _) ?i] =>
    destruct (spawn w t (rsync_dry_run source destination) i) as [rc|] eqn:Hdry end; simpl.
  2:{ right. split; [reflexivity|]. eexists. split; [apply list_elem_of_here|].
      erewrite new_events_app; [|simpl; rewrite <- !app_assoc; reflexivity]. reflexivity. }
  destruct (rc =? 0); simpl; [|left; reflexivity].
  rewrite subprocess_run_spec. simpl.
  match goal with |- context [spawn w ?t (rsync_delete _ _) ?i] =>
    destruct (spawn w t (rsync_delete source destination) i) as [rc2|] eqn:Hreal end; simpl.
  2:{ right. split; [reflexivity|]. eexists. split; [apply list_elem_of_further, list_elem_of_here|].
      erewrite new_events_app; [|simpl; rewrite <- !app_assoc; reflexivity]. reflexivity. }
  destruct (rc2 =? 0); simpl; [|left; reflexivity].
  rewrite subprocess_run_spec. simpl.
  match goal with |- context [spawn w ?t (diff_r _ _) ?i] =>
    destruct (spawn w t (diff_r source destination) i) as [rc3|] eqn:Hdiff end; simpl.
  2:{ right. split; [reflexivity|]. eexists.
      split; [apply list_elem_of_further, list_elem_of_further, list_elem_of_here|].
      erewrite new_events_app; [|simpl; rewrite <- !app_assoc; reflexivity]. reflexivity. }
  destruct (rc3 =? 0); simpl; [|left; reflexivity].
  left.
  repeat match goal with
         | |- context [if ?b then _ else _] => destruct b eqn:?; simpl
         | |- context [subprocess_run _ _ _ _ _] => rewrite subprocess_run_spec; simpl
         | |- context [match spawn ?w ?t ?a ?i with _ => _ end] =>
             destruct (spawn w t a i) eqn:?; simpl
         end; reflexivity.
Qed.

Lemma emits_anything_process (w : world) (d : path) : emits (fun _ => True) (process w d).
Proof. eapply emits_weaken; [|apply emits_process]. auto. Qed.

Lemma process_first_event (w : world) (d : path) (st : state) :
  exists rest,
    new_events st (snd (process w d st)) =
      Log INFO (newline +:+ "Processing: " +:+ show_path d) :: rest.
Proof.
  unfold process. rewrite bind_unfold. cbn [logger emit fst snd].
  match goal with |- context [bind ?m ?f ?s] =>
    assert (Hrest : emits (fun _ => True) (bind m f)) end.
  { unfold transfer_directory, verify_transfer, create_symlink, logger. emits_auto. }
  match goal with |- context [bind ?m ?f ?s] => destruct (Hrest s) as (rest & Ht & _) end.
  exists rest. apply new_events_app. rewrite Ht. simpl. rewrite <- app_assoc. reflexivity.
Qed.

Lemma logged_app (a b : list event) : logged (a ++ b) = logged a ++ logged b.
Proof. unfold logged. apply flat_map_app. Qed.

(** The loop of [main]: either every approved directory is processed, or
    the loop is left by the [OSError] of a command that could not be
    started. *)
Lemma process_loop (w : world) (selected_dirs : list path) (st : state) :
  let run := for_each selected_dirs (fun source_dir _ => process w source_dir) tt st in
  (fst run = Ok tt /\
   Forall (fun d => (newline +:+ "Processing: " +:+ show_path d)
                      ∈ logged (new_events st (snd run))) selected_dirs) \/
  (fst run = Raise OSError /\
   exists argv, last (new_events st (snd run)) = Some (Run argv None NotStarted)).
Proof.
  revert st. induction selected_dirs as [|d l IH]; intros st run; subst run; cbn [for_each].
  - left. split; [reflexivity | constructor].
  - rewrite bind_unfold.
    destruct (emits_anything_process w d st) as (evs1 & Ht1 & _).
    destruct (process_first_event w d st) as (rest & Hfirst).
    rewrite (new_events_app _ _ _ Ht1) in Hfirst.
    pose proof (process_outcome w d st) as Hout. cbv zeta in Hout.
    rewrite (new_events_app _ _ _ Ht1) in Hout.
    destruct (process w d st) as [[[]|e] st1]; cbn [fst snd] in *.
    + specialize (IH st1). cbv zeta in IH.
      assert (Hloop : emits (fun _ => True)
                (for_each l (fun source_dir _ => process w source_dir) tt)).
      { apply emits_for_each. intros. apply emits_anything_process. }
      destruct (Hloop st1) as (evs2 & Ht2 & _).
      rewrite (new_events_app _ _ _ Ht2) in IH.
      assert (Hall : new_events st
                (snd (for_each l (fun source_dir _ => process w source_dir) tt st1))
                = evs1 ++ evs2).
      { apply new_events_app. rewrite Ht2, Ht1, <- app_assoc. reflexivity. }
      rewrite Hall.
      destruct IH as [[Hok Hl]|[Herr [argv Hlast]]].
      * left. split; [assumption|]. constructor.
        -- rewrite logged_app, Hfirst. simpl. constructor.
        -- eapply Forall_impl; [exact Hl|]. simpl. intros p Hp.
           rewrite logged_app. apply elem_of_app. now right.
      * right. split; [assumption|]. exists argv.
        destruct evs2 as [|x evs2 _] using rev_ind; [discriminate|].
        rewrite last_snoc in Hlast. rewrite app_assoc, last_snoc. assumption.
    + right. destruct Hout as [Hout|[-> [argv [_ Hlast]]]]; [discriminate|].
      split; [reflexivity|]. exists argv.
      rewrite (new_events_app _ _ _ Ht1). assumption.
Qed.

Example reported_failure_is_isolated :
  let w := exit_one [rsync_dry_run "/home/a" "/mnt/temp/a"] two_tree in
  let run := main w (start ["y"; "y"] "") in
  fst run = Ok tt /\
  commands (trace (snd run)) =
    [["sudo"; "mount"; "/dev/nvme0n1p1"; "/mnt/temp"];
     rsync_dry_run "/home/a" "/mnt/temp/a";
     rsync_dry_run "/home/d" "/mnt/temp/d"; rsync_delete "/home/d" "/mnt/temp/d";
     diff_r "/home/d" "/mnt/temp/d"; ["sudo"; "rm"; "-rf"; "/home/d"];
     ["sudo"; "tee"; "-a"; "/etc/fstab"]].
Proof. repeat split. Qed.

(** C8.  Two approved directories; the dry run for the first one cannot be
    started.  [transfer_directory] only handles [CalledProcessError], so the
    [OSError] leaves the loop and [main]: the second directory is never
    processed, nothing is logged as failed and the mount table is not
    updated. *)
Theorem main_stops_when_transfer_cannot_start :
  let w := unable_to_start [rsync_dry_run "/home/a" "/mnt/temp/a"] two_tree in
  let run := main w (start ["y"; "y"] "") in
  fst run = Raise OSError /\
  commands (trace (snd run)) =
    [["sudo"; "mount"; "/dev/nvme0n1p1"; "/mnt/temp"];
     rsync_dry_run "/home/a" "/mnt/temp/a"] /\
  logged (trace (snd run)) =
    ["Scanning for large directories..."; newline +:+ "Select directories to move:";
     newline +:+ "Processing: /home/a"].
Proof. repeat split. Qed.

(** ** Persistence *)

Lemma list_ascii_of_string_app (a b : string) :
  list_ascii_of_string (a +:+ b) = list_ascii_of_string a ++ list_ascii_of_string b.
Proof. induction a as [|c a IH]; simpl; [reflexivity | now rewrite IH]. Qed.

(** C10.  The text that [update_fstab] looks for in the table as
    [read_text] returns it, and the text that it hands to
    [tee -a /etc/fstab] when it is absent, is the device, a space, the mount
    point and the constant [ ext4 defaults 0 2] closed by a newline; no
    other command is run. *)
Theorem update_fstab_entry_text (w : world) (drive mount_point content : string)
    (tr : list event) (lines : list string) :
  let line := drive +:+ " " +:+ mount_point +:+ " ext4 defaults 0 2" +:+ String "010"%char "" in
  let st := {| trace := tr; stdin := lines; fstab := Some content |} in
  let tee := ["sudo"; "tee"; "-a"; "/etc/fstab"] in
  fstab_entry drive mount_point = line /\
  exists logs,
    new_events st (snd (update_fstab w drive mount_point st)) =
      ReadText "/etc/fstab" ::
      (if str_in line (universal_newlines content) then []
       else [Run tee (Some line) (spawn w (tr ++ [ReadText "/etc/fstab"]) tee (Some line))])
      ++ logs /\
    Forall is_log logs.
Proof.
  intros line st tee. split; [reflexivity|].
  unfold update_fstab, try_except, bind, read_text. simpl.
  change (fstab_entry drive mount_point) with line.
  destruct (str_in line (universal_newlines content)); simpl.
  - exists []. split; [apply new_events_app; reflexivity | constructor].
  - rewrite subprocess_run_spec. simpl.
    change fstab_path with "/etc/fstab". fold tee.
    destruct (spawn w (tr ++ [ReadText "/etc/fstab"]) tee (Some line)) as [rc|]; simpl.
    + destruct (rc =? 0); simpl.
      * exists []. split; [apply new_events_app; simpl; now rewrite <- app_assoc | constructor].
      * eexists [_]. split; [apply new_events_app; simpl; now rewrite <- !app_assoc |].
        repeat constructor.
    + eexists [_]. split; [apply new_events_app; simpl; now rewrite <- !app_assoc |].
      repeat constructor.
Qed.

Section Occurrences.

Implicit Types p s c : list ascii.

Lemma starts_with_prefix p s : starts_with p s = true <-> p `prefix_of` s.
Proof.
  revert s. induction p as [|a p IH]; intros [|b s]; simpl.
  - split; [intros _; apply prefix_nil | reflexivity].
  - split; [intros _; apply prefix_nil | reflexivity].
  - split; [discriminate | intros H; destruct (prefix_nil_not _ _ H)].
  - destruct (Ascii.eqb_spec a b) as [->|Hne].
    + rewrite IH. split; [apply prefix_cons | apply prefix_cons_inv_2].
    + split; [discriminate|]. intros H. apply prefix_cons_inv_1 in H. contradiction.
Qed.

Lemma starts_with_refl p : starts_with p p = true.
Proof. now apply starts_with_prefix. Qed.

Lemma starts_with_short p s : (length s < length p)%nat -> starts_with p s = false.
Proof.
  intros Hlen. destruct (starts_with p s) eqn:H; [|reflexivity].
  apply starts_with_prefix, prefix_length in H. lia.
Qed.

(** A needle that starts a text made of [c] and more, and does not start
    [c], is longer than [c]. *)
Lemma starts_with_straddles p c s :
  starts_with p (c ++ s) = true -> starts_with p c = false -> (length c < length p)%nat.
Proof.
  intros Hcs Hc. apply starts_with_prefix in Hcs.
  destruct (le_lt_dec (length p) (length c)) as [Hle|]; [exfalso | assumption].
  assert (Hpc : c `prefix_of` c ++ s) by apply prefix_app_r, reflexivity.
  destruct (prefix_weak_total _ _ _ Hcs Hpc) as [H|H].
  - apply starts_with_prefix in H. congruence.
  - assert (c = p) by (apply prefix_length_eq; [exact H | exact Hle]).
    subst. rewrite starts_with_refl in Hc. discriminate.
Qed.

Lemma contains_here p s : starts_with p s = true -> contains p s = true.
Proof. intros H. destruct s; simpl contains; rewrite H; reflexivity. Qed.

Lemma contains_app_l p s c : contains p s = true -> contains p (s ++ c) = true.
Proof.
  induction s as [|b s IH]; cbn [contains app].
  - rewrite orb_false_r. intros H. apply contains_here.
    apply starts_with_prefix. apply starts_with_prefix in H.
    destruct p; [apply prefix_nil | destruct (prefix_nil_not _ _ H)].
  - intros H. apply orb_true_iff in H as [H|H].
    + apply starts_with_prefix in H.
      assert (Hp : starts_with p (b :: s ++ c) = true).
      { apply starts_with_prefix. change (b :: s ++ c) with ((b :: s) ++ c).
        now apply prefix_app_r. }
      now rewrite Hp.
    + rewrite (IH H). apply orb_true_r.
Qed.

Lemma contains_app_r p c : contains p (c ++ p) = true.
Proof.
  induction c as [|a c IH].
  - apply contains_here, starts_with_refl.
  - simpl app. simpl contains. rewrite IH. apply orb_true_r.
Qed.

Lemma count_from_short p s (skip : nat) :
  (length s < skip + length p)%nat -> count_from p s skip = 0%nat.
Proof.
  revert skip. induction s as [|b s IH]; intros skip Hlen; cbn [count_from]; [reflexivity|].
  destruct skip as [|k].
  - rewrite starts_with_short by (simpl in *; lia). apply IH. simpl in *. lia.
  - apply IH. simpl in *. lia.
Qed.

Lemma count_from_contains p s : p <> [] -> contains p s = true -> (0 < count_from p s 0)%nat.
Proof.
  intros Hp. induction s as [|b s IH]; cbn [contains count_from].
  - destruct p; [contradiction | discriminate].
  - destruct (starts_with p (b :: s)); simpl; [lia | exact IH].
Qed.

Lemma count_from_appended p c :
  p <> [] -> contains p c = false -> count_from p (c ++ p) 0 = 1%nat.
Proof.
  intros Hp. induction c as [|a c IH]; intros Hc.
  - simpl app. destruct p as [|b p]; [contradiction|].
    cbn [count_from]. rewrite starts_with_refl.
    rewrite count_from_short by (simpl; lia). reflexivity.
  - cbn [contains] in Hc. apply orb_false_iff in Hc as [Hhere Hc].
    change ((a :: c) ++ p) with (a :: (c ++ p)). cbn [count_from].
    change (a :: (c ++ p)) with ((a :: c) ++ p).
    destruct (starts_with p ((a :: c) ++ p)) eqn:Hst.
    + pose proof (starts_with_straddles _ _ _ Hst Hhere) as Hlen.
      rewrite count_from_short; [reflexivity|].
      rewrite length_app. simpl in Hlen. lia.
    + apply IH, Hc.
Qed.

End Occurrences.

Lemma universal_newlines_no_cr (e : string) :
  no_cr e = true -> universal_newlines e = e.
Proof.
  induction e as [|c e IH]; [reflexivity|]. cbn [no_cr universal_newlines].
  intros H. apply andb_true_iff in H as [Hc He]. apply negb_true_iff in Hc.
  rewrite Hc. now rewrite IH.
Qed.

Lemma append_cons (a : ascii) (c e : string) : String a c +:+ e = String a (c +:+ e).
Proof. reflexivity. Qed.

Lemma append_nil_l (e : string) : "" +:+ e = e.
Proof. reflexivity. Qed.

Lemma universal_newlines_other (a : ascii) (s : string) :
  Ascii.eqb a "013" = false ->
  universal_newlines (String a s) = String a (universal_newlines s).
Proof. intros H. cbn [universal_newlines]. now rewrite H. Qed.

Lemma universal_newlines_cr_lf (s : string) :
  universal_newlines (String "013" (String "010" s)) = String "010" (universal_newlines s).
Proof. reflexivity. Qed.

Lemma universal_newlines_cr_other (b : ascii) (s : string) :
  Ascii.eqb b "010" = false ->
  universal_newlines (String "013" (String b s))
    = String "010" (universal_newlines (String b s)).
Proof. intros H. cbn [universal_newlines Ascii.eqb Bool.eqb]. now rewrite H. Qed.

Lemma universal_newlines_cr_end :
  universal_newlines (String "013" "") = String "010" "".
Proof. reflexivity. Qed.

(** Reading back a table to which a text without carriage return was
    appended: the text is there, at the end, and what comes before it is
    what was read before, but for a last carriage return that the appended
    text has turned into the first half of a CR LF. *)
Lemma universal_newlines_appended (e : string) :
  no_cr e = true ->
  forall c : string, exists t : string,
    universal_newlines (c +:+ e) = t +:+ e /\
    (universal_newlines c = t \/ universal_newlines c = t +:+ newline).
Proof.
  intros He.
  assert (Hnil : exists t, universal_newlines ("" +:+ e) = t +:+ e /\
                   (universal_newlines "" = t \/ universal_newlines "" = t +:+ newline)).
  { exists "". rewrite !append_nil_l.
    split; [apply universal_newlines_no_cr, He | now left]. }
  assert (Hcons : forall (a : ascii) (c t : string),
            universal_newlines (c +:+ e) = t +:+ e /\
            (universal_newlines c = t \/ universal_newlines c = t +:+ newline) ->
            String a (universal_newlines (c +:+ e)) = String a t +:+ e /\
            (String a (universal_newlines c) = String a t \/
             String a (universal_newlines c) = String a t +:+ newline)).
  { intros a c t [Ht Hc]. rewrite !append_cons, Ht.
    split; [reflexivity|]. destruct Hc as [->| ->]; [now left | now right]. }
  assert (H : forall (n : nat) (c : string), (String.length c <= n)%nat ->
            exists t, universal_newlines (c +:+ e) = t +:+ e /\
                      (universal_newlines c = t \/ universal_newlines c = t +:+ newline)).
  { induction n as [|n IH]; intros c Hlen.
    - destruct c; [exact Hnil | simpl in Hlen; lia].
    - destruct c as [|a c]; [exact Hnil|].
      simpl in Hlen. rewrite append_cons.
      destruct (Ascii.eqb a "013") eqn:Ha.
      + apply Ascii.eqb_eq in Ha. subst a.
        destruct c as [|b c].
        * rewrite append_nil_l, universal_newlines_cr_end.
          destruct e as [|x e'] eqn:Ee.
          -- exists (String "010" ""). split; [reflexivity | now left].
          -- destruct (Ascii.eqb x "010") eqn:Hx.
             ++ apply Ascii.eqb_eq in Hx. subst x.
                rewrite universal_newlines_cr_lf.
                cbn [no_cr] in He. apply andb_true_iff in He as [_ He'].
                rewrite (universal_newlines_no_cr _ He').
                exists "". rewrite append_nil_l. split; [reflexivity | now right].
             ++ rewrite (universal_newlines_cr_other _ _ Hx).
                rewrite (universal_newlines_no_cr _ He).
                exists (String "010" ""). rewrite append_cons, append_nil_l.
                split; [reflexivity | now left].
        * rewrite append_cons.
          destruct (Ascii.eqb b "010") eqn:Hb.
          -- apply Ascii.eqb_eq in Hb. subst b.
             rewrite !universal_newlines_cr_lf.
             destruct (IH c) as (t & Ht); [simpl in Hlen; lia|].
             exists (String "010" t). now apply Hcons.
          -- rewrite !(universal_newlines_cr_other _ _ Hb).
             destruct (IH (String b c)) as (t & Ht); [lia|].
             rewrite append_cons in Ht.
             exists (String "010" t).
             rewrite <- (append_cons b c e). apply Hcons.
             now rewrite append_cons.
      + rewrite !(universal_newlines_other _ _ Ha).
        destruct (IH c) as (t & Ht); [lia|].
        exists (String a t). now apply Hcons. }
  intros c. apply (H (String.length c)). reflexivity.
Qed.

Lemma substring_all (s : string) : substring 0 (String.length s) s = s.
Proof. induction s as [|c s IH]; simpl; [reflexivity | now rewrite IH]. Qed.

Lemma str_in_prefix (p t x : string) : str_in p t = true -> str_in p (t +:+ x) = true.
Proof. unfold str_in. rewrite list_ascii_of_string_app. apply contains_app_l. Qed.

Lemma str_in_appended (entry content : string) : str_in entry (content +:+ entry) = true.
Proof. unfold str_in. rewrite list_ascii_of_string_app. apply contains_app_r. Qed.

(** After the entry has been appended, the table as read contains it; and
    exactly once if it did not contain it before. *)
Lemma appended_entry_is_read (entry content : string) :
  no_cr entry = true ->
  str_in entry (universal_newlines (content +:+ entry)) = true /\
  (list_ascii_of_string entry <> [] ->
   str_in entry (universal_newlines content) = false ->
   count_from (list_ascii_of_string entry)
     (list_ascii_of_string (universal_newlines (content +:+ entry))) 0 = 1%nat).
Proof.
  intros He. destruct (universal_newlines_appended entry He content) as (t & -> & Ht).
  split; [apply str_in_appended|].
  intros Hne Habsent. rewrite list_ascii_of_string_app.
  apply count_from_appended; [exact Hne|].
  destruct (contains (list_ascii_of_string entry) (list_ascii_of_string t)) eqn:Hin;
    [|reflexivity].
  assert (Hread : str_in entry (universal_newlines content) = true).
  { destruct Ht as [-> | ->]; [exact Hin | now apply str_in_prefix]. }
  congruence.
Qed.

Lemma update_fstab_present (w : world) (drive mount_point : string) (st : state) (content : string) :
  fstab st = Some content ->
  str_in (fstab_entry drive mount_point) (universal_newlines content) = true ->
  update_fstab w drive mount_point st =
    (Ok true, {| trace := trace st ++ [ReadText fstab_path];
                 stdin := stdin st; fstab := Some content |}).
Proof.
  destruct st as [t i f]. simpl. intros -> Hin.
  unfold update_fstab, try_except, bind, read_text. simpl.
  rewrite Hin. reflexivity.
Qed.

Lemma update_fstab_absent (w : world) (drive mount_point : string) (st : state) (content : string) :
  fstab st = Some content ->
  str_in (fstab_entry drive mount_point) (universal_newlines content) = false ->
  fst (update_fstab w drive mount_point st) = Ok true ->
  fstab (snd (update_fstab w drive mount_point st))
    = Some (content +:+ fstab_entry drive mount_point).
Proof.
  destruct st as [t i f]. simpl. intros -> Hin.
  unfold update_fstab, try_except, bind, read_text. simpl.
  rewrite Hin. simpl.
  rewrite subprocess_run_spec. simpl.
  match goal with |- context [spawn w ?t ?a ?i] => destruct (spawn w t a i) as [rc|] end; simpl.
  - destruct (rc =? 0) eqn:Hrc; simpl.
    + reflexivity.
    + discriminate.
  - discriminate.
Qed.

Lemma fstab_entry_not_empty (drive mount_point : string) :
  list_ascii_of_string (fstab_entry drive mount_point) <> [].
Proof.
  unfold fstab_entry, newline. rewrite !list_ascii_of_string_app.
  intros H. repeat (apply app_eq_nil in H as [_ H]). discriminate.
Qed.

Lemma count_in_entry (drive mount_point content : string) :
  count_in (fstab_entry drive mount_point) content =
    count_from (list_ascii_of_string (fstab_entry drive mount_point))
               (list_ascii_of_string content) 0.
Proof.
  unfold count_in, str_count.
  pose proof (fstab_entry_not_empty drive mount_point) as Hne.
  destruct (list_ascii_of_string (fstab_entry drive mount_point)); [contradiction | reflexivity].
Qed.

(** C6.  The table is compared as [read_text] returns it: in text mode,
    with CR LF and CR read as LF.  When the table as read contains the entry
    nothing is appended: the run only reads the table.  For an entry without
    carriage return: after a run that succeeded, a second run succeeds, only
    reads the table and leaves it as it is; and if the table as read held at
    most one occurrence of the entry to begin with, it holds exactly one
    after the two runs. *)
Theorem update_fstab_idempotent (w : world) (drive mount_point content : string)
    (tr : list event) (lines : list string) :
  let entry := fstab_entry drive mount_point in
  let st := {| trace := tr; stdin := lines; fstab := Some content |} in
  let once := update_fstab w drive mount_point st in
  let twice := update_fstab w drive mount_point (snd once) in
  (str_in entry (universal_newlines content) = true ->
     fst once = Ok true /\ fstab (snd once) = Some content /\
     new_events st (snd once) = [ReadText "/etc/fstab"]) /\
  (no_cr entry = true ->
   fst once = Ok true ->
     fst twice = Ok true /\ fstab (snd twice) = fstab (snd once) /\
     new_events (snd once) (snd twice) = [ReadText "/etc/fstab"] /\
     ((count_in entry (universal_newlines content) <= 1)%nat ->
      option_map (fun c => count_in entry (universal_newlines c)) (fstab (snd twice))
        = Some 1%nat)).
Proof.
  intros entry st once twice.
  assert (Hpresent : str_in entry (universal_newlines content) = true ->
            once = (Ok true, {| trace := tr ++ [ReadText fstab_path];
                                stdin := lines; fstab := Some content |})).
  { intros Hin. apply (update_fstab_present w drive mount_point st content); auto. }
  split.
  - intros Hin. rewrite (Hpresent Hin). simpl.
    split; [reflexivity | split; [reflexivity | apply new_events_app; reflexivity]].
  - intros Hcr Hok.
    assert (Hafter : exists content', fstab (snd once) = Some content' /\
              str_in entry (universal_newlines content') = true /\
              ((count_in entry (universal_newlines content) <= 1)%nat ->
               count_in entry (universal_newlines content') = 1%nat)).
    { destruct (str_in entry (universal_newlines content)) eqn:Hin.
      - exists content. rewrite (Hpresent eq_refl). simpl.
        split; [reflexivity | split; [assumption|]].
        intros Hle. unfold entry in *. rewrite count_in_entry in *.
        apply count_from_contains in Hin; [lia | apply fstab_entry_not_empty].
      - exists (content +:+ entry).
        destruct (appended_entry_is_read entry content Hcr) as [Hread Hcount].
        split; [apply (update_fstab_absent w drive mount_point st content); auto|].
        split; [exact Hread|].
        intros _. unfold entry. rewrite count_in_entry.
        apply Hcount; [apply fstab_entry_not_empty | exact Hin]. }
    destruct Hafter as (content' & Hc' & Hin' & Hcount).
    subst twice.
    rewrite (update_fstab_present w drive mount_point (snd once) content' Hc' Hin').
    simpl. rewrite Hc'.
    split; [reflexivity | split; [reflexivity|]].
    split; [apply new_events_app; reflexivity|].
    intros Hle. simpl. now rewrite Hcount.
Qed.

(** Four ways to end with another number of occurrences than one.  A table
    that already holds the entry twice keeps both copies.  When [tee] fails
    (having written nothing) the table holds no copy after two runs.  A
    mount point with a carriage return is read back with a line feed in its
    place, so the entry is never found and each run appends it again.  And a
    table with CR LF line endings that holds the line of the entry is left
    alone, though it does not contain the text of the entry byte for
    byte. *)
Lemma update_fstab_twice_not_one_occurrence :
  (let entry := fstab_entry "/dev/nvme0n1p1" "/mnt/temp" in
   let st := start [] (entry +:+ entry) in
   let once := update_fstab (calm []) "/dev/nvme0n1p1" "/mnt/temp" st in
   let twice := update_fstab (calm []) "/dev/nvme0n1p1" "/mnt/temp" (snd once) in
   fst once = Ok true /\ fst twice = Ok true /\
   option_map (fun c => count_in entry (universal_newlines c)) (fstab (snd twice))
     = Some 2%nat) /\
  (let entry := fstab_entry "/dev/nvme0n1p1" "/mnt/temp" in
   let w := exit_one [["sudo"; "tee"; "-a"; "/etc/fstab"]] [] in
   let once := update_fstab w "/dev/nvme0n1p1" "/mnt/temp" (start [] "") in
   let twice := update_fstab w "/dev/nvme0n1p1" "/mnt/temp" (snd once) in
   fst once = Ok false /\ fst twice = Ok false /\
   option_map (fun c => count_in entry (universal_newlines c)) (fstab (snd twice))
     = Some 0%nat) /\
  (let mount_point := "/mnt/temp" +:+ String "013" "" in
   let entry := fstab_entry "/dev/nvme0n1p1" mount_point in
   let once := update_fstab (calm []) "/dev/nvme0n1p1" mount_point (start [] "") in
   let twice := update_fstab (calm []) "/dev/nvme0n1p1" mount_point (snd once) in
   fst once = Ok true /\ fst twice = Ok true /\
   fstab (snd twice) = Some (entry +:+ entry)) /\
  (let entry := fstab_entry "/dev/nvme0n1p1" "/mnt/temp" in
   let table := "/dev/nvme0n1p1 /mnt/temp ext4 defaults 0 2" +:+ String "013" newline in
   let once := update_fstab (calm []) "/dev/nvme0n1p1" "/mnt/temp" (start [] table) in
   fst once = Ok true /\ fstab (snd once) = Some table /\
   count_in entry table = 0%nat).
Proof. vm_compute. repeat split. Qed.

(** ** A complete run *)

(** Only A exceeds 1000 MB; the operator approves it; 2000 MB are free; all
    commands succeed: A is transferred, verified and relinked, and the entry
    for the device is appended once. *)
Example end_to_end_scenario :
  let w := free_space (Z.of_N (MiB 2000)) scenario_tree in
  let run := main w (start ["y"] "") in
  fst (find_large_directories w min_dir_size_mb (start ["y"] ""))
    = Ok [(["home"; "A"], (inject_Z 1536000 / 1024)%Q)] /\
  fst run = Ok tt /\
  commands (trace (snd run)) =
    [["sudo"; "mount"; "/dev/nvme0n1p1"; "/mnt/temp"];
     rsync_dry_run "/home/A" "/mnt/temp/A"; rsync_delete "/home/A" "/mnt/temp/A";
     diff_r "/home/A" "/mnt/temp/A"; ["sudo"; "rm"; "-rf"; "/home/A"];
     ["sudo"; "tee"; "-a"; "/etc/fstab"]] /\
  SymlinkTo "/home/A" "/mnt/temp/A" ∈ trace (snd run) /\
  option_map (count_in (fstab_entry drive "/mnt/temp")) (fstab (snd run)) = Some 1%nat.
Proof.
  intros w run. split; [reflexivity|]. split; [reflexivity|]. split; [reflexivity|].
  split; [|reflexivity].
  vm_compute. repeat (first [apply list_elem_of_here | apply list_elem_of_further]).
Qed.

(** * Further properties *)

Lemma ret_unfold {A} (a : A) (st : state) : ret a st = (Ok a, st).
Proof. reflexivity. Qed.

(** ** What leaves the mount table and standard input alone *)

Lemma after_run_no_input (w : world) (h : list event) (argv : list string) (r : proc)
    (content : option string) :
  after_run w h argv None r content = content.
Proof. reflexivity. Qed.

Section Keeps.

Context {X : Type} (f : state -> X).
Hypothesis f_emit : forall e st, f (snd (emit e st)) = f st.

Lemma keeps_ret {A} (a : A) : keeps f (ret a).
Proof. intros st. reflexivity. Qed.

Lemma keeps_raise {A} (e : exn) : keeps f (@raise A e).
Proof. intros st. reflexivity. Qed.

Lemma keeps_history : keeps f history.
Proof. intros st. reflexivity. Qed.

Lemma keeps_emit (e : event) : keeps f (emit e).
Proof. intros st. apply f_emit. Qed.

Lemma keeps_bind {A B} (m : M A) (g : A -> M B) :
  keeps f m -> (forall a, keeps f (g a)) -> keeps f (bind m g).
Proof.
  intros Hm Hg st. rewrite bind_unfold. specialize (Hm st).
  destruct (m st) as [[a|e] st1]; simpl in *; [|assumption].
  now rewrite Hg.
Qed.

Lemma keeps_try_except {A} (body : M A) (h : exn -> option (M A)) :
  keeps f body -> (forall e m, h e = Some m -> keeps f m) -> keeps f (try_except body h).
Proof.
  intros Hm Hh st. unfold try_except. specialize (Hm st).
  destruct (body st) as [[a|e] st1]; simpl in *; [assumption|].
  destruct (h e) as [m|] eqn:He; [|assumption].
  now rewrite (Hh e m He).
Qed.

Lemma keeps_for_each {A B} (l : list A) (body : A -> B -> M B) (acc : B) :
  (forall x b, keeps f (body x b)) -> keeps f (for_each l body acc).
Proof.
  intros Hb. revert acc. induction l as [|x l IH]; intros acc; simpl.
  - apply keeps_ret.
  - apply keeps_bind; auto.
Qed.

(** A command without standard input is not the [tee] that appends. *)
Lemma keeps_subprocess_run (w : world) (check : bool) (argv : list string) :
  keeps f (subprocess_run w check argv None).
Proof.
  intros st. rewrite subprocess_run_spec. cbn [snd]. rewrite after_run_no_input.
  apply (f_emit (Run argv None (spawn w (trace st) argv None)) st).
Qed.

End Keeps.

Ltac keeps_step :=
  match goal with
  | |- keeps _ (ret _) => apply keeps_ret
  | |- keeps _ (raise _) => apply keeps_raise
  | |- keeps _ history => apply keeps_history
  | |- keeps _ (emit _) => apply keeps_emit; reflexivity
  | |- keeps _ (bind _ _) => apply keeps_bind; [|intros ?]
  | |- keeps _ (for_each _ _ _) => apply keeps_for_each; intros ? ?
  | |- keeps _ (subprocess_run _ _ _ None) => apply keeps_subprocess_run; reflexivity
  | |- keeps _ (try_except _ _) =>
      apply keeps_try_except;
      [|let e := fresh "e" in let m := fresh "m" in let H := fresh "H" in
        intros e m H; destruct e; try discriminate H; injection H as <-]
  | |- keeps _ (if ?b then _ else _) => destruct b
  | |- keeps _ (match ?x with _ => _ end) => destruct x
  end.

Lemma keeps_fstab_ask_yes_no : keeps fstab ask_yes_no.
Proof.
  intros st. unfold ask_yes_no.
  destruct (ask (stdin st) (trace st)) as [r [tr rest]]. reflexivity.
Qed.

Section KeepsScript.

Context (w : world) {X : Type} (f : state -> X).
Hypothesis f_emit : forall e st, f (snd (emit e st)) = f st.

Lemma keeps_calculate_dir_size (d : path) : keeps f (calculate_dir_size w d).
Proof.
  unfold calculate_dir_size, logger.
  destruct (sum_beneath w d); [apply keeps_ret|].
  apply keeps_bind; [apply keeps_emit, f_emit | intros; apply keeps_ret].
Qed.

Lemma keeps_find_large_directories (t : Z) : keeps f (find_large_directories w t).
Proof.
  unfold find_large_directories, measure.
  apply keeps_bind; [|intros; apply keeps_ret].
  apply keeps_for_each. intros p acc.
  apply keeps_bind; [apply keeps_calculate_dir_size|].
  intros [kb|]; [|apply keeps_raise].
  destruct (Qlt_bool _ _); apply keeps_ret.
Qed.

Lemma keeps_check_disk_usage (p : string) : keeps f (check_disk_usage w p).
Proof.
  unfold check_disk_usage, logger.
  apply keeps_try_except.
  - apply keeps_bind; [apply keeps_history|]. intros h.
    apply keeps_bind; [apply keeps_emit, f_emit|]. intros _.
    destruct (disk_usage w h p) as [[[t u] fr]|]; [apply keeps_ret | apply keeps_raise].
  - intros e m H. destruct e; try discriminate H. injection H as <-.
    apply keeps_bind; [apply keeps_emit, f_emit | intros; apply keeps_ret].
Qed.

Lemma keeps_total_required (selected : list path) : keeps f (total_required w selected).
Proof.
  unfold total_required. apply keeps_for_each. intros d acc.
  apply keeps_bind; [apply keeps_calculate_dir_size|].
  intros [kb|]; [apply keeps_ret | apply keeps_raise].
Qed.

End KeepsScript.

Lemma keeps_fstab_prompt_directory_move (dir_info : list (path * Q)) (limit : Z) :
  keeps fstab (prompt_directory_move dir_info limit).
Proof.
  unfold prompt_directory_move. apply keeps_bind; [|intros; apply keeps_ret].
  apply keeps_for_each. intros [p s] [i dirs]. unfold offer, print.
  repeat first [apply keeps_fstab_ask_yes_no | keeps_step].
Qed.

Lemma keeps_fstab_mount_drive (w : world) (d m : string) : keeps fstab (mount_drive w d m).
Proof. unfold mount_drive, verify_mount_point, logger. repeat keeps_step. Qed.

Lemma keeps_fstab_process (w : world) (source_dir : path) : keeps fstab (process w source_dir).
Proof.
  unfold process, transfer_directory, verify_transfer, create_symlink, logger.
  repeat keeps_step.
Qed.

(** ** What each step does, case by case *)

Lemma mount_drive_spec (w : world) (drive mount_point : string) (st : state) :
  let made := mkdir w (trace st) mount_point in
  let mount := ["sudo"; "mount"; drive; mount_point] in
  let r := spawn w (trace st ++ [Mkdir mount_point]) mount None in
  let run := mount_drive w drive mount_point st in
  fst run =
    (if made
     then match r with
          | Exited rc => Ok (rc =? 0)
          | NotStarted => Raise OSError
          end
     else Ok false) /\
  new_events st (snd run) =
    Mkdir mount_point ::
    (if made
     then Run mount None r ::
          match r with
          | Exited rc => if rc =? 0 then [] else [Log ERROR "Mount error"]
          | NotStarted => []
          end
     else [Log ERROR "Failed to create mount point"]).
Proof.
  intros made mount r run. subst run made.
  unfold mount_drive, verify_mount_point, try_except, bind, history, logger, emit, ret, raise.
  simpl. destruct (mkdir w (trace st) mount_point); simpl.
  - rewrite subprocess_run_spec. simpl. fold mount. fold r.
    destruct r as [rc|]; simpl.
    + destruct (rc =? 0) eqn:Hrc; simpl;
        (split; [reflexivity | apply new_events_app; now rewrite <- ?app_assoc]).
    + split; [reflexivity | apply new_events_app; now rewrite <- app_assoc].
  - split; [reflexivity | apply new_events_app; now rewrite <- app_assoc].
Qed.

Lemma create_symlink_spec (w : world) (source link_name : string) (st : state) :
  let run := create_symlink w source link_name st in
  let rm := ["sudo"; "rm"; "-rf"; link_name] in
  let failed := [Log ERROR "Symlink error"] in
  let link := fun before : list event =>
    (symlink_to w (trace st ++ before) link_name source,
     before ++ SymlinkTo link_name source ::
       (if symlink_to w (trace st ++ before) link_name source then [] else failed)) in
  let looked := [IsSymlink link_name] in
  (fst run, new_events st (snd run)) =
    (fun '(b, evs) => (Ok b, evs))
      (if is_symlink w (trace st) link_name
       then if unlink w (trace st ++ looked) link_name
            then link (looked ++ [Unlink link_name])
            else (false, looked ++ Unlink link_name :: failed)
       else if path_exists w (trace st ++ looked) link_name
            then let r := spawn w (trace st ++ looked ++ [PathExists link_name]) rm None in
                 match r with
                 | Exited 0 => link (looked ++ [PathExists link_name; Run rm None r])
                 | _ => (false, looked ++ PathExists link_name :: Run rm None r :: failed)
                 end
            else link (looked ++ [PathExists link_name])).
Proof.
  intros run rm failed link looked. subst run link.
  unfold create_symlink, try_except, bind, history, logger, emit, ret, raise. simpl.
  destruct (is_symlink w (trace st) link_name); simpl.
  - destruct (unlink w _ link_name); simpl.
    + rewrite <- !app_assoc. simpl.
      destruct (symlink_to w _ link_name source); simpl;
        (f_equal; apply new_events_app; simpl; now rewrite <- ?app_assoc).
    + f_equal. apply new_events_app. simpl. now rewrite <- ?app_assoc.
  - destruct (path_exists w _ link_name); simpl.
    + rewrite subprocess_run_spec. simpl. fold rm. rewrite <- !app_assoc. simpl.
      destruct (spawn w _ rm None) as [[|p|p]|]; simpl;
        try (f_equal; apply new_events_app; simpl; now rewrite <- ?app_assoc).
      rewrite <- !app_assoc. simpl.
      destruct (symlink_to w _ link_name source); simpl;
        (f_equal; apply new_events_app; simpl; now rewrite <- ?app_assoc).
    + rewrite <- !app_assoc. simpl.
      destruct (symlink_to w _ link_name source); simpl;
        (f_equal; apply new_events_app; simpl; now rewrite <- ?app_assoc).
Qed.

(** [process], after the line that announces the directory: the dry run,
    the transfer and the comparison, each of which must exit with code 0
    for the next to happen; then the relink and the verdict. *)
Lemma process_unfold (w : world) (source_dir : path) (st : state) :
  let source := show_path source_dir in
  let destination := show_path (mount_point ++ [path_name source_dir]) in
  let add := fun (e : event) (s : state) => snd (emit e s) in
  let st0 := add (Log INFO (newline +:+ "Processing: " +:+ source)) st in
  let dry := spawn w (trace st0) (rsync_dry_run source destination) None in
  let st1 := add (Run (rsync_dry_run source destination) None dry) st0 in
  let real := spawn w (trace st1) (rsync_delete source destination) None in
  let st2 := add (Run (rsync_delete source destination) None real) st1 in
  let diff := spawn w (trace st2) (diff_r source destination) None in
  let st3 := add (Run (diff_r source destination) None diff) st2 in
  let failed := logger ERROR ("Failed to process: " +:+ source) in
  process w source_dir st =
    match dry with
    | NotStarted => (Raise OSError, st1)
    | Exited rc1 =>
        if rc1 =? 0 then
          match real with
          | NotStarted => (Raise OSError, st2)
          | Exited rc2 =>
              if rc2 =? 0 then
                match diff with
                | NotStarted => (Raise OSError, st3)
                | Exited rc3 =>
                    if rc3 =? 0 then
                      bind (create_symlink w destination source)
                        (fun moved => if moved
                                      then logger INFO ("Successfully moved: " +:+ source)
                                      else failed) st3
                    else failed st3
                end
              else failed (add (Log ERROR "Transfer error") st2)
          end
        else failed (add (Log ERROR "Transfer error") st1)
    end.
Proof.
  cbv zeta.
  unfold process, transfer_directory, verify_transfer, try_except, bind, logger, emit, ret.
  rewrite subprocess_run_spec, after_run_no_input. simpl.
  match goal with |- context [spawn w ?t (rsync_dry_run ?a ?b) None] =>
    destruct (spawn w t (rsync_dry_run a b) None) as [rc1|] end; simpl; [|reflexivity].
  destruct (rc1 =? 0); simpl; [|reflexivity].
  rewrite subprocess_run_spec, after_run_no_input. simpl.
  match goal with |- context [spawn w ?t (rsync_delete ?a ?b) None] =>
    destruct (spawn w t (rsync_delete a b) None) as [rc2|] end; simpl; [|reflexivity].
  destruct (rc2 =? 0); simpl; [|reflexivity].
  rewrite subprocess_run_spec, after_run_no_input. simpl.
  match goal with |- context [spawn w ?t (diff_r ?a ?b) None] =>
    destruct (spawn w t (diff_r a b) None) as [rc3|] end; simpl; [|reflexivity].
  destruct (rc3 =? 0); reflexivity.
Qed.

(** ** Mounter *)

(** X1.  [mount_drive] creates the mount point first and runs [mount] only
    if that succeeded.  It returns [True] exactly when [mount] exits with
    code 0; it returns [False], with one error line, when the directory
    cannot be created or [mount] exits with another code; only the
    [OSError] of a [mount] that cannot be started leaves it.  Standard input
    and the mount table are left alone. *)
Theorem mount_drive_outcome (w : world) (drive mount_point : string) (st : state) :
  let made := mkdir w (trace st) mount_point in
  let mount := ["sudo"; "mount"; drive; mount_point] in
  let r := spawn w (trace st ++ [Mkdir mount_point]) mount None in
  let run := mount_drive w drive mount_point st in
  fst run =
    (if made
     then match r with
          | Exited rc => Ok (rc =? 0)
          | NotStarted => Raise OSError
          end
     else Ok false) /\
  new_events st (snd run) =
    Mkdir mount_point ::
    (if made
     then Run mount None r ::
          match r with
          | Exited rc => if rc =? 0 then [] else [Log ERROR "Mount error"]
          | NotStarted => []
          end
     else [Log ERROR "Failed to create mount point"]) /\
  stdin (snd run) = stdin st /\
  fstab (snd run) = fstab st.
Proof.
  intros made mount r run.
  destruct (mount_drive_spec w drive mount_point st) as [Hres Hevs].
  split; [exact Hres|]. split; [exact Hevs|].
  split; [|apply keeps_fstab_mount_drive].
  subst run made.
  unfold mount_drive, verify_mount_point, try_except, bind, history, logger, emit, ret, raise.
  simpl. destruct (mkdir w (trace st) mount_point); simpl; [|reflexivity].
  rewrite subprocess_run_spec. simpl.
  destruct (spawn w _ _ None) as [rc|]; simpl; [|reflexivity].
  destruct (rc =? 0); reflexivity.
Qed.

(** ** Relink *)

Ltac among H :=
  repeat (apply elem_of_cons in H as [H|H]; try discriminate H);
  try (apply elem_of_nil in H; contradiction).

(** X2.  [create_symlink] never raises.  It unlinks only what is a symbolic
    link, runs [rm -rf] only on a path that exists and is not a link, and
    tries to create the link only after that removal succeeded (or nothing
    was there).  It returns [True] exactly when its last action was a
    successful link creation; otherwise it returns [False] and its last
    line is the error. *)
Theorem create_symlink_discipline (w : world) (source link_name : string) (st : state) :
  let run := create_symlink w source link_name st in
  let evs := new_events st (snd run) in
  let looked := trace st ++ [IsSymlink link_name] in
  let rm := ["sudo"; "rm"; "-rf"; link_name] in
  (exists b, fst run = Ok b) /\
  (forall p, Unlink p ∈ evs -> p = link_name /\ is_symlink w (trace st) link_name = true) /\
  (forall argv i r, Run argv i r ∈ evs ->
     argv = rm /\ i = None /\
     is_symlink w (trace st) link_name = false /\ path_exists w looked link_name = true) /\
  (forall l t, SymlinkTo l t ∈ evs ->
     l = link_name /\ t = source /\
     (Unlink link_name ∈ evs -> unlink w looked link_name = true) /\
     (forall r, Run rm None r ∈ evs -> r = Exited 0)) /\
  (fst run = Ok true <->
     exists before, evs = before ++ [SymlinkTo link_name source] /\
                    symlink_to w (trace st ++ before) link_name source = true) /\
  (fst run = Ok false -> last evs = Some (Log ERROR "Symlink error")).
Proof.
  intros run evs looked rm. subst run evs looked.
  pose proof (create_symlink_spec w source link_name st) as Hspec. cbv zeta in Hspec.
  fold rm in Hspec.
  destruct (is_symlink w (trace st) link_name) eqn:Hsym;
    [destruct (unlink w _ link_name) eqn:Hun
    |destruct (path_exists w _ link_name) eqn:Hex;
     [destruct (spawn w _ rm None) as [[|p|p]|] eqn:Hrm|]];
    try destruct (symlink_to w _ link_name source) eqn:Hln;
    injection Hspec as -> ->; cbn [app].
  all: split; [eexists; reflexivity|].
  all: split; [intros q Hq; among Hq; injection Hq as ->; auto|].
  all: split; [intros argv i r Hr; among Hr; injection Hr as -> -> _; auto|].
  all: split;
    [intros l t Hl; among Hl; injection Hl as -> ->;
     (split; [reflexivity|split; [reflexivity|split;
        [intros Hu; among Hu; reflexivity
        |intros r Hr; among Hr; injection Hr as <-; reflexivity]]])|].
  all: split; [|intros Hres; first [discriminate Hres | reflexivity]].
  all: split;
    [intros Hres; try discriminate Hres;
     match goal with |- exists before, ?l = _ /\ _ => exists (removelast l) end;
     (split; [reflexivity | exact Hln])
    |intros (before & Heq & _); try reflexivity;
     exfalso; apply (f_equal last) in Heq; rewrite last_snoc in Heq; discriminate Heq].
Qed.

(** ** One approved directory *)

(** A syntax-directed proof of [emits P m], [tac] proving [P] of each event. *)
Ltac emits_by tac :=
  repeat match goal with
         | |- emits _ (ret _) => apply emits_ret
         | |- emits _ (raise _) => apply emits_raise
         | |- emits _ history => apply emits_history
         | |- emits _ (emit _) => apply emits_emit; tac
         | |- emits _ (bind _ _) => apply emits_bind; [|intros ?]
         | |- emits _ (for_each _ _ _) => apply emits_for_each; intros ? ?
         | |- emits _ (subprocess_run _ _ _ _) => apply emits_subprocess_run; intros ?; tac
         | |- emits _ (read_text _) => apply emits_read_text; tac
         | |- emits _ ask_yes_no => apply emits_ask_yes_no; [intros ?; tac | tac]
         | |- emits _ (try_except _ _) =>
             apply emits_try_except;
             [|let e := fresh "e" in let m := fresh "m" in let H := fresh "H" in
               intros e m H; destruct e; try discriminate H; injection H as <-]
         | |- emits _ (if ?b then _ else _) => destruct b
         | |- emits _ (match ?x with _ => _ end) => destruct x
         end.

Lemma emits_new_events {A} P (m : M A) (st : state) :
  emits P m ->
  trace (snd (m st)) = trace st ++ new_events st (snd (m st)) /\
  Forall P (new_events st (snd (m st))).
Proof.
  intros Hm. destruct (Hm st) as (evs & Ht & Hp).
  rewrite (new_events_app _ _ _ Ht). auto.
Qed.

Lemma emits_anything_create_symlink (w : world) (source link_name : string) :
  emits (fun _ => True) (create_symlink w source link_name).
Proof. unfold create_symlink, logger. emits_by ltac:(exact I). Qed.

Ltac one_of := repeat first [apply list_elem_of_here | apply list_elem_of_further].

(** Proves [Forall P l] for a list [l] that is written out, [tac] proving
    [P] of each element. *)
Ltac each tac := repeat (apply List.Forall_cons; [tac|]); apply List.Forall_nil.

Lemma process_concerns (w : world) (source_dir : path) (st : state) :
  Forall (concerns (show_path source_dir) (show_path (mount_point ++ [path_name source_dir])))
    (new_events st (snd (process w source_dir st))).
Proof.
  set (source := show_path source_dir).
  set (destination := show_path (mount_point ++ [path_name source_dir])).
  rewrite process_unfold. cbv zeta. fold source. fold destination.
  destruct (spawn w _ (rsync_dry_run source destination) None) as [rc1|] eqn:Hdry;
    [destruct (rc1 =? 0) eqn:H1;
     [destruct (spawn w _ (rsync_delete source destination) None) as [rc2|] eqn:Hreal;
      [destruct (rc2 =? 0) eqn:H2;
       [destruct (spawn w _ (diff_r source destination) None) as [rc3|] eqn:Hdiff;
        [destruct (rc3 =? 0) eqn:H3|]|]|]|]|].
  2-7: erewrite new_events_app; [|simpl; rewrite <- ?app_assoc; reflexivity];
       each ltac:(solve [simpl; one_of | split; [reflexivity | one_of]]).
  rewrite bind_unfold.
  match goal with |- context [create_symlink w destination source ?s] => set (st3 := s) end.
  assert (H3' : trace st3 = trace st ++
            [Log INFO (newline +:+ "Processing: " +:+ source);
             Run (rsync_dry_run source destination) None (Exited rc1);
             Run (rsync_delete source destination) None (Exited rc2);
             Run (diff_r source destination) None (Exited rc3)])
    by (subst st3; simpl; rewrite <- !app_assoc; reflexivity).
  clearbody st3.
  pose proof (create_symlink_spec w destination source st3) as Hspec.
  destruct (emits_new_events _ (create_symlink w destination source) st3
              (emits_anything_create_symlink w destination source)) as [Htrace _].
  destruct (create_symlink w destination source st3) as [[b|e] st'] eqn:Hrun;
    cbv zeta in Hspec; cbn [fst snd] in *;
    (destruct (is_symlink w (trace st3) source);
     [destruct (unlink w _ source)
     |destruct (path_exists w _ source);
      [destruct (spawn w _ ["sudo"; "rm"; "-rf"; source] None) as [[|p|p]|]|]]);
    try destruct (symlink_to w _ source destination) eqn:Hln;
    try discriminate Hspec;
    injection Hspec as Hb Hevs; subst b; rewrite Hevs in Htrace; clear Hevs;
    (erewrite new_events_app;
       [|unfold logger, emit; cbn [fst snd trace]; rewrite Htrace, H3'; simpl;
         rewrite <- ?app_assoc; reflexivity]);
    cbn [app];
    each ltac:(solve [reflexivity | simpl; one_of | split; [reflexivity | one_of]
                     | split; reflexivity]).
Qed.

Lemma emits_concerns_process (w : world) (source_dir : path) :
  emits (concerns (show_path source_dir) (show_path (mount_point ++ [path_name source_dir])))
    (process w source_dir).
Proof.
  intros st. exists (new_events st (snd (process w source_dir st))).
  split; [|apply process_concerns].
  apply (emits_new_events (fun _ => True)). apply emits_anything_process.
Qed.

(** X3.  Nothing that [process] does to a directory removes or replaces the
    original before the copy has been verified: if the original is unlinked,
    deleted or replaced by a link at all, then the dry run, the transfer and
    the comparison were run before, in this order, and each exited with
    code 0.  And every event of [process] concerns this directory and its
    copy under the mount point, nothing else. *)
Theorem process_removal_guard (w : world) (source_dir : path) (st : state) :
  let source := show_path source_dir in
  let destination := show_path (mount_point ++ [path_name source_dir]) in
  let evs := new_events st (snd (process w source_dir st)) in
  (Forall (fun e => ~ removes_original e) evs \/
   exists rest,
     evs = Log INFO (newline +:+ "Processing: " +:+ source)
           :: Run (rsync_dry_run source destination) None (Exited 0)
           :: Run (rsync_delete source destination) None (Exited 0)
           :: Run (diff_r source destination) None (Exited 0) :: rest) /\
  Forall (concerns source destination) evs.
Proof.
  intros source destination evs.
  split; [|apply (emits_new_events _ (process w source_dir) st), emits_concerns_process].
  subst evs. rewrite process_unfold. cbv zeta. fold source. fold destination.
  assert (Hquiet : forall l : list event,
            Forall (fun e => match e with Log _ _ => True | Run argv _ _ => take 2 argv <> ["sudo"; "rm"] | _ => False end) l ->
            Forall (fun e => ~ removes_original e) l).
  { intros l H. eapply Forall_impl; [exact H|]. intros [] He; simpl; auto. }
  destruct (spawn w _ (rsync_dry_run source destination) None) as [rc1|] eqn:Hdry.
  2:{ left. erewrite new_events_app; [|simpl; rewrite <- ?app_assoc; reflexivity].
      apply Hquiet. repeat constructor; discriminate. }
  destruct (rc1 =? 0) eqn:H1.
  2:{ left. erewrite new_events_app; [|simpl; rewrite <- ?app_assoc; reflexivity].
      apply Hquiet. repeat constructor; discriminate. }
  apply Z.eqb_eq in H1. subst rc1.
  destruct (spawn w _ (rsync_delete source destination) None) as [rc2|] eqn:Hreal.
  2:{ left. erewrite new_events_app; [|simpl; rewrite <- ?app_assoc; reflexivity].
      apply Hquiet. repeat constructor; discriminate. }
  destruct (rc2 =? 0) eqn:H2.
  2:{ left. erewrite new_events_app; [|simpl; rewrite <- ?app_assoc; reflexivity].
      apply Hquiet. repeat constructor; discriminate. }
  apply Z.eqb_eq in H2. subst rc2.
  destruct (spawn w _ (diff_r source destination) None) as [rc3|] eqn:Hdiff.
  2:{ left. erewrite new_events_app; [|simpl; rewrite <- ?app_assoc; reflexivity].
      apply Hquiet. repeat constructor; discriminate. }
  destruct (rc3 =? 0) eqn:H3.
  2:{ left. erewrite new_events_app; [|simpl; rewrite <- ?app_assoc; reflexivity].
      apply Hquiet. repeat constructor; discriminate. }
  apply Z.eqb_eq in H3. subst rc3.
  right.
  match goal with |- context [bind ?m ?f ?s] =>
    assert (Hrest : emits (fun _ => True) (bind m f));
    [unfold create_symlink, logger; emits_by ltac:(exact I)|];
    destruct (Hrest s) as (rest & Ht & _)
  end.
  exists rest. apply new_events_app. rewrite Ht. simpl. rewrite <- !app_assoc. reflexivity.
Qed.

(** X4.  The verdict of [process] is truthful.  When it returns, its last
    line is either [Successfully moved] or [Failed to process], never both;
    the directory is reported as moved exactly when the link from the
    original path to the copy was created, and a run that reports a failure
    or is left by an exception has created no link. *)
Theorem process_verdict (w : world) (source_dir : path) (st : state) :
  let source := show_path source_dir in
  let destination := show_path (mount_point ++ [path_name source_dir]) in
  let run := process w source_dir st in
  let evs := new_events st (snd run) in
  let moved := Log INFO ("Successfully moved: " +:+ source) in
  let failed := Log ERROR ("Failed to process: " +:+ source) in
  let made := links_made w (trace st) evs in
  (fst run = Ok tt /\ last evs = Some moved /\ (failed ∉ evs) /\
   made = [(source, destination)]) \/
  (fst run = Ok tt /\ last evs = Some failed /\ (moved ∉ evs) /\ made = []) \/
  (fst run = Raise OSError /\ (moved ∉ evs) /\ (failed ∉ evs) /\ made = []).
Proof.
  intros source destination run evs moved failed made. subst run evs made moved failed.
  rewrite process_unfold. cbv zeta. fold source. fold destination.
  destruct (spawn w _ (rsync_dry_run source destination) None) as [rc1|] eqn:Hdry;
    [destruct (rc1 =? 0) eqn:H1;
     [destruct (spawn w _ (rsync_delete source destination) None) as [rc2|] eqn:Hreal;
      [destruct (rc2 =? 0) eqn:H2;
       [destruct (spawn w _ (diff_r source destination) None) as [rc3|] eqn:Hdiff;
        [destruct (rc3 =? 0) eqn:H3|]|]|]|]|].
  2-7: erewrite new_events_app; [|simpl; rewrite <- ?app_assoc; reflexivity].
  2,4,6: right; left; split; [reflexivity|]; split; [reflexivity|];
         split; [intros H; among H | reflexivity].
  2-4: right; right; split; [reflexivity|]; split; [intros H; among H|];
       split; [intros H; among H | reflexivity].
  (* the three commands exited with code 0: the relink decides *)
  rewrite bind_unfold.
  match goal with |- context [create_symlink w destination source ?s] => set (st3 := s) end.
  assert (H3' : trace st3 = trace st ++
            [Log INFO (newline +:+ "Processing: " +:+ source);
             Run (rsync_dry_run source destination) None (Exited rc1);
             Run (rsync_delete source destination) None (Exited rc2);
             Run (diff_r source destination) None (Exited rc3)])
    by (subst st3; simpl; rewrite <- !app_assoc; reflexivity).
  clearbody st3.
  pose proof (create_symlink_spec w destination source st3) as Hspec.
  destruct (emits_new_events _ (create_symlink w destination source) st3
              (emits_anything_create_symlink w destination source)) as [Htrace _].
  destruct (create_symlink w destination source st3) as [[b|e] st'] eqn:Hrun;
    cbv zeta in Hspec; cbn [fst snd] in *;
    (destruct (is_symlink w (trace st3) source);
     [destruct (unlink w _ source)
     |destruct (path_exists w _ source);
      [destruct (spawn w _ ["sudo"; "rm"; "-rf"; source] None) as [[|p|p]|]|]]);
    try destruct (symlink_to w _ source destination) eqn:Hln;
    try discriminate Hspec;
    injection Hspec as Hb Hevs; subst b; rewrite Hevs in Htrace; clear Hevs;
    (erewrite new_events_app;
       [|unfold logger, emit; cbn [fst snd trace]; rewrite Htrace, H3'; simpl;
         rewrite <- ?app_assoc; reflexivity]);
    rewrite ?H3' in *; simpl in *; rewrite <- ?app_assoc in *; simpl in *.
  all: try (left; split; [reflexivity|]; split; [reflexivity|];
            split; [intros H; among H|]; rewrite Hln; reflexivity).
  all: right; left; split; [reflexivity|]; split; [reflexivity|];
       split; [intros H; among H|]; rewrite ?Hln; reflexivity.
Qed.

(** ** Selector *)

Lemma read_lines_app (a b : list event) : read_lines (a ++ b) = read_lines a ++ read_lines b.
Proof. unfold read_lines. apply flat_map_app. Qed.

Lemma marked_app (a b : list event) : marked (a ++ b) = marked a ++ marked b.
Proof. unfold marked. apply flat_map_app. Qed.

Lemma reminders_app (a b : list event) : reminders (a ++ b) = (reminders a + reminders b)%nat.
Proof. unfold reminders. now rewrite flat_map_app, length_app. Qed.

(** The [while True] loop reads up to the first accepted line and prints
    one reminder for each line before it. *)
Lemma ask_exact (lines : list string) (tr : list event) :
  exists evs,
    fst (snd (ask lines tr)) = tr ++ evs /\
    marked evs = [] /\
    match answers lines with
    | [] =>
        fst (ask lines tr) = Raise EOFError /\
        snd (snd (ask lines tr)) = [] /\
        read_lines evs = lines /\
        reminders evs = length lines /\
        last evs = Some (Input None)
    | a :: more =>
        fst (ask lines tr) = Ok (lower a) /\
        answers (snd (snd (ask lines tr))) = more /\
        read_lines evs ++ snd (snd (ask lines tr)) = lines /\
        S (reminders evs) = length (read_lines evs)
    end.
Proof.
  revert tr. induction lines as [|l rest IH]; intros tr.
  - exists [Input None]. repeat split.
  - rewrite answers_cons. cbn [ask].
    destruct (decide (lower l = "y" \/ lower l = "n")) as [Hv|Hv].
    + exists [Input (Some l)]. repeat split.
    + destruct (IH ((tr ++ [Input (Some l)]) ++ [Stdout PleaseEnter]))
        as (evs & Htr & Hmarked & Hrest).
      exists (Input (Some l) :: Stdout PleaseEnter :: evs).
      split; [rewrite Htr, <- !app_assoc; reflexivity|].
      split; [exact Hmarked|].
      destruct (answers rest) as [|a more].
      * destruct Hrest as (-> & -> & Hread & Hrem & Hlast).
        repeat split; simpl; [now rewrite Hread | unfold reminders in *; simpl; now rewrite Hrem|].
        destruct evs; [discriminate | exact Hlast].
      * destruct Hrest as (-> & -> & Hread & Hrem).
        repeat split; simpl; [now rewrite Hread | unfold reminders in *; simpl; now rewrite Hrem].
Qed.

Lemma offer_exact (limit : Z) (dir_info : list (path * Q)) (p : path) (size_mb : Q)
    (i : Z) (dirs : list path) (st : state) :
  let run := offer limit dir_info (p, size_mb) (i, dirs) st in
  exists evs,
    trace (snd run) = trace st ++ evs /\
    fstab (snd run) = fstab st /\
    match answers (stdin st) with
    | [] =>
        fst run = Raise EOFError /\
        stdin (snd run) = [] /\
        read_lines evs = stdin st /\
        reminders evs = length (stdin st) /\
        marked evs = [] /\
        last evs = Some (Input None)
    | a :: more =>
        fst run = Ok (i + 1, if decide (lower a = "y") then dirs ++ [p] else dirs) /\
        answers (stdin (snd run)) = more /\
        read_lines evs ++ stdin (snd run) = stdin st /\
        S (reminders evs) = length (read_lines evs) /\
        marked evs = if decide (lower a = "y") then [p] else []
    end.
Proof.
  unfold offer, print, emit, bind, ask_yes_no. simpl.
  match goal with |- context [ask ?l ?t] =>
    destruct (ask_exact l t) as (evs & Htr & Hmarked & Hrest);
    destruct (ask l t) as [r [tr' rest]] end.
  simpl in *. subst tr'.
  destruct (answers (stdin st)) as [|a more].
  - destruct Hrest as (-> & -> & Hread & Hrem & Hlast).
    eexists (_ :: _ :: _ :: evs). split; [rewrite <- !app_assoc; reflexivity|].
    repeat split; try assumption.
    destruct evs; [discriminate | exact Hlast].
  - destruct Hrest as (-> & Hans & Hread & Hrem).
    destruct (decide (lower a = "y")); simpl.
    + eexists (_ :: _ :: _ :: evs ++ [_]). split; [rewrite <- !app_assoc; reflexivity|].
      split; [reflexivity|]. split; [reflexivity|]. split; [assumption|].
      split; [simpl; rewrite read_lines_app, <- app_assoc; simpl; assumption|].
      split; [unfold reminders, read_lines in *; simpl;
              rewrite !flat_map_app, !length_app; simpl; lia|].
      simpl. rewrite marked_app, Hmarked. reflexivity.
    + eexists (_ :: _ :: _ :: evs ++ [_]). split; [rewrite <- !app_assoc; reflexivity|].
      split; [reflexivity|]. split; [reflexivity|]. split; [assumption|].
      split; [simpl; rewrite read_lines_app, <- app_assoc; simpl; assumption|].
      split; [unfold reminders, read_lines in *; simpl;
              rewrite !flat_map_app, !length_app; simpl; lia|].
      simpl. rewrite marked_app, Hmarked. reflexivity.
Qed.

Lemma offer_loop_exact (limit : Z) (dir_info l : list (path * Q)) :
  forall (i : Z) (dirs : list path) (st : state),
  let replies := answers (stdin st) in
  let run := for_each l (offer limit dir_info) (i, dirs) st in
  exists evs,
    trace (snd run) = trace st ++ evs /\
    fstab (snd run) = fstab st /\
    fst run = (if (length l <=? length replies)%nat
               then Ok (i + Z.of_nat (length l), dirs ++ chosen l replies)
               else Raise EOFError) /\
    answers (stdin (snd run)) = drop (length l) replies /\
    read_lines evs ++ stdin (snd run) = stdin st /\
    (reminders evs + Nat.min (length l) (length replies))%nat = length (read_lines evs) /\
    marked evs = chosen l replies /\
    (if (length l <=? length replies)%nat then True else last evs = Some (Input None)).
Proof.
  induction l as [|[p size_mb] l IH]; intros i dirs st replies run; subst run replies;
    cbn [for_each].
  - exists []. simpl. rewrite !app_nil_r, Z.add_0_r, drop_0. repeat split.
  - rewrite bind_unfold.
    destruct (offer_exact limit dir_info p size_mb i dirs st) as (evs & Htr & Hfs & Hrest).
    destruct (offer limit dir_info (p, size_mb) (i, dirs) st) as [[vars|e] st1];
      cbn [fst snd] in *;
      destruct (answers (stdin st)) as [|a more] eqn:Hans.
    + destruct Hrest as (Hres & _). discriminate.
    + destruct Hrest as ([= ->] & Hmore & Hread & Hrem & Hmarked).
      destruct (IH (i + 1) (if decide (lower a = "y") then dirs ++ [p] else dirs) st1)
        as (evs' & Htr' & Hfs' & Hres' & Hans' & Hread' & Hrem' & Hmarked' & Hlast').
      rewrite Hmore in *.
      exists (evs ++ evs'). split; [rewrite Htr', Htr, <- app_assoc; reflexivity|].
      split; [congruence|].
      split.
      { rewrite Hres'. cbn [length chosen Nat.leb].
        destruct (length l <=? length more)%nat; [|reflexivity].
        f_equal. f_equal; [lia|].
        destruct (decide (lower a = "y")); [rewrite <- app_assoc|]; reflexivity. }
      split; [rewrite Hans'; reflexivity|].
      split; [rewrite read_lines_app, <- app_assoc, Hread'; assumption|].
      split; [rewrite read_lines_app, reminders_app, length_app; simpl; lia|].
      split.
      { rewrite marked_app, Hmarked, Hmarked'. cbn [chosen].
        destruct (decide (lower a = "y")); reflexivity. }
      cbn [length Nat.leb]. destruct (length l <=? length more)%nat; [exact I|].
      destruct evs' as [|x evs' _] using rev_ind; [discriminate|].
      rewrite app_assoc, last_snoc. now rewrite last_snoc in Hlast'.
    + destruct Hrest as (Hres & Hin & Hread & Hrem & Hmarked & Hlast). injection Hres as ->.
      exists evs. split; [assumption|]. split; [assumption|].
      rewrite Hin. simpl. repeat split; try assumption.
      * now rewrite app_nil_r.
      * rewrite Nat.add_0_r. congruence.
    + destruct Hrest as (Hres & _). discriminate.
Qed.

(** X5.  The selector pairs the candidates it offers, [dir_info[:limit]],
    with the accepted lines of standard input (those that are [y] or [n]
    once lower-cased), in order; every other line is passed over.  When
    there is an accepted line for every offered candidate it returns the
    candidates whose line is [y], in ranked order, and leaves the accepted
    lines it did not need; otherwise [input] meets the end of standard input
    and the [EOFError] leaves the selector.  The mount table is left
    alone. *)
Theorem prompt_directory_move_decisions (dir_info : list (path * Q)) (limit : Z) (st : state) :
  let offered := slice_to dir_info limit in
  let replies := answers (stdin st) in
  let run := prompt_directory_move dir_info limit st in
  fst run = (if (length offered <=? length replies)%nat
             then Ok (chosen offered replies)
             else Raise EOFError) /\
  answers (stdin (snd run)) = drop (length offered) replies /\
  fstab (snd run) = fstab st.
Proof.
  intros offered replies run. subst run. unfold prompt_directory_move. rewrite bind_unfold.
  destruct (offer_loop_exact limit dir_info offered 0 [] st)
    as (evs & Htr & Hfs & Hres & Hans & _).
  fold offered. fold replies in Hres, Hans.
  destruct (for_each offered (offer limit dir_info) (0, []) st) as [[vars|e] st1];
    cbn [fst snd] in *.
  - destruct (length offered <=? length replies)%nat; [|discriminate].
    injection Hres as ->. repeat split; assumption.
  - destruct (length offered <=? length replies)%nat; [discriminate|].
    injection Hres as ->. repeat split; assumption.
Qed.

(** X6.  The selector reads standard input from the front and reads no
    line it does not need: the lines it has read, followed by the lines it
    has left, are the standard input it started with.  It prints one
    reminder for each line read that is not an answer, and one
    [Marked for moving] line for each candidate it returns, in the same
    order. *)
Theorem prompt_directory_move_transcript (dir_info : list (path * Q)) (limit : Z) (st : state) :
  let offered := slice_to dir_info limit in
  let replies := answers (stdin st) in
  let run := prompt_directory_move dir_info limit st in
  let evs := new_events st (snd run) in
  read_lines evs ++ stdin (snd run) = stdin st /\
  (reminders evs + Nat.min (length offered) (length replies))%nat = length (read_lines evs) /\
  marked evs = chosen offered replies /\
  Forall talk evs.
Proof.
  intros offered replies run evs. subst evs run.
  split; [|split; [|split]];
    [| | |apply (emits_new_events _ (prompt_directory_move dir_info limit) st),
           emits_prompt_directory_move].
  all: unfold prompt_directory_move; rewrite bind_unfold;
    destruct (offer_loop_exact limit dir_info offered 0 [] st)
      as (evs & Htr & _ & _ & _ & Hread & Hrem & Hmarked & _);
    fold offered; fold replies in Hrem, Hmarked;
    destruct (for_each offered (offer limit dir_info) (0, []) st) as [[vars|e] st1];
    cbn [fst snd ret] in *; rewrite (new_events_app _ _ _ Htr); assumption.
Qed.

(** ** Scanner *)

Lemma descending_head (y : path * Q) (l : list (path * Q)) (z : path * Q) :
  descending (y :: l) -> z ∈ y :: l -> (snd z <= snd y)%Q.
Proof.
  intros Hs Hz. inversion Hs as [|? ? _ Hall]; subst.
  apply elem_of_cons in Hz as [->|Hz]; [apply Qle_refl|].
  rewrite Forall_forall in Hall. now apply Hall.
Qed.

(** Filtering a sorted list and inserting commute. *)
Lemma filter_insert_desc (P : path * Q -> bool) (x : path * Q) (l : list (path * Q)) :
  descending l ->
  filter (fun c => P c = true) (insert_desc x l) =
    if P x then insert_desc x (filter (fun c => P c = true) l)
    else filter (fun c => P c = true) l.
Proof.
  induction l as [|y l IH]; intros Hs.
  - simpl. rewrite filter_cons. destruct (P x); simpl; reflexivity.
  - assert (Hl : descending l) by (inversion Hs; assumption).
    cbn [insert_desc]. destruct (Qle_bool (snd y) (snd x)) eqn:Hle.
    + rewrite filter_cons. destruct (P x) eqn:Hx; simpl; [|reflexivity].
      destruct (filter (fun c => P c = true) (y :: l)) as [|z rest] eqn:Hf; [reflexivity|].
      simpl. assert (Hz : z ∈ y :: l).
      { assert (Hin : z ∈ filter (fun c => P c = true) (y :: l)) by (rewrite Hf; left).
        apply list_elem_of_filter in Hin. tauto. }
      apply (descending_head _ _ _ Hs) in Hz.
      assert (Hzx : Qle_bool (snd z) (snd x) = true).
      { apply Qle_bool_iff. eapply Qle_trans; [exact Hz|]. now apply Qle_bool_iff. }
      now rewrite Hzx.
    + rewrite !(filter_cons _ y), (IH Hl).
      destruct (P x) eqn:Hx; [|reflexivity].
      destruct (decide (P y = true)); [|reflexivity].
      simpl. now rewrite Hle.
Qed.

Lemma filter_sorted_desc (P : path * Q -> bool) (l : list (path * Q)) :
  filter (fun c => P c = true) (sorted_desc l) = sorted_desc (filter (fun c => P c = true) l).
Proof.
  induction l as [|x l IH]; [reflexivity|].
  cbn [sorted_desc fold_right]. fold (sorted_desc l).
  rewrite filter_insert_desc by apply sorted_desc_sorted.
  rewrite filter_cons, IH. destruct (P x); simpl; reflexivity.
Qed.

Lemma Qlt_bool_inject_trans (t1 t2 : Z) (q : Q) :
  t1 <= t2 -> Qlt_bool (inject_Z t2) q = true -> Qlt_bool (inject_Z t1) q = true.
Proof.
  intros Hle H. apply Qlt_bool_iff in H. apply Qlt_bool_iff.
  eapply Qle_lt_trans; [|exact H]. rewrite <- Zle_Qle. exact Hle.
Qed.

Lemma filter_above_one (t : Z) (c : path * Q) :
  filter (fun c => above t c = true) [c] = if above t c then [c] else [].
Proof.
  rewrite filter_cons, filter_nil.
  destruct (above t c); destruct (decide _); congruence.
Qed.

Lemma measure_loop_threshold (w : world) (t1 t2 : Z) (l : list path) :
  t1 <= t2 ->
  forall (acc1 acc2 : list (path * Q)) (st : state),
  acc2 = filter (fun c => above t2 c = true) acc1 ->
  match fst (for_each l (measure w t1) acc1 st), fst (for_each l (measure w t2) acc2 st) with
  | Ok found1, Ok found2 => found2 = filter (fun c => above t2 c = true) found1
  | Raise e1, Raise e2 => e1 = e2
  | _, _ => False
  end.
Proof.
  intros Hle. induction l as [|p l IH]; intros acc1 acc2 st Hacc; cbn [for_each].
  - exact Hacc.
  - rewrite !bind_unfold, !measure_spec. unfold exceeds.
    destruct (kb_of w p) as [kb|]; [|reflexivity].
    apply IH. subst acc2.
    destruct (Qlt_bool (inject_Z t2) (inject_Z kb / 1024)) eqn:H2.
    + rewrite (Qlt_bool_inject_trans t1 t2 _ Hle H2).
      rewrite filter_app, filter_above_one.
      change (above t2 (p, (inject_Z kb / 1024)%Q))
        with (Qlt_bool (inject_Z t2) (inject_Z kb / 1024)).
      now rewrite H2.
    + destruct (Qlt_bool (inject_Z t1) (inject_Z kb / 1024)); [|reflexivity].
      rewrite filter_app, filter_above_one.
      change (above t2 (p, (inject_Z kb / 1024)%Q))
        with (Qlt_bool (inject_Z t2) (inject_Z kb / 1024)).
      rewrite H2. now rewrite app_nil_r.
Qed.

(** X7.  Raising the threshold only removes candidates: for [t1 <= t2] the
    scan with threshold [t2] returns the result of the scan with threshold
    [t1] without the entries of at most [t2] megabytes, the others in the
    same order; and when one of the two scans raises, so does the other, with
    the same exception. *)
Theorem find_large_directories_threshold (w : world) (t1 t2 : Z) (st : state) :
  t1 <= t2 ->
  match fst (find_large_directories w t1 st), fst (find_large_directories w t2 st) with
  | Ok out1, Ok out2 => out2 = filter (fun c => above t2 c = true) out1
  | Raise e1, Raise e2 => e1 = e2
  | _, _ => False
  end.
Proof.
  intros Hle. unfold find_large_directories. rewrite !bind_unfold.
  pose proof (measure_loop_threshold w t1 t2 (os_walk w home) Hle [] [] st eq_refl) as Hloop.
  destruct (for_each (os_walk w home) (measure w t1) [] st) as [[found1|e1] s1];
    destruct (for_each (os_walk w home) (measure w t2) [] st) as [[found2|e2] s2];
    cbn [fst snd ret] in *; try assumption.
  subst found2. symmetry. apply filter_sorted_desc.
Qed.

Lemma find_large_directories_threshold_witness :
  1000 <= 1800 /\
  fst (find_large_directories (calm two_tree) 1000 (start [] "")) =
    Ok [(["home"; "a"], (inject_Z 2048000 / 1024)%Q);
        (["home"; "d"], (inject_Z 1537024 / 1024)%Q)] /\
  fst (find_large_directories (calm two_tree) 1800 (start [] "")) =
    Ok [(["home"; "a"], (inject_Z 2048000 / 1024)%Q)] /\
  match fst (find_large_directories (calm two_tree) 1000 (start [] "")),
        fst (find_large_directories (calm two_tree) 1800 (start [] "")) with
  | Ok out1, Ok out2 => out2 = filter (fun c => above 1800 c = true) out1
  | Raise e1, Raise e2 => e1 = e2
  | _, _ => False
  end.
Proof.
  assert (H : 1000 <= 1800) by lia.
  split; [exact H|]. split; [reflexivity|]. split; [reflexivity|].
  exact (find_large_directories_threshold (calm two_tree) 1000 1800 (start [] "") H).
Defined.

Lemma elem_of_flat_map_inv {A B} (f : A -> list B) (l : list A) (y : B) :
  y ∈ flat_map f l -> exists x, x ∈ l /\ y ∈ f x.
Proof.
  induction l as [|x l IH]; simpl; intros H.
  - apply elem_of_nil in H. contradiction.
  - apply elem_of_app in H as [H|H].
    + exists x. split; [left | exact H].
    + destruct (IH H) as (x' & Hx' & Hy). exists x'. split; [now right | exact Hy].
Qed.

(** Every path of a walk lies strictly below the directory walked. *)
Lemma joined_dirs_below (root : path) (es : list node) (p : path) :
  p ∈ joined_dirs root es -> exists name, p = root ++ [name].
Proof.
  unfold joined_dirs, os_path_join. intros H.
  apply list_elem_of_fmap in H as (e & -> & _). eauto.
Qed.

Lemma walk_node_below : forall (n : node) (root p : path),
  p ∈ walk_node root n -> exists name rest, p = root ++ name :: rest.
Proof.
  fix IH 1. intros [name sz|name|name|name es|name es|name es|name] root p; simpl;
    try (intros H; apply elem_of_nil in H; contradiction).
  intros H. apply elem_of_app in H as [H|H].
  - apply joined_dirs_below in H as (c & ->). unfold os_path_join.
    exists name, [c]. now rewrite <- app_assoc.
  - induction es as [|e es IHes]; simpl in H.
    + apply elem_of_nil in H. contradiction.
    + apply elem_of_app in H as [H|H]; [|exact (IHes H)].
      apply IH in H as (c & rest & ->). unfold os_path_join.
      exists name, (c :: rest). now rewrite <- app_assoc.
Qed.

Lemma walk_below (top : path) (es : list node) (p : path) :
  p ∈ walk top es -> exists name rest, p = top ++ name :: rest.
Proof.
  unfold walk. intros H. apply elem_of_app in H as [H|H].
  - apply joined_dirs_below in H as (c & ->). eauto.
  - apply elem_of_flat_map_inv in H as (e & _ & H).
    apply walk_node_below in H. exact H.
Qed.

Lemma measure_loop_subset (w : world) (t : Z) (l : list path) :
  forall (acc found : list (path * Q)) (st st' : state),
  for_each l (measure w t) acc st = (Ok found, st') ->
  forall c, c ∈ found -> c ∈ acc \/ fst c ∈ l /\ exceeds w t (fst c) = true.
Proof.
  induction l as [|p l IH]; intros acc found st st'; cbn [for_each].
  - intros [= <- <-] c Hc. now left.
  - rewrite bind_unfold, measure_spec.
    destruct (kb_of w p) as [kb|]; [|discriminate].
    intros Hrun c Hc. destruct (IH _ _ _ _ Hrun c Hc) as [Hacc|[Hl Hex]].
    + destruct (exceeds w t p) eqn:Hp; [|now left].
      apply elem_of_app in Hacc as [Hacc|Hacc]; [now left|].
      apply list_elem_of_singleton in Hacc. subst c. right. split; [left | exact Hp].
    + right. split; [now right | exact Hex].
Qed.

(** What the scanner returns, entry by entry. *)
Lemma find_large_directories_entries (w : world) (t : Z) (st st' : state)
    (out : list (path * Q)) :
  find_large_directories w t st = (Ok out, st') ->
  forall c, c ∈ out -> fst c ∈ os_walk w home /\ exceeds w t (fst c) = true.
Proof.
  unfold find_large_directories. rewrite bind_unfold.
  destruct (for_each (os_walk w home) (measure w t) [] st) as [[found|e] s1] eqn:Hrun;
    [|discriminate].
  intros [= <- <-] c Hc. rewrite sorted_desc_perm in Hc.
  destruct (measure_loop_subset _ _ _ _ _ _ _ Hrun c Hc) as [Hnil|H]; [|exact H].
  apply elem_of_nil in Hnil. contradiction.
Qed.

(** X8.  The scanner never proposes [/home] itself, nor anything outside
    it: every candidate is a path with at least one component below
    [/home].  When [/home] is missing, or is not a directory, the scan
    returns the empty list and logs nothing. *)
Theorem find_large_directories_below_home (w : world) (min_size_mb : Z) (st : state) :
  match fst (find_large_directories w min_size_mb st) with
  | Ok out => Forall (fun c => exists name rest, fst c = home ++ name :: rest) out
  | Raise e => e = TypeError
  end /\
  match descend (fs w) home with
  | Some _ => True
  | None => find_large_directories w min_size_mb st = (Ok [], st)
  end.
Proof.
  split.
  - destruct (find_large_directories w min_size_mb st) as [[out|e] st'] eqn:Hrun; simpl.
    + rewrite Forall_forall. intros c Hc.
      destruct (find_large_directories_entries _ _ _ _ _ Hrun c Hc) as [Hwalk _].
      unfold os_walk in Hwalk. destruct (descend (fs w) home) as [es|].
      * now apply walk_below in Hwalk.
      * apply elem_of_nil in Hwalk. contradiction.
    + unfold find_large_directories in Hrun. rewrite bind_unfold in Hrun.
      destruct (decide (Forall (fun p => kb_of w p <> None) (os_walk w home))) as [Hall|Hex].
      * destruct (measure_loop_ok w min_size_mb _ [] st Hall) as (found & Hloop & _).
        rewrite Hloop in Hrun. discriminate.
      * apply not_Forall_Exists in Hex; [|intros p; apply _].
        assert (Hex' : Exists (fun p => kb_of w p = None) (os_walk w home)).
        { eapply Exists_impl; [exact Hex|]. simpl. intros p Hp.
          destruct (kb_of w p); [exfalso; apply Hp; discriminate | reflexivity]. }
        pose proof (measure_loop_fail w min_size_mb _ [] st Hex') as Hfail.
        destruct (for_each (os_walk w home) (measure w min_size_mb) [] st) as [[found|e'] s1];
          simpl in *; [discriminate|].
        injection Hfail as ->. now injection Hrun as ->.
  - unfold find_large_directories, os_walk.
    destruct (descend (fs w) home); [exact I | reflexivity].
Qed.

(** ** The size of one directory *)

Lemma sum_file_sizes_bytes (l : list node) (t : N) :
  sum_file_sizes l = Some t -> t = bytes l.
Proof.
  revert t. induction l as [|f l IH]; intros t; simpl.
  - now intros [= <-].
  - destruct (is_file f) as [b|e] eqn:Hf; [|discriminate].
    destruct (sum_file_sizes l) as [t'|]; [|discriminate].
    intros [= <-]. rewrite <- (IH t' eq_refl).
    destruct f; simpl in *; try discriminate; injection Hf as <-; reflexivity.
Qed.

(** X9.  [calculate_dir_size] catches every [OSError] of the examination
    and changes neither the mount table nor standard input.  It returns
    [None], after one error line, exactly when the path itself cannot be
    examined or an entry that cannot be examined lies beneath the directory
    (links to directories and directories that cannot be listed are not
    entered, and what lies in them does not count); otherwise it logs nothing and returns the bytes of the regular
    files beneath the directory, divided by 1024 and rounded down.  A path
    that can be examined and is not a directory has size 0.  (A limit of the
    interpreter, such as the recursion depth on a very deep tree, is not
    part of the model.) *)
Theorem calculate_dir_size_outcome (w : world) (directory : path) (st : state) :
  let run := calculate_dir_size w directory st in
  let beneath := rglob_from w directory in
  match fst run with
  | Ok (Some kb) =>
      unexaminable (fs w) directory = false /\
      (forall name, Faulty name ∉ beneath) /\
      kb = Z.of_N (bytes beneath) / 1024 /\
      new_events st (snd run) = []
  | Ok None =>
      (unexaminable (fs w) directory = true \/ exists name, Faulty name ∈ beneath) /\
      new_events st (snd run) = [Log ERROR "Failed to calculate directory size"]
  | Raise _ => False
  end /\
  stdin (snd run) = stdin st /\
  fstab (snd run) = fstab st /\
  (unexaminable (fs w) directory = false ->
   descend (fs w) directory = None ->
   fst run = Ok (Some 0)).
Proof.
  intros run beneath. subst run. rewrite calculate_dir_size_spec. cbn [fst snd stdin fstab].
  split; [|split; [reflexivity|split; [reflexivity|]]].
  - destruct (kb_of w directory) as [kb|] eqn:Hkb.
    + assert (Hnot : ~ (unexaminable (fs w) directory = true \/
                        exists name, Faulty name ∈ rglob_from w directory)).
      { intros H. apply kb_of_none in H. congruence. }
      split; [|split; [|split]].
      * destruct (unexaminable (fs w) directory); [exfalso; apply Hnot; now left | reflexivity].
      * intros name Hin. apply Hnot. right. eauto.
      * unfold kb_of, sum_beneath in Hkb. fold beneath in Hkb.
        destruct (unexaminable (fs w) directory); [discriminate|].
        destruct (sum_file_sizes beneath) as [t|] eqn:Ht; [|discriminate].
        injection Hkb as <-. now rewrite (sum_file_sizes_bytes _ _ Ht).
      * apply new_events_app. reflexivity.
    + split; [now apply kb_of_none | apply new_events_app; reflexivity].
  - intros Hex Hnone. unfold kb_of, sum_beneath, rglob_from. rewrite Hex, Hnone. reflexivity.
Qed.

Lemma bytes_rglob_cons (e : node) (l : list node) :
  bytes (rglob (e :: l)) = (bytes (rglob_node e) + bytes (rglob l))%N.
Proof. rewrite rglob_cons. apply bytes_app. Qed.

Lemma bytes_rglob (es : list node) :
  bytes (rglob es) =
    (bytes es + fold_right N.add 0 (map (fun sub => bytes (rglob sub)) (subdirectories es)))%N.
Proof.
  induction es as [|e es IH]; [reflexivity|].
  rewrite bytes_rglob_cons, IH.
  destruct e as [name sz|name|name|name sub|name sub|name sub|name]; simpl; try lia.
  fold (rglob sub). unfold subdirectories. lia.
Qed.

(** X10.  The size of a directory is made of the regular files that lie
    directly in it and of the sizes, in bytes, of its real subdirectories
    (those whose listing is given); links to directories, directories that
    cannot be listed and special files add nothing. *)
Theorem directory_size_decomposition (w : world) (directory : path) (es : list node)
    (st : state) (kb : Z) :
  descend (fs w) directory = Some es ->
  fst (calculate_dir_size w directory st) = Ok (Some kb) ->
  kb = Z.of_N (bytes es +
               fold_right N.add 0%N (map (fun sub => bytes (rglob sub)) (subdirectories es)))
       / 1024.
Proof.
  intros Hes. rewrite calculate_dir_size_spec. cbn [fst].
  unfold kb_of, sum_beneath, rglob_from.
  rewrite (descend_examinable _ _ _ Hes), Hes. destruct (sum_file_sizes (rglob es)) as [t|] eqn:Ht; [|discriminate].
  intros [= <-]. now rewrite (sum_file_sizes_bytes _ _ Ht), bytes_rglob.
Qed.

Lemma directory_size_decomposition_witness :
  let es := [File "disk" (MiB 1500); Dir "sub" [File "x" (MiB 1)]] in
  descend (fs (calm two_tree)) ["home"; "d"] = Some es /\
  fst (calculate_dir_size (calm two_tree) ["home"; "d"] (start [] "")) = Ok (Some 1537024) /\
  1537024 = Z.of_N (bytes es +
                    fold_right N.add 0%N (map (fun sub => bytes (rglob sub)) (subdirectories es)))
            / 1024.
Proof.
  intros es.
  assert (H1 : descend (fs (calm two_tree)) ["home"; "d"] = Some es) by reflexivity.
  assert (H2 : fst (calculate_dir_size (calm two_tree) ["home"; "d"] (start [] ""))
               = Ok (Some 1537024)) by reflexivity.
  split; [exact H1|]. split; [exact H2|].
  exact (directory_size_decomposition (calm two_tree) ["home"; "d"] es (start [] "") 1537024
           H1 H2).
Defined.

(** ** Persistence *)

Lemma update_fstab_spec (w : world) (drive mount_point : string) (st : state) :
  let entry := fstab_entry drive mount_point in
  let tee := ["sudo"; "tee"; "-a"; fstab_path] in
  let h := trace st ++ [ReadText fstab_path] in
  let r := spawn w h tee (Some entry) in
  let failed := [Log ERROR "Failed to update fstab"] in
  let run := update_fstab w drive mount_point st in
  (fst run, new_events st (snd run), fstab (snd run)) =
    match fstab st with
    | None => (Ok false, ReadText fstab_path :: failed, None)
    | Some content =>
        if str_in entry (universal_newlines content)
        then (Ok true, [ReadText fstab_path], Some content)
        else match r with
             | Exited rc =>
                 if rc =? 0
                 then (Ok true, [ReadText fstab_path; Run tee (Some entry) r],
                       Some (content +:+ entry))
                 else (Ok false, ReadText fstab_path :: Run tee (Some entry) r :: failed,
                       Some (content +:+ substring 0 (tee_wrote w h entry) entry))
             | NotStarted =>
                 (Ok false, ReadText fstab_path :: Run tee (Some entry) r :: failed,
                  Some content)
             end
    end /\
  stdin (snd run) = stdin st.
Proof.
  intros entry tee h r failed run. subst run h r.
  unfold update_fstab, try_except, bind, read_text, logger, emit, ret. fold entry.
  destruct (fstab st) as [content|] eqn:Hc; cbn [fst snd trace stdin fstab].
  2:{ split; [|reflexivity].
      erewrite new_events_app; [|simpl; rewrite <- ?app_assoc; reflexivity].
      reflexivity. }
  destruct (str_in entry (universal_newlines content)); cbn [negb fst snd trace stdin fstab].
  { split; [|reflexivity]. erewrite new_events_app; [|reflexivity]. reflexivity. }
  rewrite subprocess_run_spec. cbn [fst snd trace stdin fstab andb]. fold tee.
  destruct (spawn w _ tee (Some entry)) as [rc|] eqn:Hr;
    cbn [fst snd trace stdin fstab negb andb after_run option_map].
  - destruct (rc =? 0) eqn:Hrc; cbn [fst snd trace stdin fstab negb andb];
      (split; [|reflexivity]);
      (erewrite new_events_app; [|simpl; rewrite <- ?app_assoc; reflexivity]);
      unfold after_run; (destruct (decide (tee = tee)) as [_|Hne]; [|now destruct Hne]);
      rewrite ?Hrc; reflexivity.
  - split; [|reflexivity].
    erewrite new_events_app; [|simpl; rewrite <- ?app_assoc; reflexivity].
    reflexivity.
Qed.

(** X11.  [update_fstab] catches whatever is raised in it, and it only ever
    appends: afterwards the mount table is what it was, or what it was
    followed by an initial part of the entry, and the latter only if the
    entry was absent from the table as read (CR LF and CR read as LF).  When
    it returns [True] the entry was found in the table as read and the table
    is unchanged, or the table is what it was followed by the whole entry,
    which a later reading finds if the entry has no carriage return.  When
    it returns [False] the last line is the error, and the table is
    unchanged unless [tee] ran and exited.  A table that cannot be read is
    reported as a failure without any command being run. *)
Theorem update_fstab_outcome (w : world) (drive mount_point : string) (st : state) :
  let entry := fstab_entry drive mount_point in
  let run := update_fstab w drive mount_point st in
  let evs := new_events st (snd run) in
  (exists b, fst run = Ok b) /\
  (fstab (snd run) = fstab st \/
   exists content n,
     fstab st = Some content /\ str_in entry (universal_newlines content) = false /\
     fstab (snd run) = Some (content +:+ substring 0 n entry)) /\
  (fst run = Ok true ->
   exists content, fstab st = Some content /\
     (str_in entry (universal_newlines content) = true /\ fstab (snd run) = Some content \/
      str_in entry (universal_newlines content) = false /\
      fstab (snd run) = Some (content +:+ entry) /\
      (no_cr entry = true ->
       str_in entry (universal_newlines (content +:+ entry)) = true))) /\
  (fst run = Ok false ->
   last evs = Some (Log ERROR "Failed to update fstab") /\
   ((forall rc, Run ["sudo"; "tee"; "-a"; "/etc/fstab"] (Some entry) (Exited rc) ∉ evs) ->
    fstab (snd run) = fstab st)) /\
  (fstab st = None ->
   fst run = Ok false /\ evs = [ReadText "/etc/fstab"; Log ERROR "Failed to update fstab"]) /\
  stdin (snd run) = stdin st.
Proof.
  intros entry run evs. subst run evs.
  destruct (update_fstab_spec w drive mount_point st) as [Hspec Hin]. cbv zeta in Hspec.
  fold entry in Hspec.
  remember (trace st ++ [ReadText fstab_path]) as h eqn:Hh.
  remember (tee_wrote w h entry) as n eqn:Hn.
  destruct (fstab st) as [content|] eqn:Hc.
  2:{ injection Hspec as -> -> ->.
      split; [eauto|]. split; [now left|]. split; [discriminate|].
      split; [intros _; split; reflexivity|]. split; [intros _; split; reflexivity | exact Hin]. }
  destruct (str_in entry (universal_newlines content)) eqn:Hpresent.
  { injection Hspec as -> -> ->.
    split; [eauto|]. split; [now left|].
    split; [intros _; exists content; split; [reflexivity | left; auto]|].
    split; [discriminate|]. split; [discriminate | exact Hin]. }
  destruct (spawn w h _ (Some entry)) as [rc|] eqn:Hr.
  - destruct (rc =? 0) eqn:Hrc; injection Hspec as -> -> ->.
    + split; [eauto|].
      split.
      { right. exists content, (String.length entry).
        split; [reflexivity | split; [exact Hpresent|]].
        now rewrite substring_all. }
      split.
      { intros _. exists content. split; [reflexivity|]. right.
        split; [exact Hpresent | split; [reflexivity|]].
        intros Hcr. apply (appended_entry_is_read entry content Hcr). }
      split; [discriminate|]. split; [discriminate | exact Hin].
    + split; [eauto|].
      split; [right; exists content, n; auto|].
      split; [discriminate|].
      split; [|split; [discriminate | exact Hin]].
      intros _. split; [reflexivity|].
      intros Hno. exfalso. apply (Hno rc). right. left.
  - injection Hspec as -> -> ->.
    split; [eauto|]. split; [now left|]. split; [discriminate|].
    split; [intros _; split; [reflexivity | intros _; reflexivity]|].
    split; [discriminate | exact Hin].
Qed.

(** ** The run as a whole *)

Lemma main_unfold (w : world) :
  main w =
    bind (logger INFO "Scanning for large directories...") (fun _ =>
    bind (find_large_directories w min_dir_size_mb) (fun large_dirs =>
      match large_dirs with
      | [] => logger INFO "No large directories found"
      | _ :: _ =>
          bind (logger INFO (newline +:+ "Select directories to move:")) (fun _ =>
          bind (prompt_directory_move large_dirs 10) (fun selected_dirs =>
            match selected_dirs with
            | [] => logger INFO "No directories selected"
            | _ :: _ =>
                bind (check_disk_usage w "/") (fun source_space =>
                  match source_space with
                  | None => ret tt
                  | Some space =>
                      bind (total_required w selected_dirs) (fun required =>
                        if available space <? required
                        then logger ERROR "Insufficient space"
                        else mount_and_transfer w selected_dirs)
                  end)
            end))
      end)).
Proof. reflexivity. Qed.

(** *** The stages before the mount *)

Lemma measure_loop_trace (w : world) (t : Z) (l : list path) :
  forall (acc : list (path * Q)) (st : state),
  let run := for_each l (measure w t) acc st in
  match fst run with
  | Ok _ => snd run = st
  | Raise e =>
      e = TypeError /\
      trace (snd run) = trace st ++ [Log ERROR "Failed to calculate directory size"]
  end.
Proof.
  induction l as [|p l IH]; intros acc st; cbn [for_each]; [reflexivity|].
  rewrite bind_unfold, measure_spec.
  destruct (kb_of w p) as [kb|]; [apply IH | split; reflexivity].
Qed.

Lemma find_large_directories_trace (w : world) (t : Z) (st : state) :
  let run := find_large_directories w t st in
  match fst run with
  | Ok _ => snd run = st
  | Raise e =>
      e = TypeError /\
      trace (snd run) = trace st ++ [Log ERROR "Failed to calculate directory size"]
  end.
Proof.
  unfold find_large_directories. rewrite bind_unfold.
  pose proof (measure_loop_trace w t (os_walk w home) [] st) as H. cbv zeta in H.
  destruct (for_each (os_walk w home) (measure w t) [] st) as [[found|e] st1]; exact H.
Qed.

Lemma total_required_trace (w : world) (selected : list path) :
  forall (acc : Z) (st : state),
  let run := for_each selected (fun d acc =>
      bind (calculate_dir_size w d) (fun size =>
        match size with
        | None => raise TypeError
        | Some kb => ret (acc + kb)
        end)) acc st in
  match fst run with
  | Ok _ => trace (snd run) = trace st
  | Raise e =>
      e = TypeError /\
      trace (snd run) = trace st ++ [Log ERROR "Failed to calculate directory size"]
  end.
Proof.
  induction selected as [|d l IH]; intros acc st; cbn [for_each]; [reflexivity|].
  rewrite !bind_unfold, calculate_dir_size_spec.
  destruct (kb_of w d) as [kb|]; [|split; reflexivity].
  rewrite ret_unfold.
  match goal with |- context [for_each l ?body ?a ?s] => specialize (IH a s) end.
  cbv zeta in IH.
  match goal with |- context [for_each l ?body ?a ?s] =>
    destruct (for_each l body a s) as [[r|e] st1] end; cbn [fst snd trace] in *.
  - now rewrite IH, app_nil_r.
  - destruct IH as [-> IH]. split; [reflexivity|]. now rewrite IH, app_nil_r.
Qed.

Lemma prompt_directory_move_exact (dir_info : list (path * Q)) (limit : Z) (st : state) :
  let offered := slice_to dir_info limit in
  let replies := answers (stdin st) in
  let run := prompt_directory_move dir_info limit st in
  exists evs,
    trace (snd run) = trace st ++ evs /\
    Forall talk evs /\
    fstab (snd run) = fstab st /\
    marked evs = chosen offered replies /\
    fst run = (if (length offered <=? length replies)%nat
               then Ok (chosen offered replies)
               else Raise EOFError) /\
    (if (length offered <=? length replies)%nat then True else last evs = Some (Input None)).
Proof.
  intros offered replies run.
  destruct (emits_new_events _ (prompt_directory_move dir_info limit) st
              (emits_prompt_directory_move dir_info limit)) as [Htrace Htalk].
  fold run in Htrace, Htalk.
  exists (new_events st (snd run)). split; [exact Htrace|]. split; [exact Htalk|].
  subst run. unfold prompt_directory_move. rewrite bind_unfold.
  destruct (offer_loop_exact limit dir_info offered 0 [] st)
    as (evs & Htr & Hfs & Hres & _ & _ & _ & Hmarked & Hlast).
  fold offered. fold replies in Hres, Hmarked, Hlast.
  destruct (for_each offered (offer limit dir_info) (0, []) st) as [[vars|e] st1];
    cbn [fst snd ret] in *; rewrite (new_events_app _ _ _ Htr);
    (split; [exact Hfs|]); (split; [exact Hmarked|]);
    destruct (length offered <=? length replies)%nat; try discriminate Hres;
    injection Hres as ->; split; auto.
Qed.

Lemma marked_is_log (evs : list event) : Forall is_log evs -> marked evs = [].
Proof.
  induction 1 as [|e evs He _ IH]; [reflexivity|].
  destruct e; try contradiction; exact IH.
Qed.

Lemma chosen_offered (offered : list (path * Q)) :
  forall (replies : list string) (d : path),
  d ∈ chosen offered replies -> d ∈ map fst offered.
Proof.
  induction offered as [|[p s] offered IH]; intros replies d; simpl.
  - intros H. apply elem_of_nil in H. contradiction.
  - destruct replies as [|r replies]; [intros H; apply elem_of_nil in H; contradiction|].
    destruct (decide (lower r = "y")).
    + intros H. apply elem_of_cons in H as [->|H]; [left | right; eauto].
    + intros H. right. eauto.
Qed.

Lemma chosen_none (offered : list (path * Q)) :
  forall replies : list string,
  Forall (fun r => lower r <> "y") replies -> chosen offered replies = [].
Proof.
  induction offered as [|[p s] offered IH]; intros replies Hall; [reflexivity|].
  destruct Hall as [|r replies Hr Hall]; [reflexivity|]. simpl.
  destruct (decide (lower r = "y")); [contradiction | now apply IH].
Qed.

Lemma elem_of_take_inv {A} (n : nat) (l : list A) (x : A) : x ∈ take n l -> x ∈ l.
Proof. intros H. rewrite <- (take_drop n l). apply elem_of_app. now left. Qed.

Lemma slice_to_subset {A} (l : list A) (stop : Z) (x : A) : x ∈ slice_to l stop -> x ∈ l.
Proof. unfold slice_to. destruct (0 <=? stop); apply elem_of_take_inv. Qed.

Lemma last_app_some {A} (a b : list A) (x : A) : last b = Some x -> last (a ++ b) = Some x.
Proof.
  destruct b as [|y b _] using rev_ind; [discriminate|].
  rewrite app_assoc, !last_snoc. auto.
Qed.

Lemma before_mount_touches_nothing (evs : list event) :
  Forall before_mount evs -> Forall touches_nothing evs.
Proof. intros H. eapply Forall_impl; [exact H|]. intros [] He; simpl; auto. Qed.

Lemma emits_before_mount_prompt (dir_info : list (path * Q)) (limit : Z) :
  emits before_mount (prompt_directory_move dir_info limit).
Proof.
  unfold prompt_directory_move. apply emits_bind; [|intros; apply emits_ret].
  apply emits_for_each. intros [p s] [i dirs]. unfold offer, print.
  emits_by ltac:(exact I).
Qed.

(** Up to the mount [main] only prints, reads answers, writes log lines and
    asks for the free space of [/].  It either ends there, or goes on to
    mount the drive with a non-empty list of approved directories, each of
    which the scan has listed as larger than the threshold and the operator
    has marked. *)
Lemma main_anatomy (w : world) (st : state) :
  let run := main w st in
  let evs := new_events st (snd run) in
  (Forall before_mount evs /\
   fstab (snd run) = fstab st /\
   match fst run with
   | Ok _ => True
   | Raise e => exists x, last evs = Some x /\ cause e x
   end) \/
  (exists (selected : list path) (offered : list (path * Q)) (before after : list event)
          (st4 : state),
     selected = chosen offered (answers (stdin st)) /\
     selected <> [] /\
     Forall (fun d => d ∈ os_walk w home /\ exceeds w min_dir_size_mb d = true) selected /\
     marked before = selected /\
     Forall before_mount before /\
     trace st4 = trace st ++ before /\
     fstab st4 = fstab st /\
     run = mount_and_transfer w selected st4 /\
     trace (snd run) = trace st4 ++ after /\
     evs = before ++ after).
Proof.
  intros run evs. subst evs run. rewrite main_unfold.
  rewrite bind_unfold. cbn [logger emit].
  set (st0 := {| trace := trace st ++ [Log INFO "Scanning for large directories..."];
                 stdin := stdin st; fstab := fstab st |}).
  rewrite bind_unfold.
  pose proof (find_large_directories_trace w min_dir_size_mb st0) as Hfind.
  pose proof (find_large_directories_entries w min_dir_size_mb st0) as Hentries.
  pose proof (keeps_find_large_directories w fstab (fun _ _ => eq_refl) min_dir_size_mb st0)
    as Hf1.
  cbv zeta in Hfind.
  destruct (find_large_directories w min_dir_size_mb st0) as [[large|e] st1];
    cbn [fst snd] in *.
  2:{ left. destruct Hfind as [-> Ht].
      erewrite new_events_app; [|rewrite Ht; simpl; rewrite <- app_assoc; reflexivity].
      split; [repeat constructor; simpl; one_of|]. split; [exact Hf1|].
      eexists; split; [reflexivity | exact I]. }
  subst st1. specialize (Hentries st0 large eq_refl).
  destruct large as [|c large].
  { left. erewrite new_events_app; [|simpl; rewrite <- app_assoc; reflexivity].
    split; [repeat constructor; simpl; one_of|]. split; [reflexivity | exact I]. }
  rewrite bind_unfold. cbn [logger emit].
  set (st1 := {| trace := trace st0 ++ [Log INFO (newline +:+ "Select directories to move:")];
                 stdin := stdin st0; fstab := fstab st0 |}).
  rewrite bind_unfold.
  destruct (prompt_directory_move_exact (c :: large) 10 st1)
    as (e2 & Ht2 & _ & Hf2 & Hm2 & Hres2 & Hlast2).
  assert (Hq2 : Forall before_mount e2).
  { destruct (emits_before_mount_prompt (c :: large) 10 st1) as (e2' & Ht2' & Hq2).
    rewrite Ht2 in Ht2'. apply app_inv_head in Ht2'. now subst e2'. }
  change (stdin st1) with (stdin st) in *.
  remember (slice_to (c :: large) 10) as offered eqn:Hoffered.
  assert (Hq : Forall before_mount
            (Log INFO "Scanning for large directories..."
             :: Log INFO (newline +:+ "Select directories to move:") :: e2)).
  { constructor; [simpl; one_of|]. constructor; [simpl; one_of | exact Hq2]. }
  destruct (length offered <=? length (answers (stdin st)))%nat.
  2:{ left. destruct (prompt_directory_move (c :: large) 10 st1) as [[sel|e] st2];
        cbn [fst snd] in *; [discriminate|]. injection Hres2 as ->.
      erewrite new_events_app; [|rewrite Ht2; simpl; rewrite <- !app_assoc; reflexivity].
      split; [exact Hq|]. split; [exact Hf2|].
      exists (Input None). split; [|exact I].
      do 2 apply last_app_some. exact Hlast2. }
  clear Hlast2.
  destruct (prompt_directory_move (c :: large) 10 st1) as [[selected|e] st2];
    cbn [fst snd] in *; [|discriminate].
  injection Hres2 as Hsel.
  assert (Hpre2 : trace st2 = trace st ++
            Log INFO "Scanning for large directories..."
            :: Log INFO (newline +:+ "Select directories to move:") :: e2)
    by (rewrite Ht2; simpl; rewrite <- !app_assoc; reflexivity).
  assert (Hfs2 : fstab st2 = fstab st) by exact Hf2.
  destruct selected as [|d selected].
  { left. erewrite new_events_app; [|simpl; rewrite Hpre2, <- !app_assoc; reflexivity].
    split.
    - change (Forall before_mount
                ((Log INFO "Scanning for large directories..."
                  :: Log INFO (newline +:+ "Select directories to move:") :: e2) ++
                 [Log INFO "No directories selected"])).
      apply Forall_app. split; [exact Hq|]. repeat constructor.
    - split; [exact Hf2 | exact I]. }
  rewrite bind_unfold.
  pose proof (keeps_check_disk_usage w fstab (fun _ _ => eq_refl) "/" st2) as Hf3.
  assert (Hcheck : exists e3, trace (snd (check_disk_usage w "/" st2)) = trace st2 ++ e3 /\
                              Forall before_mount e3 /\ marked e3 = [] /\
                              exists space, fst (check_disk_usage w "/" st2) = Ok space).
  { unfold check_disk_usage, try_except, bind, history, emit, logger, emit, ret, raise.
    simpl. destruct (disk_usage w (trace st2) "/") as [[[t u] fr]|]; simpl.
    - exists [DiskUsage "/"]. repeat split; eauto. repeat constructor.
    - exists [DiskUsage "/"; Log ERROR "Failed to check disk usage"].
      split; [now rewrite <- app_assoc|]. repeat split; eauto.
      repeat constructor. }
  destruct Hcheck as (e3 & Ht3 & Hq3 & Hm3 & space & Hres3).
  destruct (check_disk_usage w "/" st2) as [r3 st3]; cbn [fst snd] in *. subst r3.
  assert (Hpre3 : trace st3 = trace st ++
            (Log INFO "Scanning for large directories..."
             :: Log INFO (newline +:+ "Select directories to move:") :: e2) ++ e3)
    by (rewrite Ht3, Hpre2, <- !app_assoc; reflexivity).
  assert (Hq' : Forall before_mount
            ((Log INFO "Scanning for large directories..."
              :: Log INFO (newline +:+ "Select directories to move:") :: e2) ++ e3))
    by (apply Forall_app; split; assumption).
  assert (Hmarked : marked
            ((Log INFO "Scanning for large directories..."
              :: Log INFO (newline +:+ "Select directories to move:") :: e2) ++ e3)
            = chosen offered (answers (stdin st))).
  { simpl. now rewrite marked_app, Hm3, app_nil_r, Hm2. }
  assert (Hfs3 : fstab st3 = fstab st) by congruence.
  remember ((Log INFO "Scanning for large directories..."
             :: Log INFO (newline +:+ "Select directories to move:") :: e2) ++ e3)
    as before eqn:Hbefore.
  clear Hbefore Hpre2 Ht3 Ht2 Hq.
  destruct space as [space|].
  2:{ left. erewrite new_events_app; [|exact Hpre3].
      split; [exact Hq'|]. split; [exact Hfs3 | exact I]. }
  rewrite bind_unfold.
  pose proof (total_required_trace w (d :: selected) 0 st3) as Hreq.
  pose proof (keeps_total_required w fstab (fun _ _ => eq_refl) (d :: selected) st3) as Hf4.
  cbv zeta in Hreq. fold (total_required w (d :: selected)) in Hreq.
  destruct (total_required w (d :: selected) st3) as [[required|e] st4];
    cbn [fst snd] in *.
  2:{ left. destruct Hreq as [-> Ht4].
      erewrite new_events_app; [|rewrite Ht4, Hpre3, <- app_assoc; reflexivity].
      split; [apply Forall_app; split; [exact Hq' | repeat constructor; simpl; one_of]|].
      split; [congruence|].
      eexists. split; [apply last_app_some; reflexivity | exact I]. }
  destruct (available space <? required).
  { left. erewrite new_events_app; [|simpl; rewrite Hreq, Hpre3, <- app_assoc; reflexivity].
    split; [apply Forall_app; split; [exact Hq' | repeat constructor; simpl; one_of]|].
    split; [simpl; congruence | exact I]. }
  right.
  assert (Hafter : emits (fun _ => True) (mount_and_transfer w (d :: selected))).
  { unfold mount_and_transfer, mount_drive, verify_mount_point, update_fstab, logger.
    emits_by ltac:(exact I). apply emits_anything_process. }
  destruct (Hafter st4) as (after & Hta & _).
  exists (d :: selected), offered, before, after, st4.
  split; [exact Hsel|]. split; [discriminate|].
  split.
  { rewrite Forall_forall. intros x Hx. rewrite Hsel in Hx.
    apply chosen_offered in Hx. apply list_elem_of_fmap in Hx as (cx & -> & Hcx).
    rewrite Hoffered in Hcx. apply slice_to_subset in Hcx. now apply Hentries. }
  split; [congruence|].
  split; [exact Hq'|]. split; [rewrite Hreq; exact Hpre3|]. split; [congruence|].
  split; [reflexivity|]. split; [exact Hta|].
  apply new_events_app. rewrite Hta, Hreq, Hpre3, <- app_assoc. reflexivity.
Qed.

(** *** From the mount on *)

Lemma emits_for_each_in {A B} P (l : list A) (body : A -> B -> M B) (acc : B) :
  (forall x, x ∈ l -> forall b, emits P (body x b)) -> emits P (for_each l body acc).
Proof.
  revert acc. induction l as [|x l IH]; intros acc Hb; simpl.
  - apply emits_ret.
  - apply emits_bind; [apply Hb; left|].
    intros a. apply IH. intros y Hy. apply Hb. now right.
Qed.

Lemma process_loop_cause (w : world) (selected : list path) :
  forall st : state,
  let run := for_each selected (fun source_dir _ => process w source_dir) tt st in
  match fst run with
  | Ok _ => True
  | Raise e => e = OSError /\ exists x, last (new_events st (snd run)) = Some x /\ cause e x
  end.
Proof.
  induction selected as [|d l IH]; intros st; cbn [for_each]; [exact I|].
  rewrite bind_unfold.
  pose proof (process_outcome w d st) as Hout. cbv zeta in Hout.
  destruct (emits_anything_process w d st) as (evs1 & Ht1 & _).
  destruct (process w d st) as [[[]|e] st1]; cbn [fst snd] in *.
  - specialize (IH st1). cbv zeta in IH.
    assert (Hloop : emits (fun _ => True)
              (for_each l (fun source_dir _ => process w source_dir) tt)).
    { apply emits_for_each. intros. apply emits_anything_process. }
    destruct (Hloop st1) as (evs2 & Ht2 & _).
    rewrite (new_events_app _ _ _ Ht2) in IH.
    erewrite new_events_app; [|rewrite Ht2, Ht1, <- app_assoc; reflexivity].
    destruct (fst (for_each l (fun source_dir _ => process w source_dir) tt st1));
      [exact I|].
    destruct IH as (He & x & Hlast & Hcause). split; [exact He|].
    exists x. split; [|exact Hcause].
    now apply last_app_some.
  - destruct Hout as [Hout|[[= ->] (argv & Hargv & Hlast)]]; [discriminate|].
    split; [reflexivity|]. eexists. split; [exact Hlast|].
    among Hargv; subst argv; simpl; eexists _, _; (split; [reflexivity|]); one_of.
Qed.

Lemma process_loop_anatomy (w : world) (selected : list path) (st : state) :
  let run := for_each selected (fun source_dir _ => process w source_dir) tt st in
  let evs := new_events st (snd run) in
  trace (snd run) = trace st ++ evs /\
  fstab (snd run) = fstab st /\
  Forall (fun e => exists d, d ∈ selected /\
                     concerns (show_path d) (show_path (mount_point ++ [path_name d])) e) evs /\
  match fst run with
  | Ok _ => True
  | Raise e => e = OSError /\ exists x, last evs = Some x /\ cause e x
  end.
Proof.
  intros run evs. subst evs run.
  assert (Hemits : emits (fun e => exists d, d ∈ selected /\
                     concerns (show_path d) (show_path (mount_point ++ [path_name d])) e)
            (for_each selected (fun source_dir _ => process w source_dir) tt)).
  { apply emits_for_each_in. intros d Hd _.
    eapply emits_weaken; [|apply emits_concerns_process]. simpl. eauto. }
  destruct (emits_new_events _ _ st Hemits) as [Htrace Hall].
  split; [exact Htrace|]. split; [|split; [exact Hall | apply process_loop_cause]].
  apply (keeps_for_each fstab). intros. apply keeps_fstab_process.
Qed.

Lemma mount_and_transfer_anatomy (w : world) (selected : list path) (st : state) :
  let run := mount_and_transfer w selected st in
  let evs := new_events st (snd run) in
  let mp := show_path mount_point in
  let mount := ["sudo"; "mount"; drive; mp] in
  (fstab (snd run) = fstab st /\
   ((fst run = Ok tt /\ evs = [Mkdir mp; Log ERROR "Failed to create mount point"]) \/
    (exists rc, rc <> 0 /\ fst run = Ok tt /\
                evs = [Mkdir mp; Run mount None (Exited rc); Log ERROR "Mount error"]) \/
    (fst run = Raise OSError /\ evs = [Mkdir mp; Run mount None NotStarted]))) \/
  (exists moved rest,
     evs = Mkdir mp :: Run mount None (Exited 0) :: moved ++ rest /\
     Forall (fun e => exists d, d ∈ selected /\
                       concerns (show_path d) (show_path (mount_point ++ [path_name d])) e)
       moved /\
     ((fst run = Raise OSError /\ rest = [] /\ fstab (snd run) = fstab st /\
       exists x, last moved = Some x /\ cause OSError x) \/
      (exists (s s' : state) (b : bool),
         fstab s = fstab st /\
         update_fstab w drive mp s = (Ok b, s') /\
         fst run = Ok tt /\
         fstab (snd run) = fstab s' /\
         rest = new_events s s' ++
                if b then [Log INFO (newline +:+ "Updated fstab successfully");
                           Log INFO "Disk space rebalancing complete"]
                else []))).
Proof.
  intros run evs mp mount. subst evs run.
  unfold mount_and_transfer. fold mp. rewrite bind_unfold.
  destruct (mount_drive_spec w drive mp st) as [Hres Hevs]. fold mount in Hres, Hevs.
  pose proof (keeps_fstab_mount_drive w drive mp st) as Hfs.
  assert (Hm : emits (fun _ => True) (mount_drive w drive mp))
    by (unfold mount_drive, verify_mount_point, logger; emits_by ltac:(exact I)).
  destruct (emits_new_events _ _ st Hm) as [Ht1 _].
  destruct (mount_drive w drive mp st) as [res s1]; cbn [fst snd] in *. subst res.
  destruct (mkdir w (trace st) mp);
    [destruct (spawn w _ mount None) as [rc|]|]; cbn [negb ret fst snd].
  - (* the mount command has run *)
    destruct (rc =? 0) eqn:Hrc; cbn [negb ret fst snd];
      [apply Z.eqb_eq in Hrc; subst rc | apply Z.eqb_neq in Hrc].
    + right. rewrite bind_unfold.
      destruct (process_loop_anatomy w selected s1) as (Ht2 & Hfs2 & Hall & Hcause).
      destruct (for_each selected (fun source_dir _ => process w source_dir) tt s1)
        as [[[]|e] s2]; cbn [fst snd] in *.
      * rewrite bind_unfold.
        assert (Hu : emits (fun _ => True) (update_fstab w drive mp))
          by (unfold update_fstab, logger; emits_by ltac:(exact I)).
        destruct (emits_new_events _ _ s2 Hu) as [Ht3 _].
        pose proof (update_fstab_spec w drive mp s2) as [Hspec _]. cbv zeta in Hspec.
        destruct (update_fstab w drive mp s2) as [[b|e] s3] eqn:Hup; cbn [fst snd] in *.
        2:{ repeat match type of Hspec with
                   | context [match ?c with _ => _ end] => destruct c
                   end; discriminate Hspec. }
        exists (new_events s1 s2),
               (new_events s2 s3 ++
                if b then [Log INFO (newline +:+ "Updated fstab successfully");
                           Log INFO "Disk space rebalancing complete"]
                else []).
        split.
        { apply new_events_app.
          destruct b; cbn [logger emit bind fst snd trace ret];
            rewrite ?bind_unfold; cbn [logger emit bind fst snd trace ret];
            rewrite Ht3, Ht2, Ht1, Hevs, <- ?app_assoc; simpl; rewrite <- ?app_assoc;
            rewrite ?app_nil_r; reflexivity. }
        split; [exact Hall|]. right. exists s2, s3, b.
        split; [congruence|]. split; [exact Hup|].
        destruct b; rewrite ?bind_unfold; cbn [logger emit fst snd fstab ret]; auto.
      * destruct Hcause as (-> & x & Hlast & Hcause).
        exists (new_events s1 s2), [].
        split; [apply new_events_app; rewrite Ht2, Ht1, Hevs, app_nil_r, <- app_assoc;
                reflexivity|].
        split; [exact Hall|]. left. split; [reflexivity|]. split; [reflexivity|].
        split; [congruence | eauto].
    + left. split; [exact Hfs|]. right. left. exists rc. auto.
  - (* the mount command could not be started *)
    left. split; [exact Hfs|]. right. right. auto.
  - (* the mount point could not be created *)
    left. split; [exact Hfs|]. left. auto.
Qed.

(** *** Properties of the run *)

Lemma complete_not_before (evs : list event) :
  Forall before_mount evs -> Log INFO "Disk space rebalancing complete" ∈ evs -> False.
Proof.
  intros Hall Hin. rewrite Forall_forall in Hall. apply Hall in Hin. simpl in Hin. among Hin.
Qed.

Lemma complete_not_moved (selected : list path) (evs : list event) :
  Forall (fun e => exists d, d ∈ selected /\
                     concerns (show_path d) (show_path (mount_point ++ [path_name d])) e) evs ->
  Log INFO "Disk space rebalancing complete" ∈ evs -> False.
Proof.
  intros Hall Hin. rewrite Forall_forall in Hall. apply Hall in Hin as (d & _ & Hin).
  simpl in Hin. among Hin.
Qed.

Lemma after_mount_events (w : world) (st st4 : state) (selected : list path)
    (after : list event) :
  main w st = mount_and_transfer w selected st4 ->
  trace (snd (main w st)) = trace st4 ++ after ->
  new_events st4 (snd (mount_and_transfer w selected st4)) = after.
Proof. intros Hrun Hta. apply new_events_app. now rewrite <- Hrun. Qed.

Ltac not_complete Hq Hall Hin :=
  exfalso;
  apply elem_of_app in Hin as [Hin|Hin]; [exact (complete_not_before _ Hq Hin)|];
  among Hin; apply elem_of_app in Hin as [Hin|Hin];
  [exact (complete_not_moved _ _ Hall Hin) | among Hin].

(** X12.  Whatever happens in a run of [main], the mount table is only ever
    appended to, and only by the one entry for the drive or an initial part
    of it: at the end it is what it was, or what it was followed by an
    initial part of the entry, and the latter only if the entry was absent
    from the table as read (CR LF and CR read as LF).  And the closing line
    [Disk space rebalancing complete] is logged only when the table, as
    read, contains the entry. *)
Theorem main_mount_table (w : world) (st : state) :
  let entry := fstab_entry drive (show_path mount_point) in
  let run := main w st in
  let evs := new_events st (snd run) in
  entry = "/dev/nvme0n1p1 /mnt/temp ext4 defaults 0 2" +:+ newline /\
  (fstab (snd run) = fstab st \/
   exists content n,
     fstab st = Some content /\ str_in entry (universal_newlines content) = false /\
     fstab (snd run) = Some (content +:+ substring 0 n entry)) /\
  (Log INFO "Disk space rebalancing complete" ∈ evs ->
   exists content,
     fstab (snd run) = Some content /\ str_in entry (universal_newlines content) = true).
Proof.
  intros entry run evs. split; [reflexivity|]. subst run evs.
  destruct (main_anatomy w st)
    as [(Hq & Hfs & _)
       |(selected & offered & before & after & st4 & _ & _ & _ & _ & Hq & Ht4 & Hfs4 &
         Hrun & Hta & Hevs)].
  { split; [now left|]. intros Hin. destruct (complete_not_before _ Hq Hin). }
  rewrite Hevs. clear Hevs.
  pose proof (after_mount_events _ _ _ _ _ Hrun Hta) as Hafter.
  rewrite Hrun. clear Hrun Hta.
  destruct (mount_and_transfer_anatomy w selected st4)
    as [(Hfs' & Hcases)|(moved & rest & Hev & Hall & Hcases)];
    rewrite Hafter in *; clear Hafter.
  { split; [left; congruence|]. intros Hin. exfalso.
    apply elem_of_app in Hin as [Hin|Hin]; [exact (complete_not_before _ Hq Hin)|].
    destruct Hcases as [[_ ->]|[(rc & _ & _ & ->)|[_ ->]]]; among Hin. }
  subst after.
  destruct Hcases as [(_ & -> & Hfs' & _)|(s & s' & b & Hfs_s & Hup & _ & Hfs' & ->)].
  { split; [left; congruence|]. intros Hin. exfalso.
    apply elem_of_app in Hin as [Hin|Hin]; [exact (complete_not_before _ Hq Hin)|].
    among Hin. rewrite app_nil_r in Hin. exact (complete_not_moved _ _ Hall Hin). }
  pose proof (update_fstab_spec w drive (show_path mount_point) s) as [Hspec _].
  cbv zeta in Hspec. rewrite Hup in Hspec. cbn [fst snd] in Hspec. fold entry in Hspec.
  rewrite Hfs'. rewrite Hfs_s, Hfs4 in Hspec.
  destruct (fstab st) as [content|].
  2:{ injection Hspec as -> -> ->. split; [now left|].
      intros Hin. not_complete Hq Hall Hin. }
  destruct (str_in entry (universal_newlines content)) eqn:Hpresent.
  { injection Hspec as -> -> ->. split; [now left|]. intros _. eauto. }
  destruct (spawn w _ _ (Some entry)) as [rc|].
  - destruct (rc =? 0); injection Hspec as -> -> ->.
    + split.
      { right. exists content, (String.length entry).
        split; [reflexivity | split; [exact Hpresent|]]. now rewrite substring_all. }
      intros _. exists (content +:+ entry). split; [reflexivity|].
      apply (appended_entry_is_read entry content). reflexivity.
    + split; [right; eauto|].
      intros Hin. not_complete Hq Hall Hin.
  - injection Hspec as -> -> ->. split; [now left|].
    intros Hin. not_complete Hq Hall Hin.
Qed.

Lemma commands_touches_nothing (evs : list event) :
  Forall touches_nothing evs -> commands evs = [].
Proof.
  induction 1 as [|e evs He _ IH]; [reflexivity|].
  destruct e; try contradiction; exact IH.
Qed.

Lemma answers_keep (P : string -> Prop) (lines : list string) :
  Forall P lines -> Forall P (answers lines).
Proof.
  intros H. rewrite Forall_forall in *. intros l Hl.
  apply H. unfold answers in Hl. apply list_elem_of_filter in Hl. tauto.
Qed.

(** X13.  Nothing is touched without the operator's consent: when no line
    of standard input is [y] or [Y], a run of [main] only prints, reads,
    writes log lines and asks for the free space; it runs no command,
    creates no directory, removes nothing, and leaves the mount table as it
    is. *)
Theorem main_needs_approval (w : world) (st : state) :
  Forall (fun l => lower l <> "y") (stdin st) ->
  let run := main w st in
  let evs := new_events st (snd run) in
  Forall touches_nothing evs /\
  commands evs = [] /\
  fstab (snd run) = fstab st.
Proof.
  intros Hno run evs. subst run evs.
  destruct (main_anatomy w st)
    as [(Hq & Hfs & _)|(selected & offered & before & after & st4 & Hsel & Hne & _)].
  - apply before_mount_touches_nothing in Hq.
    split; [exact Hq|]. split; [now apply commands_touches_nothing | exact Hfs].
  - exfalso. apply Hne. rewrite Hsel. apply chosen_none, answers_keep, Hno.
Qed.

Lemma main_needs_approval_witness :
  let st := start ["n"; "maybe"; "N"] "" in
  let run := main (calm two_tree) st in
  Forall (fun l => lower l <> "y") (stdin st) /\
  Forall touches_nothing (new_events st (snd run)) /\
  commands (new_events st (snd run)) = [] /\
  fstab (snd run) = fstab st.
Proof.
  intros st run.
  assert (H : Forall (fun l => lower l <> "y") (stdin st))
    by (repeat constructor; discriminate).
  split; [exact H|].
  exact (main_needs_approval (calm two_tree) st H).
Defined.

(** X14.  The mount is a gate.  Whatever [main] does beyond printing,
    reading, logging and asking for the free space starts with the creation
    of [/mnt/temp]; the next action, if any, is the [mount] command; and
    anything follows the [mount] command only if it exited with code 0,
    except the error line of a non-zero code.  A [mount] that cannot be
    started ends the run with an [OSError]. *)
Theorem main_mount_gate (w : world) (st : state) :
  let run := main w st in
  let evs := new_events st (snd run) in
  let mount := ["sudo"; "mount"; "/dev/nvme0n1p1"; "/mnt/temp"] in
  Forall touches_nothing evs \/
  exists before tail,
    evs = before ++ Mkdir "/mnt/temp" :: tail /\
    Forall touches_nothing before /\
    (tail = [Log ERROR "Failed to create mount point"] \/
     exists r after,
       tail = Run mount None r :: after /\
       match r with
       | Exited 0 => True
       | Exited _ => after = [Log ERROR "Mount error"] /\ fst run = Ok tt
       | NotStarted => after = [] /\ fst run = Raise OSError
       end).
Proof.
  intros run evs mount. subst run evs.
  destruct (main_anatomy w st)
    as [(Hq & _)
       |(selected & offered & before & after & st4 & _ & _ & _ & _ & Hq & Ht4 & Hfs4 &
         Hrun & Hta & Hevs)].
  { left. now apply before_mount_touches_nothing. }
  right. rewrite Hevs. clear Hevs.
  pose proof (after_mount_events _ _ _ _ _ Hrun Hta) as Hafter.
  rewrite Hrun. clear Hrun Hta.
  apply before_mount_touches_nothing in Hq.
  destruct (mount_and_transfer_anatomy w selected st4)
    as [(_ & [[_ Hev]|[(rc & Hrc & Hres & Hev)|[Hres Hev]]])|(moved & rest & Hev & _)];
    rewrite Hafter in Hev; rewrite Hev; exists before; eexists;
    (split; [reflexivity|]); (split; [exact Hq|]).
  - now left.
  - right. exists (Exited rc), [Log ERROR "Mount error"]. split; [reflexivity|].
    destruct rc; [contradiction| |]; auto.
  - right. exists NotStarted, []. auto.
  - right. exists (Exited 0). eexists. split; [reflexivity | exact I].
Qed.

Lemma marked_elem (d : path) (evs : list event) : d ∈ marked evs -> Stdout (Marked d) ∈ evs.
Proof.
  induction evs as [|e evs IH]; simpl; intros H.
  - apply elem_of_nil in H. contradiction.
  - apply elem_of_app in H as [H|H]; [|right; now apply IH].
    destruct e as [[]| | | | | | | | | |]; simpl in H; among H. subst. left.
Qed.

(** X15.  Every event of a run of [main] is accounted for.  It belongs to
    the dialogue and the checks before the mount, to the mount, to the
    update of the mount table, or it concerns one directory and its copy
    under [/mnt/temp]; and such a directory is always one that the walk of
    [/home] has listed, whose size exceeds 1000 MB, and that the operator
    has marked for moving.  In particular no command is ever run on a
    directory that was not approved. *)
Theorem main_only_approved (w : world) (st : state) :
  let evs := new_events st (snd (main w st)) in
  Forall (fun e =>
            before_mount e \/ mounting e \/ persisting e \/
            exists d, Stdout (Marked d) ∈ evs /\
                      d ∈ os_walk w home /\
                      exceeds w min_dir_size_mb d = true /\
                      concerns (show_path d) (show_path (mount_point ++ [path_name d])) e)
    evs.
Proof.
  intros evs. subst evs.
  destruct (main_anatomy w st)
    as [(Hq & _)
       |(selected & offered & before & after & st4 & _ & _ & Hlarge & Hmarked & Hq & Ht4 &
         Hfs4 & Hrun & Hta & Hevs)].
  { eapply Forall_impl; [exact Hq|]. simpl. auto. }
  rewrite Hevs. clear Hevs.
  pose proof (after_mount_events _ _ _ _ _ Hrun Hta) as Hafter. clear Hrun Hta.
  apply Forall_app. split; [eapply Forall_impl; [exact Hq|]; simpl; auto|].
  destruct (mount_and_transfer_anatomy w selected st4)
    as [(_ & [[_ Hev]|[(rc & _ & _ & Hev)|[_ Hev]]])|(moved & rest & Hev & Hall & Hcases)];
    rewrite Hafter in Hev; rewrite Hev;
    try (each ltac:(right; left; simpl; first [reflexivity | split; reflexivity | one_of])).
  constructor; [right; left; reflexivity|].
  constructor; [right; left; split; reflexivity|].
  apply Forall_app. split.
  - eapply Forall_impl; [exact Hall|]. simpl. intros e (d & Hd & He).
    right. right. right. exists d.
    rewrite Forall_forall in Hlarge. destruct (Hlarge d Hd) as [Hwalk Hbig].
    split; [|auto].
    apply elem_of_app. left. apply marked_elem. now rewrite Hmarked.
  - destruct Hcases as [(_ & -> & _)|(s & s' & b & _ & Hup & _ & _ & ->)]; [constructor|].
    pose proof (update_fstab_spec w drive (show_path mount_point) s) as [Hspec _].
    cbv zeta in Hspec. rewrite Hup in Hspec. cbn [fst snd] in Hspec.
    destruct (fstab s) as [content|];
      [destruct (str_in _ (universal_newlines content));
       [|destruct (spawn w _ _ (Some _)) as [rc|]; [destruct (rc =? 0)|]]|];
      injection Hspec as -> -> _; cbn [app];
      each ltac:(right; right; left; simpl; first [reflexivity | split; reflexivity | one_of]).
Qed.

(** X16.  Which failures of the environment end [main] with an exception,
    and what the run did last when they do: the end of standard input, after
    which [input] raises [EOFError]; a directory whose size cannot be
    computed, after whose error line the division raises [TypeError]; and a
    [mount], [rsync] or [diff] that could not be started, which raises
    [OSError].  A command that exits with an error code never ends [main]
    ([CalledProcessError] is caught wherever it is raised), and neither do
    the failures of [mkdir], [rm], [tee], of the link calls, of the query
    for the free space or of reading the mount table.  (What [print], the
    decoding of a reply or the interpreter itself may raise, such as an
    encoding error, a closed standard output or the recursion limit, is not
    part of the model.) *)
Theorem main_failure_modes (w : world) (st : state) :
  let run := main w st in
  let evs := new_events st (snd run) in
  match fst run with
  | Ok _ => True
  | Raise e => exists x, last evs = Some x /\ cause e x
  end.
Proof.
  intros run evs. subst run evs.
  destruct (main_anatomy w st)
    as [(_ & _ & Hcause)
       |(selected & offered & before & after & st4 & _ & _ & _ & _ & _ & _ & _ &
         Hrun & Hta & Hevs)]; [exact Hcause|].
  rewrite Hevs. clear Hevs.
  pose proof (after_mount_events _ _ _ _ _ Hrun Hta) as Hafter.
  rewrite Hrun. clear Hrun Hta.
  destruct (mount_and_transfer_anatomy w selected st4)
    as [(_ & [[-> _]|[(rc & _ & -> & _)|[-> Hev]]])|(moved & rest & Hev & _ & Hcases)];
    try exact I; rewrite Hafter in Hev; rewrite Hev.
  - eexists. split; [apply last_app_some; reflexivity|].
    simpl. eexists _, _. split; [reflexivity | one_of].
  - destruct Hcases as [(-> & -> & _ & x & Hlast & Hcause)|(s & s' & b & _ & _ & -> & _)];
      [|exact I].
    exists x. split; [|exact Hcause].
    apply last_app_some. rewrite app_nil_r.
    change (Mkdir (show_path mount_point)
            :: Run ["sudo"; "mount"; drive; show_path mount_point] None (Exited 0) :: moved)
      with ([Mkdir (show_path mount_point);
             Run ["sudo"; "mount"; drive; show_path mount_point] None (Exited 0)] ++ moved).
    now apply last_app_some.
Qed.

(** *** Two runs of the loop body, and a run of [main] *)

(** All commands succeed: the original is deleted and replaced by a link
    only after the comparison, and the directory is reported as moved. *)
Example process_moves_a_directory :
  let w := calm two_tree in
  let run := process w ["home"; "a"] (start [] "") in
  fst run = Ok tt /\
  trace (snd run) =
    [Log INFO (newline +:+ "Processing: /home/a");
     Run (rsync_dry_run "/home/a" "/mnt/temp/a") None (Exited 0);
     Run (rsync_delete "/home/a" "/mnt/temp/a") None (Exited 0);
     Run (diff_r "/home/a" "/mnt/temp/a") None (Exited 0);
     IsSymlink "/home/a"; PathExists "/home/a";
     Run ["sudo"; "rm"; "-rf"; "/home/a"] None (Exited 0);
     SymlinkTo "/home/a" "/mnt/temp/a";
     Log INFO "Successfully moved: /home/a"] /\
  links_made w [] (trace (snd run)) = [("/home/a", "/mnt/temp/a")].
Proof. repeat split. Qed.

(** The comparison finds a difference: the original is left alone. *)
Example process_keeps_an_unverified_original :
  let w := exit_one [diff_r "/home/a" "/mnt/temp/a"] two_tree in
  let run := process w ["home"; "a"] (start [] "") in
  fst run = Ok tt /\
  trace (snd run) =
    [Log INFO (newline +:+ "Processing: /home/a");
     Run (rsync_dry_run "/home/a" "/mnt/temp/a") None (Exited 0);
     Run (rsync_delete "/home/a" "/mnt/temp/a") None (Exited 0);
     Run (diff_r "/home/a" "/mnt/temp/a") None (Exited 1);
     Log ERROR "Failed to process: /home/a"] /\
  links_made w [] (trace (snd run)) = [].
Proof. repeat split. Qed.

(** The operator approves the first of two candidates; the run ends with
    the closing line and the entry in the mount table. *)
Example main_closing_line :
  let run := main (calm two_tree) (start ["y"; "n"] "") in
  fst run = Ok tt /\
  marked (trace (snd run)) = [["home"; "a"]] /\
  last (trace (snd run)) = Some (Log INFO "Disk space rebalancing complete") /\
  fstab (snd run) = Some ("/dev/nvme0n1p1 /mnt/temp ext4 defaults 0 2" +:+ newline).
Proof. repeat split. Qed.

(** [tee] appends the entry and then fails: [update_fstab] reports a
    failure, and the table holds the entry all the same; when [tee] fails
    half-way the table ends in a part of the entry. *)
Example update_fstab_failure_after_append :
  let entry := "/dev/nvme0n1p1 /mnt/temp ext4 defaults 0 2" +:+ newline in
  let whole := update_fstab (tee_interrupted 43 []) "/dev/nvme0n1p1" "/mnt/temp" (start [] "") in
  let part := update_fstab (tee_interrupted 14 []) "/dev/nvme0n1p1" "/mnt/temp" (start [] "") in
  fst whole = Ok false /\ fstab (snd whole) = Some entry /\
  fst part = Ok false /\ fstab (snd part) = Some "/dev/nvme0n1p1".
Proof. repeat split. Qed.

(** An entry that cannot be examined has no size, and neither has a path
    into a directory that cannot be traversed; such a directory itself, like
    a path that leads nowhere or to a file, has size 0. *)
Example calculate_dir_size_of_other_paths :
  let failed := (Ok None, {| trace := [Log ERROR "Failed to calculate directory size"];
                             stdin := []; fstab := Some "" |}) in
  calculate_dir_size (calm locked_tree) ["home"; "locked"; "secret"] (start [] "") = failed /\
  calculate_dir_size (calm closed_tree) ["home"; "private"; "x"] (start [] "") = failed /\
  calculate_dir_size (calm closed_tree) ["home"; "private"] (start [] "")
    = (Ok (Some 0), start [] "") /\
  calculate_dir_size (calm closed_tree) ["home"; "missing"] (start [] "")
    = (Ok (Some 0), start [] "") /\
  calculate_dir_size (calm closed_tree) ["home"; "big"; "film"] (start [] "")
    = (Ok (Some 0), start [] "") /\
  os_walk (calm closed_tree) home = [["home"; "private"]; ["home"; "big"]].
Proof. repeat split. Qed.
